(** * Solar-eclipse script compiler and sequencer: a shallow embedding

    The development follows the Python sources module by module:

    - [Py]         the built-ins the program calls ([str.split], [int],
                   [float], format specifications, [datetime]);
    - [Strconv]    [sem/strconv.py];
    - [Event]      [sem/event.py] ([find_bounds], [EventManager]);
    - [Action]     [sem/action.py];
    - [Semscript]  [sem/semscript.py] (the command classes);
    - [Script]     [sem/script.py] (the parser);
    - [Sequence]   [sem/sequence.py];
    - [Sequencer]  [sequencer.py] (the control loop).

    Conventions.  In [sem/semscript.py], whose loops accumulate floats,
    a Python [float] is a binary64 number ([Py.float64]) and every
    operation rounds as the hardware does.  Elsewhere a [float] is the
    exact rational ([Q]) that its decimal text denotes; every concrete
    input used there is a short decimal or dyadic number on which binary
    floating point and exact arithmetic agree.  An aware UTC [datetime]
    is its number of microseconds since 0001-01-01T00:00:00 ([Z]), a
    [timedelta] a number of microseconds ([Z]); the range limits of
    [datetime] (years 1..9999) are checked where the program builds one
    from text and where a loop shifts the time of an action
    ([Py.datetime_add]), and are not checked by [+] elsewhere.  A Python
    exception is a [Raise e] result. *)

From Stdlib Require Import ZArith QArith Qround Ascii String List Lia Lqa.
From Stdlib Require Import Sorting.Sorted Sorting.Permutation.
From Stdlib Require Import DecimalString.
From Stdlib Require Import Qabs Qpower.
From stdpp Require Import base option list gmap strings sorting.

Open Scope Z_scope.

(** * Python built-ins *)
Module Py.

(** Exceptions the modelled code can raise. *)
Inductive exn : Type :=
| ValueError
| TypeError
| ZeroDivisionError
| RuntimeError
| AttributeError
| OverflowError.

#[global] Instance exn_eq_dec : EqDecision exn.
Proof. solve_decision. Defined.

(** The outcome of a call: a value or a raised exception. *)
Inductive res (A : Type) : Type :=
| Ok (a : A)
| Raise (e : exn).
Arguments Ok {A} a.
Arguments Raise {A} e.

#[global] Instance res_ret : MRet res := fun A a => Ok a.
#[global] Instance res_bind : MBind res := fun A B f m =>
  match m with
  | Ok a => f a
  | Raise e => Raise e
  end.
#[global] Instance res_fmap : FMap res := fun A B f m =>
  match m with
  | Ok a => Ok (f a)
  | Raise e => Raise e
  end.

(** [of_option e o]: the value of [o], or exception [e]. *)
Definition of_option {A} (e : exn) (o : option A) : res A :=
  match o with
  | Some a => Ok a
  | None => Raise e
  end.

Definition is_ok {A} (r : res A) : bool :=
  match r with
  | Ok _ => true
  | Raise _ => false
  end.

(** [mapM f l]: run [f] on every element, left to right, stopping at the
    first exception. *)
Fixpoint mapM {A B} (f : A → res B) (l : list A) : res (list B) :=
  match l with
  | [] => Ok []
  | x :: l' => y ← f x; ys ← mapM f l'; Ok (y :: ys)
  end.

(** ** Strings *)

(** [s.split(sep)] for a one-character separator. *)
Fixpoint split (sep : ascii) (s : string) : list string :=
  match s with
  | EmptyString => [EmptyString]
  | String c s' =>
      if Ascii.eqb c sep then EmptyString :: split sep s'
      else match split sep s' with
           | [] => [String c EmptyString]
           | p :: ps => String c p :: ps
           end
  end.

(** [s.split(sep, maxsplit=n)]: at most [n] cuts, the rest is left whole. *)
Fixpoint split_max (sep : ascii) (n : nat) (s : string) : list string :=
  match n with
  | O => [s]
  | S n' =>
      (fix go (t : string) : list string :=
         match t with
         | EmptyString => [EmptyString]
         | String c t' =>
             if Ascii.eqb c sep then EmptyString :: split_max sep n' t'
             else match go t' with
                  | [] => [String c EmptyString]
                  | p :: ps => String c p :: ps
                  end
         end) s
  end.

Definition is_space (c : ascii) : bool :=
  match c with
  | "009" | "010" | "011" | "012" | "013" | " " => true
  | _ => false
  end%char.

Fixpoint lstrip (s : string) : string :=
  match s with
  | EmptyString => EmptyString
  | String c s' => if is_space c then lstrip s' else s
  end.

Fixpoint rstrip (s : string) : string :=
  match s with
  | EmptyString => EmptyString
  | String c s' =>
      match rstrip s' with
      | EmptyString => if is_space c then EmptyString else String c EmptyString
      | r => String c r
      end
  end.

(** [s.strip()] *)
Definition strip (s : string) : string := rstrip (lstrip s).

(** [s.startswith(c)] for a one-character prefix. *)
Definition startswith (c : ascii) (s : string) : bool :=
  match s with
  | String c' _ => Ascii.eqb c' c
  | EmptyString => false
  end.

(** [s[:-n]] *)
Definition drop_last (n : nat) (s : string) : string :=
  String.substring 0 (String.length s - n) s.

(** ** Integers and decimal text *)

(** The character of a decimal digit [0..9]. *)
Definition digit (k : Z) : ascii := ascii_of_N (Z.to_N (48 + k)).

Definition digit_val (c : ascii) : option Z :=
  let n := Z.of_N (N_of_ascii c) in
  if (48 <=? n) && (n <=? 57) then Some (n - 48) else None.

Fixpoint digits_val (acc : Z) (s : string) : option Z :=
  match s with
  | EmptyString => Some acc
  | String c s' =>
      match digit_val c with
      | Some d => digits_val (10 * acc + d) s'
      | None => None
      end
  end.

(** A non-empty run of decimal digits. *)
Definition unsigned_val (s : string) : option Z :=
  match s with
  | EmptyString => None
  | _ => digits_val 0 s
  end.

(** [int(s)] on decimal text: surrounding white space is ignored, one
    sign is allowed, then digits only.  [None] stands for [ValueError].
    (Digit-group underscores and non-ASCII digits, which [int] also
    accepts, are outside this model.) *)
Definition int (s : string) : option Z :=
  match strip s with
  | String "-" t => Z.opp <$> unsigned_val t
  | String "+" t => unsigned_val t
  | t => unsigned_val t
  end.

(** [str(n)] for an [int]. *)
Definition str_int (n : Z) : string := NilZero.string_of_int (Z.to_int n).

(** [s.zfill(w)] for unsigned text. *)
Definition zfill (w : nat) (s : string) : string :=
  String.concat "" (replicate (w - String.length s) "0") +:+ s.

(** [f"{n:0wd}"] for an [int]. *)
Definition fmt_0d (w : nat) (n : Z) : string :=
  if n <? 0 then "-" +:+ zfill (w - 1) (str_int (- n))
  else zfill w (str_int n).

(** ** Floats, as the rationals they stand for *)

Definition Qltb (x y : Q) : bool := negb (Qle_bool y x).
Definition Qgeb (x y : Q) : bool := Qle_bool y x.
Definition Qis_zero (x : Q) : bool := Qeq_bool x 0.

(** [int(x)] for a float: truncation toward zero. *)
Definition Qtrunc (x : Q) : Z := if Qltb x 0 then Qceiling x else Qfloor x.

(** Rounding to the nearest integer, ties to the even one ([round],
    and the rounding of [timedelta] arithmetic and of the [f] format). *)
Definition round_half_even (x : Q) : Z :=
  let f := Qfloor x in
  let twice := Qfloor (2 * (x - inject_Z f)) in
  let exact := Qeq_bool (2 * (x - inject_Z f)) 1 in
  if exact then (if Z.even f then f else f + 1)
  else if twice =? 0 then f else f + 1.

(** Text of the form [digits], [digits.digits], [digits.] or [.digits]. *)
Definition decimal_val (s : string) : option Q :=
  match split "." s with
  | [i] => inject_Z <$> unsigned_val i
  | [i; f] =>
      match i, f with
      | EmptyString, EmptyString => None
      | _, _ =>
          iv ← (match i with EmptyString => Some 0 | _ => digits_val 0 i end);
          fv ← digits_val 0 f;
          Some (inject_Z iv + inject_Z fv / inject_Z (10 ^ Z.of_nat (String.length f)))%Q
      end
  | _ => None
  end.

(** [float(s)] on plain decimal text, as the rational the text denotes.
    [None] stands for [ValueError].  (Exponents, [inf] and [nan], which
    [float] also accepts, are outside this model.) *)
Definition float (s : string) : option Q :=
  match strip s with
  | String "-" t => Qopp <$> decimal_val t
  | String "+" t => decimal_val t
  | t => decimal_val t
  end.

(** [f"{x:04.1f}"] for a finite [x]: one decimal place, zero-padded to
    width four, the sign (kept even when the value rounds to zero)
    counted in the width. *)
Definition fmt_04_1f (x : Q) : string :=
  let t := Z.abs (round_half_even (x * 10)) in
  let body := str_int (t / 10) +:+ "." +:+ String (digit (t mod 10)) EmptyString in
  if Qltb x 0 then "-" +:+ zfill 3 body else zfill 4 body.

(** [str(x)] for a float whose value is a short decimal: the integer part,
    a point, and the fractional digits (at least one). *)
Fixpoint frac_digits (fuel : nat) (num den : Z) : string :=
  match fuel with
  | O => EmptyString
  | S fuel' =>
      if num =? 0 then EmptyString
      else String (digit (10 * num / den)) (frac_digits fuel' ((10 * num) mod den) den)
  end.

Definition str_float (x : Q) : string :=
  let n := Z.abs (Qnum x) in
  let d := Z.pos (Qden x) in
  let fr := frac_digits 17 (n mod d) d in
  (if Qltb x 0 then "-" else "") +:+ str_int (n / d) +:+ "." +:+
  (match fr with EmptyString => "0" | _ => fr end).

(** ** [datetime] and [timedelta]

    An aware UTC [datetime] is the number of microseconds since
    0001-01-01T00:00:00; its calendar fields follow the proleptic
    Gregorian calendar of the [datetime] module. *)

Definition datetime : Type := Z.
Definition timedelta : Type := Z.

Definition us_per_second : Z := 1000000.
Definition us_per_day : Z := 86400 * us_per_second.

Definition is_leap (y : Z) : bool :=
  (y mod 4 =? 0) && (negb (y mod 100 =? 0) || (y mod 400 =? 0)).

Definition days_before_year (y : Z) : Z :=
  let p := y - 1 in p * 365 + p / 4 - p / 100 + p / 400.

Definition days_in_month (y m : Z) : Z :=
  if m =? 2 then (if is_leap y then 29 else 28)
  else if (m =? 4) || (m =? 6) || (m =? 9) || (m =? 11) then 30
  else 31.

Definition days_before_month (y m : Z) : Z :=
  nth (Z.to_nat m) [0; 0; 31; 59; 90; 120; 151; 181; 212; 243; 273; 304; 334] 0
  + (if (2 <? m) && is_leap y then 1 else 0).

(** The last day number of year 9999. *)
Definition max_ordinal : Z := days_before_year 10000.

(** [datetime(year, month, day, hour, minute, second, microsecond,
    tzinfo=utc)], with the range checks of the constructor. *)
Definition mk_datetime (year month day hour minute second microsecond : Z)
  : res datetime :=
  if (1 <=? year) && (year <=? 9999) && (1 <=? month) && (month <=? 12)
     && (1 <=? day) && (day <=? days_in_month year month)
     && (0 <=? hour) && (hour <? 24) && (0 <=? minute) && (minute <? 60)
     && (0 <=? second) && (second <? 60)
     && (0 <=? microsecond) && (microsecond <? us_per_second)
  then Ok (((((days_before_year year + days_before_month year month + day - 1)
               * 24 + hour) * 60 + minute) * 60 + second) * us_per_second
           + microsecond)
  else Raise ValueError.

(** The largest [k] in [hi - n .. hi] with [p k], or [hi - n]. *)
Fixpoint find_down (p : Z → bool) (hi : Z) (n : nat) : Z :=
  match n with
  | O => hi
  | S n' => if p hi then hi else find_down p (hi - 1) n'
  end.

(** The largest [k] in [lo .. lo + n] with [p k], or [lo]. *)
Definition find_last (p : Z → bool) (lo : Z) (n : nat) : Z :=
  find_down p (lo + Z.of_nat n) n.

(** Calendar fields of a [datetime]. *)
Definition dt_ordinal (t : datetime) : Z := t / us_per_day + 1.
Definition dt_year (t : datetime) : Z :=
  find_last (fun y => days_before_year y <? dt_ordinal t) 1 (Z.to_nat 9998).
Definition dt_month (t : datetime) : Z :=
  let y := dt_year t in
  find_last (fun m => days_before_year y + days_before_month y m <? dt_ordinal t) 1 11.
Definition dt_day (t : datetime) : Z :=
  let y := dt_year t in
  dt_ordinal t - days_before_year y - days_before_month y (dt_month t).
Definition dt_hour (t : datetime) : Z := t / (3600 * us_per_second) mod 24.
Definition dt_minute (t : datetime) : Z := t / (60 * us_per_second) mod 60.
Definition dt_second (t : datetime) : Z := t / us_per_second mod 60.
Definition dt_microsecond (t : datetime) : Z := t mod us_per_second.

(** A [datetime] the class can represent (years 1 to 9999). *)
Definition dt_valid (t : datetime) : Prop := 0 <= t < max_ordinal * us_per_day.

(** The [w] low-order decimal digits of [n], as the fixed-width fields of
    [strftime] print them. *)
Fixpoint digits (w : nat) (n : Z) : string :=
  match w with
  | O => EmptyString
  | S w' => String (digit (n / 10 ^ Z.of_nat w' mod 10)) (digits w' n)
  end.

(** [t.strftime('%Y/%m/%d')] *)
Definition strftime_Ymd (t : datetime) : string :=
  digits 4 (dt_year t) +:+ "/" +:+ digits 2 (dt_month t) +:+ "/" +:+
  digits 2 (dt_day t).

(** [t.strftime('%H:%M:%S.%f')] *)
Definition strftime_HMSf (t : datetime) : string :=
  digits 2 (dt_hour t) +:+ ":" +:+ digits 2 (dt_minute t) +:+ ":" +:+
  digits 2 (dt_second t) +:+ "." +:+ digits 6 (dt_microsecond t).

(** [timedelta * float]: the product rounded to a whole microsecond. *)
Definition td_mul (d : timedelta) (x : Q) : timedelta :=
  round_half_even (inject_Z d * x).

(** [timedelta(hours=hh, minutes=mm, seconds=ss)] with float arguments. *)
Definition td_of_hms (hh mm ss : Q) : timedelta :=
  round_half_even ((hh * 3600 + mm * 60 + ss) * inject_Z us_per_second).

(** [d.total_seconds()] *)
Definition total_seconds (d : timedelta) : Q :=
  inject_Z d / inject_Z us_per_second.

(** [timedelta(microseconds=n)] for an [int]: the number of whole days
    is at most 999999999 either way. *)
Definition timedelta_microseconds (n : Z) : res timedelta :=
  if (-999999999 <=? n / us_per_day) && (n / us_per_day <=? 999999999)
  then Ok n
  else Raise OverflowError.

(** [t + d] with the range check of the result (years 1 to 9999). *)
Definition datetime_add (t : datetime) (d : timedelta) : res datetime :=
  let r := t + d in
  if (0 <=? r) && (r <? max_ordinal * us_per_day) then Ok r
  else Raise OverflowError.

(** ** Floats in binary64

    A finite float is the rational number it stands for; an operation
    returns the binary64 number nearest to the exact result, ties going
    to the even significand, and [inf] past the largest finite number.
    [Finite 0] is [0.0] and [NegZero] is [-0.0]. *)

Inductive float64 : Type :=
| Finite (x : Q)
| NegZero
| Inf (negative : bool)
| NaN.

Coercion Finite : Q >-> float64.
Bind Scope Q_scope with float64.

(** [floor(log2(abs(x)))] for [x] other than zero. *)
Definition ilog2 (x : Q) : Z :=
  let k := Z.log2 (Z.abs (Qnum x)) - Z.log2 (Z.pos (Qden x)) in
  if Qle_bool (2 ^ k) (Qabs x) then k else k - 1.

(** The exponent of the last place of the binary64 numbers around [x]:
    53 significant bits, and no place below [2 ^ -1074]. *)
Definition quantum (x : Q) : Z := Z.max (ilog2 x - 52) (-1074).

(** The binary64 number nearest to [x].  A result that is not below
    [2 ^ 1024] in magnitude is [inf]; a result zero keeps the sign of
    [x]. *)
Definition nearest (x : Q) : float64 :=
  if Qis_zero x then Finite 0
  else
    let e := quantum x in
    let m := round_half_even (x / 2 ^ e) in
    let y := Qred (inject_Z m * 2 ^ e) in
    if Qle_bool (2 ^ 1024) (Qabs y) then Inf (Qltb x 0)
    else if m =? 0 then (if Qltb x 0 then NegZero else Finite 0)
    else Finite y.

(** The value of a float that is a number. *)
Definition qval (a : float64) : Q :=
  match a with
  | Finite x => x
  | NegZero | Inf _ | NaN => 0
  end.

Definition signbit (a : float64) : bool :=
  match a with
  | Finite x => Qltb x 0
  | NegZero => true
  | Inf s => s
  | NaN => false
  end.

(** [-a] *)
Definition fneg (a : float64) : float64 :=
  match a with
  | Finite x => if Qis_zero x then NegZero else Finite (- x)
  | NegZero => Finite 0
  | Inf s => Inf (negb s)
  | NaN => NaN
  end.

(** [a + b].  A sum that is exactly zero is [0.0], except that
    [-0.0 + -0.0] is [-0.0]. *)
Definition fadd (a b : float64) : float64 :=
  match a, b with
  | NaN, _ | _, NaN => NaN
  | Inf s, Inf s' => if Bool.eqb s s' then Inf s else NaN
  | Inf s, _ => Inf s
  | _, Inf s' => Inf s'
  | NegZero, NegZero => NegZero
  | _, _ =>
      let s := (qval a + qval b)%Q in
      if Qis_zero s then Finite 0 else nearest s
  end.

(** [a - b] *)
Definition fsub (a b : float64) : float64 := fadd a (fneg b).

(** [a * b].  The sign of the result, a zero included, is the product
    of the signs. *)
Definition fmul (a b : float64) : float64 :=
  let zero := if xorb (signbit a) (signbit b) then NegZero else Finite 0 in
  match a, b with
  | NaN, _ | _, NaN => NaN
  | Inf s, Inf s' => Inf (xorb s s')
  | Inf s, c => if Qis_zero (qval c) then NaN else Inf (xorb s (signbit c))
  | c, Inf s => if Qis_zero (qval c) then NaN else Inf (xorb (signbit c) s)
  | _, _ =>
      let p := (qval a * qval b)%Q in
      if Qis_zero p then zero else nearest p
  end.

(** [a < b]: false when either side is [nan]. *)
Definition flt (a b : float64) : bool :=
  match a, b with
  | NaN, _ | _, NaN => false
  | Inf s, Inf s' => s && negb s'
  | Inf s, _ => s
  | _, Inf s' => negb s'
  | _, _ => Qltb (qval a) (qval b)
  end.

(** [int(a)]: truncation toward zero. *)
Definition int_of_float (a : float64) : res Z :=
  match a with
  | Finite x => Ok (Qtrunc x)
  | NegZero => Ok 0
  | Inf _ => Raise OverflowError
  | NaN => Raise ValueError
  end.

(** [f"{a:04.1f}"] *)
Definition format_04_1f (a : float64) : string :=
  match a with
  | Finite x => fmt_04_1f x
  | NegZero => "-0.0"
  | Inf false => "0inf"
  | Inf true => "-inf"
  | NaN => "0nan"
  end.

(** [float(s)] on plain decimal text, as a binary64 number.  [None]
    stands for [ValueError].  (Exponents, [inf] and [nan], which [float]
    also accepts, are outside this model.) *)
Definition float_of_text (s : string) : option float64 :=
  match strip s with
  | String "-" t => fneg ∘ nearest <$> decimal_val t
  | String "+" t => nearest <$> decimal_val t
  | t => nearest <$> decimal_val t
  end.

End Py.

(** * [sem/strconv.py] *)
Module Strconv.
Import Py.

(** [format_date]: [date.strftime('%Y/%m/%d')]. *)
Definition format_date (date : datetime) : string := strftime_Ymd date.

(** [format_time]: [time.strftime('%H:%M:%S.%f')[:-5]]. *)
Definition format_time (time : datetime) : string :=
  drop_last 5 (strftime_HMSf time).

(** [parse_date_time(date_str, time_str, tzinfo=utc)].  An argument is
    [None] when the caller passes Python's [None]; every [ValueError] of
    the body is raised again as [ValueError]. *)
Definition parse_date_time (date_str time_str : option string) : res datetime :=
  date_str ← of_option AttributeError date_str;
  ymd ← mapM (fun x => of_option ValueError (int x)) (split "/" date_str);
  match ymd with
  | [y4; m2; d2] =>
      time_str ← of_option AttributeError time_str;
      match split ":" time_str with
      | [hh; mm; ss] =>
          hh ← of_option ValueError (int hh);
          mm ← of_option ValueError (int mm);
          match split "." ss with
          | [ss; tenths] =>
              ss ← of_option ValueError (int ss);
              tenths ← of_option ValueError (int tenths);
              let micro := tenths * 100000 in
              mk_datetime y4 m2 d2 hh mm ss micro
          | _ => Raise ValueError
          end
      | _ => Raise ValueError
      end
  | _ => Raise ValueError
  end.

(** [parse_time_delta(sign_str, time_str)].  [Ok None] is the implicit
    [None] returned when the text has neither two nor three components. *)
Definition parse_time_delta (sign_str time_str : string) : res (option timedelta) :=
  let make_delta hh mm ss :=
    let delta := td_of_hms hh mm ss in
    if String.eqb sign_str "-" then - delta else delta in
  match mapM (fun x => of_option ValueError (float x)) (split ":" time_str) with
  | Raise _ => Raise RuntimeError
  | Ok [hh; mm; ss] => Ok (Some (make_delta hh mm ss))
  | Ok [mm; ss] => Ok (Some (make_delta 0%Q mm ss))
  | Ok _ => Ok None
  end.

(** [parse_shutter(shutter_str)] *)
Definition parse_shutter (shutter_str : string) : res Q :=
  parts ← mapM (fun x => of_option ValueError (float x))
               (split_max "/" 2 shutter_str);
  match parts with
  | [num; den] => if Qis_zero den then Raise ZeroDivisionError else Ok (num / den)%Q
  | [sec] => Ok sec
  | _ => Raise RuntimeError
  end.

End Strconv.

(** * [sem/event.py] *)
Module Event.
Import Py Strconv.

Section find_bounds.
Context {A : Type}.
Variable key : A → Q.

(** The inner [sub_search] of [find_bounds]: scan while [check] holds,
    remember the last entry seen, stop at the first entry that fails.
    [None] is the pair [(None, None)] of the source. *)
Fixpoint sub_search_from (check : Q → bool) (found : option (nat * A))
  (sequence : list (nat * A)) : option (nat * A) :=
  match sequence with
  | [] => found
  | (i, item) :: rest =>
      let subitem := key item in
      if check subitem then sub_search_from check (Some (i, item)) rest
      else found
  end.

Definition sub_search (sequence : list (nat * A)) (check : Q → bool)
  : option (nat * A) :=
  sub_search_from check None sequence.

(** [find_bounds(sequence, target, key)] *)
Definition find_bounds (sequence : list A) (target : Q)
  : option (nat * A) * option (nat * A) :=
  let seq_forward := imap pair sequence in
  let seq_reverse := reverse seq_forward in
  let lo := sub_search seq_forward (fun x => Qle_bool x target) in
  let hi := sub_search seq_reverse (fun x => Qle_bool target x) in
  (lo, hi).

End find_bounds.

Record EventManager : Type := {
  events : gmap string datetime;
  pre_magnitudes : list (Q * datetime);
  post_magnitudes : list (Q * datetime);
  max_magnitude : Q
}.

(** [EventManager.__init__]; [max_magnitude] is the text found in the
    timing file, or [None]. *)
Definition EventManager_init (events : gmap string datetime)
  (pre_mags post_mags : list (Q * datetime)) (max_magnitude : option string)
  : res EventManager :=
  m ← (match max_magnitude with
       | None | Some EmptyString => Ok 1%Q
       | Some s => of_option ValueError (float s)
       end);
  Ok {| events := events;
        pre_magnitudes := pre_mags;
        post_magnitudes := reverse post_mags;
        max_magnitude := m |}.

(** [get_magnitude_time].  Unpacking [lo] or [hi] raises [TypeError] when
    the bound is [(None, None)]; the float division raises
    [ZeroDivisionError] when the two bounding magnitudes are equal. *)
Definition get_magnitude_time (self : EventManager) (magnitude : Q) (post : bool)
  : res datetime :=
  let mags := if post then post_magnitudes self else pre_magnitudes self in
  let '(lo, hi) := find_bounds fst mags magnitude in
  '(lo_i, (lo_m, lo_t)) ← of_option TypeError lo;
  '(hi_i, (hi_m, hi_t)) ← of_option TypeError hi;
  if decide (lo_i = hi_i) then Ok lo_t
  else
    let delta_m := (hi_m - lo_m)%Q in
    if Qis_zero delta_m then Raise ZeroDivisionError
    else
      let percent := ((magnitude - lo_m) / delta_m)%Q in
      let offset_t := td_mul (hi_t - lo_t) percent in
      let ans := lo_t + offset_t in
      Ok ans.

(** Truth value of a [datetime] object: always true. *)
Definition datetime_truthy (t : datetime) : bool := true.

(** [t2 - t1] where either operand may be [None]. *)
Definition sub_times (t2 t1 : option datetime) : res timedelta :=
  match t2, t1 with
  | Some a, Some b => Ok (a - b)
  | _, _ => Raise TypeError
  end.

(** The body of [get_time], its recursive calls going through
    [self_get_time].  [Ok None] is the logged failure that returns
    [None]. *)
Definition get_time_body (self_get_time : string → res (option datetime))
  (self : EventManager) (name : string) : res (option datetime) :=
  match events self !! name with
  | Some t => Ok (Some t)
  | None =>
      let parts := split " " name in
      match parts with
      | ["MAGPRE"; percent] =>
          p ← of_option ValueError (float percent);
          let pct := (p / 100)%Q in
          time ← get_magnitude_time self pct false;
          if datetime_truthy time then Ok (Some time)
          else
            let pct := (max_magnitude self * pct)%Q in
            t1 ← self_get_time "C1";
            t2 ← self_get_time "C2";
            time ← sub_times t2 t1;
            let offset := td_mul time pct in
            match t1 with
            | Some t1 => Ok (Some (t1 + offset))
            | None => Raise TypeError
            end
      | ["MAGPOST"; percent] =>
          p ← of_option ValueError (float percent);
          let pct := (p / 100)%Q in
          time ← get_magnitude_time self pct true;
          if datetime_truthy time then Ok (Some time)
          else
            t1 ← self_get_time "C3";
            t2 ← self_get_time "C4";
            delta ← sub_times t2 t1;
            let offset := td_mul delta pct in
            match t2 with
            | Some t2 => Ok (Some (t2 - offset))
            | None => Raise TypeError
            end
      | _ => Ok None
      end
  end.

(** [get_time].  The method calls itself only on the contact names, and
    such a call makes no further call, so two levels of the body are the
    whole recursion (see [get_time_unfold] below). *)
Definition get_time (self : EventManager) (name : string) : res (option datetime) :=
  get_time_body (get_time_body (fun _ => Ok None) self) self name.

End Event.

(** * [sem/fields.py] *)
Module Fields.

Definition F_DATE : string := "date".
Definition F_TIME : string := "time_utc".
Definition F_ACTION : string := "action".
Definition F_SHUTTER : string := "shutter_speed".
Definition F_APERTURE : string := "aperture".
Definition F_ISO : string := "iso".
Definition F_FILE : string := "file".
Definition F_COMMENT : string := "comment".

Definition FIELD_NAMES : list string :=
  [F_DATE; F_TIME; F_ACTION; F_SHUTTER; F_APERTURE; F_ISO; F_FILE; F_COMMENT].

End Fields.

(** * [sem/action.py] *)
Module Action.
Import Py Strconv Fields.

(** The Python object held by a field of an action. *)
Inductive value : Type :=
| VNone
| VFloat (x : Q)
| VInt (n : Z)
| VStr (s : string).

(** [str(v)], with [None] written as the empty text (as [csv] does). *)
Definition str (v : value) : string :=
  match v with
  | VNone => EmptyString
  | VFloat x => str_float x
  | VInt n => str_int n
  | VStr s => s
  end.

Inductive Action : Type :=
| ActionTakePic (time : datetime) (shutter aperture iso comment : value)
| ActionPlay (time : datetime) (soundfile comment : value).

Definition time (self : Action) : datetime :=
  match self with
  | ActionTakePic t _ _ _ _ => t
  | ActionPlay t _ _ => t
  end.

Definition comment (self : Action) : value :=
  match self with
  | ActionTakePic _ _ _ _ c => c
  | ActionPlay _ _ c => c
  end.

Definition set_time (self : Action) (t : datetime) : Action :=
  match self with
  | ActionTakePic _ s a i c => ActionTakePic t s a i c
  | ActionPlay _ f c => ActionPlay t f c
  end.

Definition set_comment (self : Action) (c : value) : Action :=
  match self with
  | ActionTakePic t s a i _ => ActionTakePic t s a i c
  | ActionPlay t f _ => ActionPlay t f c
  end.

(** [Action.__lt__] *)
Definition lt (self other : Action) : bool := time self <? time other.

(** [as_dict] *)
Definition as_dict (self : Action) : gmap string value :=
  let date := format_date (time self) in
  let time := format_time (time self) in
  match self with
  | ActionTakePic _ shutter aperture iso comment =>
      <[F_DATE := VStr date]> (<[F_TIME := VStr time]> (
      <[F_ACTION := VStr "PICT"]> (<[F_SHUTTER := shutter]> (
      <[F_APERTURE := aperture]> (<[F_ISO := iso]> (
      <[F_COMMENT := comment]> ∅))))))
  | ActionPlay _ soundfile comment =>
      <[F_DATE := VStr date]> (<[F_TIME := VStr time]> (
      <[F_ACTION := VStr "PLAY"]> (<[F_FILE := soundfile]> (
      <[F_COMMENT := comment]> ∅))))
  end.

End Action.

(** * [sem/semscript.py] *)
Module Semscript.
Import Py Strconv Event Action.

(** The commands that are not blocks: [PLAY] and [TAKEPIC].  [offset] is
    what [parse_time_delta] returned, possibly [None]. *)
Inductive LeafCommand : Type :=
| Play (event : string) (offset : option timedelta) (file comment : string)
| TakePic (event : string) (offset : option timedelta)
    (shutter_sec aperture : Q) (iso : Z) (comment : string).

(** A script command.  A block holds the commands added to it by
    [add_command], which refuses blocks and does not store [ENDFOR]. *)
Inductive ScriptCommand : Type :=
| ForVarLoop (start step end_ : float64) (commands : list LeafCommand)
| ForIterLoop (kind : Z) (delay : float64) (iters : Z)
    (commands : list LeafCommand)
| ForLoopEnd
| Leaf (c : LeafCommand).

Definition event (c : LeafCommand) : string :=
  match c with
  | Play e _ _ _ => e
  | TakePic e _ _ _ _ _ => e
  end.

Definition is_nestable (self : ScriptCommand) : bool :=
  match self with
  | ForVarLoop _ _ _ _ | ForIterLoop _ _ _ _ => true
  | ForLoopEnd | Leaf _ => false
  end.

(** [self.add_command(command)]: the returned pair is the method's
    result and the object after the call. *)
Definition add_command (self command : ScriptCommand) : res (bool * ScriptCommand) :=
  match self with
  | ForVarLoop start step end_ commands =>
      match command with
      | ForVarLoop _ _ _ _ | ForIterLoop _ _ _ _ => Raise ValueError
      | ForLoopEnd => Ok (true, self)
      | Leaf c => Ok (false, ForVarLoop start step end_ (commands ++ [c]))
      end
  | ForIterLoop kind delay iters commands =>
      match command with
      | ForVarLoop _ _ _ _ | ForIterLoop _ _ _ _ => Raise ValueError
      | ForLoopEnd => Ok (true, self)
      | Leaf c => Ok (false, ForIterLoop kind delay iters (commands ++ [c]))
      end
  | ForLoopEnd | Leaf _ => Raise ValueError
  end.

(** ** Constructors from the fields of a script line *)

Definition ForVarLoop_init (args : list string) : res ScriptCommand :=
  match args with
  | [start; step; end_] =>
      start ← of_option ValueError (float_of_text start);
      step ← of_option ValueError (float_of_text step);
      end_ ← of_option ValueError (float_of_text end_);
      Ok (ForVarLoop start step end_ [])
  | _ => Raise ValueError
  end.

Definition ForIterLoop_init (args : list string) : res ScriptCommand :=
  match args with
  | [kind; delay; iters] =>
      kind ← of_option ValueError (int kind);
      delay ← of_option ValueError (float_of_text delay);
      iters ← of_option ValueError (int iters);
      Ok (ForIterLoop kind delay iters [])
  | _ => Raise ValueError
  end.

Definition ForLoopEnd_init (args : list string) : res ScriptCommand :=
  Ok ForLoopEnd.

Fixpoint rfind_from (c : ascii) (s : string) (i : nat) (last : option nat)
  : option nat :=
  match s with
  | EmptyString => last
  | String c' s' =>
      rfind_from c s' (S i) (if Ascii.eqb c' c then Some i else last)
  end.

(** The root part of [os.path.splitext(p)] (POSIX paths). *)
Definition splitext_root (p : string) : string :=
  match rfind_from "." p 0 None with
  | None => p
  | Some dot =>
      let first := match rfind_from "/" p 0 None with
                   | None => 0%nat
                   | Some sep => S sep
                   end in
      if bool_decide (first ≤ dot)%nat
      then if forallb (fun c => Ascii.eqb c ".")
                (list_ascii_of_string (String.substring first (dot - first) p))
           then p
           else String.substring 0 dot p
      else p
  end.

Definition Play_init (args : list string) : res ScriptCommand :=
  match args with
  | [event; sign; offset; file; _; _; _; _; _; _; _; comment] =>
      offset ← parse_time_delta sign offset;
      let file := splitext_root file in
      Ok (Leaf (Play event offset (file +:+ ".mp3") comment))
  | _ => Raise ValueError
  end.

Definition TakePic_init (args : list string) : res ScriptCommand :=
  match args with
  | [event; sign; offset; camera; shutter; aperture; iso; burst; quality;
     size; incremental; comment] =>
      offset ← parse_time_delta sign offset;
      shutter_sec ← parse_shutter shutter;
      aperture ← of_option ValueError (float aperture);
      iso ← of_option ValueError (int iso);
      Ok (Leaf (TakePic event offset shutter_sec aperture iso comment))
  | _ => Raise ValueError
  end.

(** ** Generation of actions *)

(** [action.comment += s] *)
Definition add_comment (s : string) (action : Action) : res Action :=
  match Action.comment action with
  | VStr c => Ok (set_comment action (VStr (c +:+ s)))
  | _ => Raise TypeError
  end.

(** [Play.generate_actions] and [TakePic.generate_actions];
    [override_event] is the keyword argument, [None] when absent. *)
Definition leaf_generate_actions (self : LeafCommand) (events : EventManager)
  (override_event : option string) : res (list Action) :=
  let event := default (event self) override_event in
  t ← get_time events event;
  match self with
  | Play _ offset file comment =>
      match t, offset with
      | Some t, Some offset =>
          Ok [ActionPlay (t + offset) (VStr file) (VStr comment)]
      | _, _ => Raise TypeError
      end
  | TakePic _ offset shutter_sec aperture iso comment =>
      match t, offset with
      | Some t, Some offset =>
          Ok [ActionTakePic (t + offset) (VFloat shutter_sec) (VFloat aperture)
                (VInt iso) (VStr comment)]
      | _, _ => Raise TypeError
      end
  end.

(** One turn of the inner [for c in self.commands] of [ForVarLoop]. *)
Definition var_child (events : EventManager) (value : float64) (c : LeafCommand)
  : res (list Action) :=
  let var := format_04_1f value in
  match split_max " " 2 (event c) with
  | [event; post] =>
      more ← leaf_generate_actions c events (Some (event +:+ " " +:+ var));
      if bool_decide (event ∈ ["MAGPRE"; "MAGPOST"])
      then mapM (add_comment (" (Mag. " +:+ var +:+ "%)")) more
      else Ok more
  | _ => Raise ValueError
  end.

(** The whole inner [for] of [ForVarLoop]: the actions of this pass and
    the value of the loop variable after it ([value += self.step] is the
    last statement of the inner loop body). *)
Fixpoint var_pass (events : EventManager) (step : float64)
  (commands : list LeafCommand) (value : float64)
  : res (list Action * float64) :=
  match commands with
  | [] => Ok ([], value)
  | c :: rest =>
      more ← var_child events value c;
      '(actions, value') ← var_pass events step rest (fadd value step);
      Ok (more ++ actions, value')
  end.

(** [while value < self.end]; [None] when the loop is still running
    after [fuel] tests of its condition. *)
Fixpoint var_loop (fuel : nat) (events : EventManager) (step end_ : float64)
  (commands : list LeafCommand) (value : float64)
  : option (res (list Action)) :=
  match fuel with
  | O => None
  | S fuel' =>
      if flt value end_ then
        match var_pass events step commands value with
        | Raise e => Some (Raise e)
        | Ok (more, value') =>
            match var_loop fuel' events step end_ commands value' with
            | None => None
            | Some (Raise e) => Some (Raise e)
            | Some (Ok actions) => Some (Ok (more ++ actions))
            end
        end
      else Some (Ok [])
  end.

(** One turn of the inner [for c in self.commands] of [ForIterLoop], in
    iteration [i] with accumulated offset [value].  [int] raises
    [OverflowError] on [inf], the constructor of [timedelta] on a number
    of days too large, and [action.time += var] on a time past the years
    1 to 9999. *)
Definition iter_child (events : EventManager) (i : Z) (value : float64)
  (c : LeafCommand) : res (list Action) :=
  n ← int_of_float (fmul value 100);
  let microsec := n * 10000 in
  var ← timedelta_microseconds microsec;
  more ← leaf_generate_actions c events None;
  mapM (fun action =>
          t ← datetime_add (time action) var;
          add_comment (" (iter. " +:+ fmt_0d 3 (i + 1) +:+ ")")
                      (set_time action t)) more.

(** [for i in range(self.iters)], from iteration [i] on, [n] iterations
    left. *)
Fixpoint iter_loop (n : nat) (events : EventManager) (kind : Z)
  (delay : float64) (commands : list LeafCommand) (i : Z) (value : float64)
  : res (list Action) :=
  match n with
  | O => Ok []
  | S n' =>
      more ← mapM (iter_child events i value) commands;
      let value := if kind =? 0 then fsub value delay else fadd value delay in
      actions ← iter_loop n' events kind delay commands (i + 1) value;
      Ok (concat more ++ actions)
  end.

(** [generate_actions(events)] of a top-level command; [None] when a
    [ForVarLoop] is still running after [fuel] tests of its condition. *)
Definition generate_actions (fuel : nat) (self : ScriptCommand)
  (events : EventManager) : option (res (list Action)) :=
  match self with
  | ForVarLoop start step end_ commands =>
      var_loop fuel events step end_ commands start
  | ForIterLoop kind delay iters commands =>
      Some (iter_loop (Z.to_nat iters) events kind delay commands 0 0%Q)
  | ForLoopEnd => Some (Raise ValueError)
  | Leaf c => Some (leaf_generate_actions c events None)
  end.

End Semscript.

(** * [sem/sequence.py] *)
Module Sequence.
Import Py Strconv Fields Action.

Record Sequence : Type := { actions : list Action }.

(** [sorted(l)]: Python's sort is stable and compares with [__lt__]
    only; the stable sorted arrangement of a list is unique, and stable
    insertion computes it. *)
Fixpoint insert (x : Action) (l : list Action) : list Action :=
  match l with
  | [] => [x]
  | y :: l' => if lt y x then y :: insert x l' else x :: y :: l'
  end.

Fixpoint sorted (l : list Action) : list Action :=
  match l with
  | [] => []
  | x :: l' => insert x (sorted l')
  end.

(** [Sequence.__init__(actions)] *)
Definition init (actions : list Action) : Sequence :=
  {| actions := sorted actions |}.

(** A row of the document, as the [csv] module exchanges it with the
    program: the list of its fields. *)
Definition row : Type := list string.

(** [DictWriter.writerow]: the fields in [FIELD_NAMES] order, a missing
    key written as the empty text. *)
Definition writerow (d : gmap string value) : row :=
  (fun k => str (default (VStr "") (d !! k))) <$> FIELD_NAMES.

(** [write_csv]: the header row, then one row per action. *)
Definition write_csv (self : Sequence) : list row :=
  FIELD_NAMES :: (writerow ∘ as_dict <$> actions self).

(** The dictionary [DictReader] builds for a row: a field the row lacks
    is [None]. *)
Definition csv_row : Type := gmap string string.

Definition dict_of_row (r : row) : csv_row :=
  list_to_map (zip FIELD_NAMES r).

(** A field of a row as the value stored in an action. *)
Definition field (csv_row : csv_row) (k : string) : value :=
  match csv_row !! k with
  | Some s => VStr s
  | None => VNone
  end.

(** [_make_action(csv_row)]; [Ok None] is the [None] returned for the
    header row and for a row whose action is neither [PICT] nor [PLAY]. *)
Definition _make_action (csv_row : csv_row) : res (option Action) :=
  if bool_decide (csv_row !! F_DATE = Some "date") then Ok None
  else
    time ← parse_date_time (csv_row !! F_DATE) (csv_row !! F_TIME);
    let action := csv_row !! F_ACTION in
    let shutter := field csv_row F_SHUTTER in
    let aperture := field csv_row F_APERTURE in
    let iso := field csv_row F_ISO in
    let file := field csv_row F_FILE in
    let comment := field csv_row F_COMMENT in
    if bool_decide (action = Some "PICT")
    then Ok (Some (ActionTakePic time shutter aperture iso comment))
    else if bool_decide (action = Some "PLAY")
    then Ok (Some (ActionPlay time file comment))
    else Ok None.

(** The loop of [read_csv] over the rows the reader yields ([DictReader]
    skips empty rows), appending to [acc].  The result is [self.actions]
    when the loop stops, and whether it stopped by an exception. *)
Fixpoint read_rows (rows : list row) (acc : list Action)
  : list Action * res unit :=
  match rows with
  | [] => (acc, Ok tt)
  | r :: rest =>
      match r with
      | [] => read_rows rest acc
      | _ =>
          match _make_action (dict_of_row r) with
          | Raise e => (acc, Raise e)
          | Ok None => read_rows rest acc
          | Ok (Some action) => read_rows rest (acc ++ [action])
          end
      end
  end.

(** [read_csv(file)]: the sequence after the call and the outcome of the
    call. *)
Definition read_csv (self : Sequence) (file : list row) : Sequence * res unit :=
  let '(acts, r) := read_rows file [] in
  ({| actions := acts |}, r).

End Sequence.

(** * [sem/script.py] *)
Module Script.
Import Py Strconv Event Action Semscript.

Record Script : Type := {
  commands : list ScriptCommand;
  events : option EventManager
}.

(** [Script.add_command] *)
Definition Script_add_command (self : Script) (command : ScriptCommand) : Script :=
  {| commands := commands self ++ [command]; events := events self |}.

(** [generate_sequence]; [None] when a loop is still running after
    [fuel] tests of its condition. *)
Fixpoint generate_all (fuel : nat) (events : EventManager)
  (commands : list ScriptCommand) : option (res (list Action)) :=
  match commands with
  | [] => Some (Ok [])
  | command :: rest =>
      match generate_actions fuel command events with
      | None => None
      | Some (Raise e) => Some (Raise e)
      | Some (Ok more) =>
          match generate_all fuel events rest with
          | None => None
          | Some (Raise e) => Some (Raise e)
          | Some (Ok actions) => Some (Ok (more ++ actions))
          end
      end
  end.

Definition generate_sequence (fuel : nat) (self : Script)
  : option (res Sequence.Sequence) :=
  match events self with
  | None => Some (Raise AttributeError)
  | Some ev =>
      match generate_all fuel ev (commands self) with
      | None => None
      | Some r => Some (Sequence.init <$> r)
      end
  end.

(** The parser.  [stack] holds references to commands that are also in
    [script.commands]: an entry of [stack] is the position of the command
    in that list, and a call of a method of [stack[-1]] updates the
    command at that position. *)
Record ScriptParser : Type := {
  script : Script;
  stack : list nat
}.

Definition ScriptParser_init : ScriptParser :=
  {| script := {| commands := []; events := None |}; stack := [] |}.

(** [_make_command(line)] *)
Definition _make_command (line : string) : res (option ScriptCommand) :=
  let args := split "," line in
  match args with
  | "FOR" :: "(VAR)" :: rest => Some <$> ForVarLoop_init rest
  | "FOR" :: "(INTERVALOMETER)" :: rest => Some <$> ForIterLoop_init rest
  | "ENDFOR" :: rest => Some <$> ForLoopEnd_init rest
  | "TAKEPIC" :: rest => Some <$> TakePic_init rest
  | "PLAY" :: rest => Some <$> Play_init rest
  | _ :: _ => Raise RuntimeError
  | [] => Ok None
  end.

(** [_add_command(command)] *)
Definition _add_command (self : ScriptParser) (command : ScriptCommand)
  : res ScriptParser :=
  match last (stack self) with
  | Some top =>
      match commands (script self) !! top with
      | Some top_command =>
          '(done, top_command') ← add_command top_command command;
          let script' := {| commands := <[top := top_command']> (commands (script self));
                            events := events (script self) |} in
          Ok {| script := script';
                stack := if done : bool then removelast (stack self) else stack self |}
      | None => Raise RuntimeError
      end
  | None =>
      let stack' := if is_nestable command
                    then stack self ++ [length (commands (script self))]
                    else stack self in
      Ok {| script := Script_add_command (script self) command; stack := stack' |}
  end.

(** [_parse_script(file)]: the parser after the loop over the lines. *)
Fixpoint parse_lines (self : ScriptParser) (file : list string) : res ScriptParser :=
  match file with
  | [] => Ok self
  | line :: rest =>
      let line := strip line in
      if startswith "#" line then parse_lines self rest
      else if String.eqb line "" then parse_lines self rest
      else
        command ← _make_command line;
        match command with
        | Some command =>
            self' ← _add_command self command;
            parse_lines self' rest
        | None => parse_lines self rest
        end
  end.

Definition _parse_script (self : ScriptParser) (file : list string) : res Script :=
  script <$> parse_lines self file.

End Script.

(** * [sequencer.py] *)
Module Sequencer.
Import Py Action.

Record Sequencer : Type := {
  no_sound : bool;
  no_camera : bool;
  actions : list Action;
  time_offset : timedelta
}.

(** The filter of [_collect_actions]. *)
Definition _collect_actions (no_sound no_camera : bool) (sequence : list Action)
  : list Action :=
  List.filter (fun action =>
                 match action with
                 | ActionTakePic _ _ _ _ _ => negb no_camera
                 | ActionPlay _ _ _ => negb no_sound
                 end) sequence.

(** What the control loop does to the outside: it sleeps, and it hands
    an action to the executor. *)
Inductive effect : Type :=
| Sleep (seconds : Q)
| Submit (action : Action).

(** One turn of the loop of [execute]; [real_now] is what
    [datetime.now()] returns in this turn. *)
Definition execute_step (self : Sequencer) (real_now : datetime) (action : Action)
  : list effect :=
  let now := real_now + time_offset self in
  let delay := time action - now in
  let delay_sec := total_seconds delay in
  if Qltb delay_sec 0 then []
  else (if Qltb 0 delay_sec then [Sleep delay_sec] else []) ++ [Submit action].

(** [execute]: the effects of the loop, in order; [clock i] is the real
    time read in turn [i] of the loop. *)
Fixpoint execute_from (self : Sequencer) (clock : nat → datetime) (i : nat)
  (todo : list Action) : list effect :=
  match todo with
  | [] => []
  | action :: rest =>
      execute_step self (clock i) action ++ execute_from self clock (S i) rest
  end.

Definition execute (self : Sequencer) (clock : nat → datetime) : list effect :=
  execute_from self clock 0 (actions self).

End Sequencer.

(** * [sem/event.py]: [EventParser] *)
Module EventParser.
Import Py Strconv Event.

(** [time(hour, minute, second, microsecond, tzinfo=utc)], with the
    range checks of the constructor: a time of day, in microseconds
    since midnight. *)
Definition mk_time (hour minute second microsecond : Z) : res timedelta :=
  if (0 <=? hour) && (hour <? 24) && (0 <=? minute) && (minute <? 60)
     && (0 <=? second) && (second <? 60)
     && (0 <=? microsecond) && (microsecond <? us_per_second)
  then Ok (((hour * 60 + minute) * 60 + second) * us_per_second + microsecond)
  else Raise ValueError.

(** [parse_time(time_str, tzinfo=utc)] of [sem/strconv.py]; every
    [ValueError] of the body is raised again as [ValueError]. *)
Definition parse_time (time_str : string) : res timedelta :=
  match split ":" time_str with
  | [hh; mm; ss] =>
      hh ← of_option ValueError (int hh);
      mm ← of_option ValueError (int mm);
      match split "." ss with
      | [ss; tenths] =>
          ss ← of_option ValueError (int ss);
          tenths ← of_option ValueError (int tenths);
          let micro := tenths * 100000 in
          mk_time hh mm ss micro
      | _ => Raise ValueError
      end
  | _ => Raise ValueError
  end.

(** [t.date()]: the day of [t], as the number of days since 0001-01-01. *)
Definition date_of (t : datetime) : Z := t / us_per_day.

(** [datetime.combine(date, time)]; [date] is [None] when no contact line
    of the first form has been read, and the call raises [TypeError]. *)
Definition combine (date : option Z) (time : timedelta) : res datetime :=
  match date with
  | Some d => Ok (d * us_per_day + time)
  | None => Raise TypeError
  end.

(** What a line of the timing file is to the parser: the first of its
    regular expressions that matches the line, with the groups of the
    match.  (The regular expressions themselves are not modelled.) *)
Inductive matched : Type :=
| Contact_a (num date time : string)
| Contact_b (num date time : string)
| Max_eclipse (date time : string)
| Max_magnitude (text : string)
| Magnitude (time mag : string)
| Unmatched.

(** The variable [prev_mag]: [float('-inf')] at the start, then the
    magnitude read last, then [None]. *)
Inductive prev : Type :=
| Minus_inf
| Prev (mag : Q)
| Stopped.

(** Truth value of [prev_mag]: a float is true unless it is zero. *)
Definition prev_truthy (p : prev) : bool :=
  match p with
  | Minus_inf => true
  | Prev m => negb (Qis_zero m)
  | Stopped => false
  end.

(** [mag < prev_mag] for a float [prev_mag]. *)
Definition below (mag : Q) (p : prev) : bool :=
  match p with
  | Prev m => Qltb mag m
  | Minus_inf | Stopped => false
  end.

(** The local variables of [parse].  [to_post] tells which list the
    variable [magnitudes] refers to: [post_mags] when set, [pre_mags]
    otherwise. *)
Record locals : Type := {
  events : gmap string datetime;
  prev_mag : prev;
  pre_mags : list (Q * datetime);
  post_mags : list (Q * datetime);
  to_post : bool;
  max_magnitude : option string;
  default_date : option Z
}.

Definition locals_init : locals :=
  {| events := ∅; prev_mag := Minus_inf; pre_mags := []; post_mags := [];
     to_post := false; max_magnitude := None; default_date := None |}.

Definition set_event (st : locals) (event : string) (time : datetime) : locals :=
  {| events := <[event := time]> (events st); prev_mag := prev_mag st;
     pre_mags := pre_mags st; post_mags := post_mags st; to_post := to_post st;
     max_magnitude := max_magnitude st; default_date := default_date st |}.

(** [magnitudes.append(x)] *)
Definition append (st : locals) (x : Q * datetime) : locals :=
  {| events := events st; prev_mag := prev_mag st;
     pre_mags := if to_post st then pre_mags st else pre_mags st ++ [x];
     post_mags := if to_post st then post_mags st ++ [x] else post_mags st;
     to_post := to_post st;
     max_magnitude := max_magnitude st; default_date := default_date st |}.

(** The body of the loop over the lines of the file. *)
Definition parse_line (st : locals) (line : matched) : res locals :=
  match line with
  | Contact_a num date time =>
      let event := "C" +:+ num in
      time ← parse_date_time (Some date) (Some time);
      let default_date :=
        match default_date st with
        | None => Some (date_of time)
        | Some d => Some d
        end in
      Ok (set_event
            {| events := events st; prev_mag := prev_mag st;
               pre_mags := pre_mags st; post_mags := post_mags st;
               to_post := to_post st; max_magnitude := max_magnitude st;
               default_date := default_date |} event time)
  | Contact_b num date time =>
      let event := "C" +:+ num in
      time ← parse_date_time (Some date) (Some time);
      Ok (set_event st event time)
  | Max_eclipse date time =>
      time ← parse_date_time (Some date) (Some time);
      Ok (set_event st "MAX" time)
  | Max_magnitude text =>
      Ok {| events := events st; prev_mag := prev_mag st;
            pre_mags := pre_mags st; post_mags := post_mags st;
            to_post := to_post st; max_magnitude := Some text;
            default_date := default_date st |}
  | Magnitude time mag =>
      time ← parse_time time;
      date ← combine (default_date st) time;
      mag ← of_option ValueError (float mag);
      let st :=
        if prev_truthy (prev_mag st) && below mag (prev_mag st)
        then {| events := events st; prev_mag := Stopped;
                pre_mags := pre_mags st; post_mags := post_mags st;
                to_post := true; max_magnitude := max_magnitude st;
                default_date := default_date st |}
        else if prev_truthy (prev_mag st)
        then {| events := events st; prev_mag := Prev mag;
                pre_mags := pre_mags st; post_mags := post_mags st;
                to_post := to_post st; max_magnitude := max_magnitude st;
                default_date := default_date st |}
        else st in
      Ok (append st (mag, date))
  | Unmatched => Ok st
  end.

Fixpoint parse_lines (st : locals) (file : list matched) : res locals :=
  match file with
  | [] => Ok st
  | line :: rest => st' ← parse_line st line; parse_lines st' rest
  end.

(** [EventParser.parse], for a file that is there. *)
Definition parse (file : list matched) : res EventManager :=
  st ← parse_lines locals_init file;
  EventManager_init (events st) (pre_mags st) (post_mags st) (max_magnitude st).

End EventParser.

(** * [camera/calculations.py] *)
Module Calculations.
Import Py.

Section find_nearest.
Context {A : Type}.

(** [abs(value - x)] on the numbers of the list. *)
Variable abs_diff : A → A → Q.

(** The function [key] of [find_nearest], on an item of
    [enumerate(iterable)].  The result [None] stands for [float('inf')]:
    the entry is [None], or the subtraction raises [TypeError] because
    [value] is [None]. *)
Definition key (value : option A) (x : nat * option A) : option Q :=
  match x.2 with
  | None => None
  | Some x =>
      match value with
      | Some value => Some (abs_diff value x)
      | None => None
      end
  end.

(** [a < b] on keys. *)
Definition key_lt (a b : option Q) : bool :=
  match a, b with
  | Some a, Some b => Qltb a b
  | Some _, None => true
  | None, _ => false
  end.

(** [min(items, key=key)] with [best] the smallest item so far: an item
    replaces it only if its key is strictly smaller. *)
Fixpoint min_from (value : option A) (best : nat * option A)
  (rest : list (nat * option A)) : nat * option A :=
  match rest with
  | [] => best
  | x :: rest' =>
      min_from value (if key_lt (key value x) (key value best) then x else best) rest'
  end.

(** [find_nearest(iterable, value, distance)]; the argument [distance] is
    not used by the function, and no caller passes [evaluator].  [min] of
    an empty sequence raises [ValueError]. *)
Definition find_nearest (iterable : list (option A)) (value : option A)
  : res (nat * option A) :=
  match imap pair iterable with
  | [] => Raise ValueError
  | x :: rest => Ok (min_from value x rest)
  end.

End find_nearest.

End Calculations.

(** * [camera/controllers.py] *)
Module Controllers.
Import Py Calculations.

(** [s.isdigit()] on ASCII text: not empty, decimal digits only. *)
Definition isdigit (s : string) : bool :=
  match s with
  | EmptyString => false
  | _ => forallb (fun c => bool_decide (is_Some (digit_val c)))
                 (list_ascii_of_string s)
  end.

(** [abs(value - x)] on [int]s and on [float]s. *)
Definition abs_diff_int (value x : Z) : Q := inject_Z (Z.abs (value - x)).
Definition abs_diff_float (value x : Q) : Q := Qabs (value - x).

(** ** [IsoController] *)

(** [widget_value] is the value last given to [gp_widget.set_value],
    [None] before the first call. *)
Record IsoController : Type := {
  iso_strs : list string;
  iso_ints : list (option Z);
  iso_map : gmap string string;
  iso_widget_value : option string
}.

(** [int(x) if x.isdigit() else None] *)
Definition iso_int (x : string) : res (option Z) :=
  if isdigit x then Some <$> of_option ValueError (int x) else Ok None.

(** [IsoController.__init__], from the choices of the widget. *)
Definition IsoController_init (choices : list string) : res IsoController :=
  ints ← mapM iso_int choices;
  Ok {| iso_strs := choices; iso_ints := ints; iso_map := ∅;
        iso_widget_value := None |}.

Definition iso_set_value (self : IsoController) (v : string) : IsoController :=
  {| iso_strs := iso_strs self; iso_ints := iso_ints self;
     iso_map := iso_map self; iso_widget_value := Some v |}.

(** [IsoController.select(iso)].  The [ValueError] of [int] and of
    [find_nearest] is caught and logged, and the controller is left as it
    was.  The result [None] stands for an exception that is not caught:
    the [IndexError] of [self.iso_strs[i]], or an exception other than
    [ValueError] raised in the [try] block. *)
Definition iso_select (self : IsoController) (iso : string) : option IsoController :=
  if bool_decide (iso ∈ iso_strs self) then Some (iso_set_value self iso)
  else
    match iso_map self !! iso with
    | Some cached => Some (iso_set_value self cached)
    | None =>
        match (n ← of_option ValueError (int iso);
               find_nearest abs_diff_int (iso_ints self) (Some n)) with
        | Raise ValueError => Some self
        | Raise _ => None
        | Ok (i, v) =>
            closest_iso ← iso_strs self !! i;
            Some (iso_set_value
                    {| iso_strs := iso_strs self; iso_ints := iso_ints self;
                       iso_map := <[iso := closest_iso]> (iso_map self);
                       iso_widget_value := iso_widget_value self |}
                    closest_iso)
        end
    end.

(** ** [ApertureController] *)

Record ApertureController : Type := {
  fstop_strs : list string;
  fstop_norms : list (option Q);
  fstop_map : gmap string string;
  fstop_widget_value : option string
}.

(** [_normalize_fstop(fstop)]; [Ok None] is the logged failure that
    returns [None]. *)
Definition _normalize_fstop (fstop : string) : res (option Q) :=
  match split_max "/" 2 fstop with
  | [den] | ["f"; den] | ["1"; den] => Some <$> of_option ValueError (float den)
  | _ => Ok None
  end.

(** [ApertureController.__init__], from the choices of the widget. *)
Definition ApertureController_init (choices : list string)
  : res ApertureController :=
  norms ← mapM _normalize_fstop choices;
  Ok {| fstop_strs := choices; fstop_norms := norms; fstop_map := ∅;
        fstop_widget_value := None |}.

Definition fstop_set_value (self : ApertureController) (v : string)
  : ApertureController :=
  {| fstop_strs := fstop_strs self; fstop_norms := fstop_norms self;
     fstop_map := fstop_map self; fstop_widget_value := Some v |}.

(** [ApertureController.select(fstop)]; the result [None] stands for an
    exception that is not caught, as in [iso_select]. *)
Definition fstop_select (self : ApertureController) (fstop : string)
  : option ApertureController :=
  if bool_decide (fstop ∈ fstop_strs self) then Some (fstop_set_value self fstop)
  else
    match fstop_map self !! fstop with
    | Some cached => Some (fstop_set_value self cached)
    | None =>
        match (norm ← _normalize_fstop fstop;
               find_nearest abs_diff_float (fstop_norms self) norm) with
        | Raise ValueError => Some self
        | Raise _ => None
        | Ok (i, v) =>
            closest_fstop ← fstop_strs self !! i;
            Some (fstop_set_value
                    {| fstop_strs := fstop_strs self;
                       fstop_norms := fstop_norms self;
                       fstop_map := <[fstop := closest_fstop]> (fstop_map self);
                       fstop_widget_value := fstop_widget_value self |}
                    closest_fstop)
        end
    end.

End Controllers.

(** * [convertsem.py] and [sequencer.py]: the logging level of [main] *)
Module Main.

(** [logging.WARN], [logging.INFO], [logging.DEBUG] *)
Inductive level : Type := WARN | INFO | DEBUG.

Definition LEVELS : list level := [WARN; INFO; DEBUG].

(** [verbosity = min(args.verbose, len(LEVELS))], then
    [LEVELS[verbosity]]; [verbose] is the number of [-v] flags.  The
    result [None] stands for [IndexError]. *)
Definition log_level (verbose : nat) : option level :=
  let verbosity := Nat.min verbose (length LEVELS) in
  LEVELS !! verbosity.

End Main.

(** * Facts about the built-ins *)
Module PyFacts.
Import Py.

(** ** Decimal digits *)

(** Case analysis on a digit: [tac] closes the goal for each of 0..9. *)
Ltac digit_cases k tac :=
  let Hk := fresh "Hk" in
  assert (k = 0 ∨ k = 1 ∨ k = 2 ∨ k = 3 ∨ k = 4 ∨ k = 5 ∨ k = 6 ∨ k = 7
          ∨ k = 8 ∨ k = 9) as Hk by lia;
  repeat (destruct Hk as [-> | Hk]; [tac|]); subst; tac.

Lemma digit_val_digit (k : Z) : 0 <= k <= 9 → digit_val (digit k) = Some k.
Proof. intros H. digit_cases k ltac:(reflexivity). Qed.

Lemma mod_10_digit (x : Z) : 0 <= x mod 10 <= 9.
Proof. pose proof (Z.mod_pos_bound x 10). lia. Qed.

Lemma digit_val_inv (c : ascii) (d : Z) :
  digit_val c = Some d → c = digit d ∧ 0 <= d <= 9.
Proof.
  unfold digit_val. intros H.
  destruct (_ && _) eqn:Hb; [|discriminate].
  apply andb_true_iff in Hb as [H1%Z.leb_le H2%Z.leb_le].
  injection H as <-. split; [|lia].
  unfold digit.
  replace (Z.to_N (48 + (Z.of_N (N_of_ascii c) - 48))) with (N_of_ascii c) by lia.
  by rewrite ascii_N_embedding.
Qed.

(** Text made of decimal digits only. *)
Fixpoint is_digits (s : string) : bool :=
  match s with
  | EmptyString => true
  | String c s' => bool_decide (is_Some (digit_val c)) && is_digits s'
  end.

Lemma is_digits_app (s t : string) :
  is_digits (s +:+ t) = is_digits s && is_digits t.
Proof.
  induction s as [|c s IH]; [reflexivity|].
  simpl. rewrite IH. by rewrite andb_assoc.
Qed.

Lemma is_digits_digits (w : nat) (n : Z) : is_digits (digits w n) = true.
Proof.
  induction w as [|w IH]; [reflexivity|].
  simpl. rewrite IH, andb_true_r. apply bool_decide_eq_true.
  rewrite digit_val_digit; [eauto|].
  apply mod_10_digit.
Qed.

Lemma digits_nonempty (w : nat) (n : Z) : digits (S w) n ≠ EmptyString.
Proof. discriminate. Qed.

Lemma digits_val_digits (w : nat) (n acc : Z) :
  0 <= n →
  digits_val acc (digits w n) = Some (acc * 10 ^ Z.of_nat w + n mod 10 ^ Z.of_nat w).
Proof.
  intros Hn. revert acc. induction w as [|w IH]; intros acc.
  - simpl. f_equal. rewrite Z.mod_1_r. lia.
  - cbn [digits digits_val].
    rewrite digit_val_digit by apply mod_10_digit.
    rewrite IH. f_equal.
    rewrite Nat2Z.inj_succ, Z.pow_succ_r by lia.
    set (p := 10 ^ Z.of_nat w).
    assert (0 < p) by (apply Z.pow_pos_nonneg; lia).
    rewrite (Z.mul_comm 10 p), Z.rem_mul_r by lia. lia.
Qed.

(** A separator that is no digit. *)
Definition not_digit (c : ascii) : Prop := digit_val c = None.

(** Text in which the character [sep] does not occur. *)
Fixpoint free_of (sep : ascii) (s : string) : bool :=
  match s with
  | EmptyString => true
  | String c s' => negb (Ascii.eqb c sep) && free_of sep s'
  end.

Lemma free_of_app (sep : ascii) (s t : string) :
  free_of sep (s +:+ t) = free_of sep s && free_of sep t.
Proof.
  induction s as [|c s IH]; [reflexivity|].
  simpl. rewrite IH. by rewrite andb_assoc.
Qed.

Lemma free_of_digits (sep : ascii) (s : string) :
  not_digit sep → is_digits s = true → free_of sep s = true.
Proof.
  intros Hsep. induction s as [|c s IH]; intros H; [reflexivity|].
  simpl in H. apply andb_true_iff in H as [Hc%bool_decide_eq_true Hs].
  simpl. rewrite IH by done. rewrite andb_true_r.
  destruct (Ascii.eqb_spec c sep) as [->|_]; [|reflexivity].
  rewrite Hsep in Hc. by destruct Hc.
Qed.

Lemma split_free (sep : ascii) (s : string) :
  free_of sep s = true → split sep s = [s].
Proof.
  induction s as [|c s IH]; intros H; [reflexivity|].
  simpl in H. apply andb_true_iff in H as [Hc%negb_true_iff Hs].
  simpl. by rewrite Hc, IH.
Qed.

Lemma split_free_sep (sep : ascii) (s rest : string) :
  free_of sep s = true →
  split sep (s +:+ String sep rest) = s :: split sep rest.
Proof.
  induction s as [|c s IH]; intros H.
  - simpl. by rewrite Ascii.eqb_refl.
  - simpl in H. apply andb_true_iff in H as [Hc%negb_true_iff Hs].
    simpl. by rewrite Hc, IH.
Qed.

Lemma is_space_not_digit (c : ascii) :
  is_Some (digit_val c) → is_space c = false.
Proof.
  intros [d [-> Hd]%digit_val_inv]. digit_cases d ltac:(reflexivity).
Qed.

Lemma rstrip_digits (s : string) : is_digits s = true → rstrip s = s.
Proof.
  induction s as [|c s IH]; intros H; [reflexivity|].
  simpl in H. apply andb_true_iff in H as [Hc%bool_decide_eq_true Hs].
  simpl. rewrite IH by done.
  destruct s; [|reflexivity].
  by rewrite is_space_not_digit.
Qed.

Lemma strip_digits (s : string) : is_digits s = true → strip s = s.
Proof.
  intros H. unfold strip.
  destruct s as [|c s]; [reflexivity|].
  pose proof H as H'. simpl in H'.
  apply andb_true_iff in H' as [Hc%bool_decide_eq_true Hs].
  cbn [lstrip]. rewrite is_space_not_digit by done.
  by apply rstrip_digits.
Qed.

(** [int] reads back a fixed-width field. *)
Lemma int_digits (w : nat) (n : Z) :
  0 <= n < 10 ^ Z.of_nat (S w) → int (digits (S w) n) = Some n.
Proof.
  intros Hn. unfold int.
  rewrite strip_digits by apply is_digits_digits.
  assert (unsigned_val (digits (S w) n) = Some n) as Hu.
  { unfold unsigned_val. cbn [digits].
    change (String ?c ?s) with (digits (S w) n).
    rewrite digits_val_digits by lia. f_equal.
    rewrite Z.mod_small; lia. }
  cbn [digits] in *.
  set (k := n / 10 ^ Z.of_nat w mod 10) in *.
  assert (0 <= k <= 9) as Hk by apply mod_10_digit.
  clearbody k. digit_cases k ltac:(exact Hu).
Qed.

Lemma int_digits_1 (n : Z) : 0 <= n < 10 → int (digits 1 n) = Some n.
Proof. intros H. by apply int_digits. Qed.

Lemma int_digits_2 (n : Z) : 0 <= n < 100 → int (digits 2 n) = Some n.
Proof. intros H. by apply int_digits. Qed.

Lemma int_digits_4 (n : Z) : 0 <= n < 10000 → int (digits 4 n) = Some n.
Proof. intros H. by apply int_digits. Qed.

(** ** The calendar *)

Lemma find_down_spec (p : Z → bool) (n : nat) (hi : Z) :
  let k := find_down p hi n in
  hi - Z.of_nat n <= k <= hi
  ∧ (k = hi - Z.of_nat n ∨ p k = true)
  ∧ ∀ j, k < j <= hi → p j = false.
Proof.
  revert hi. induction n as [|n IH]; intros hi; cbn [find_down]; cbv zeta.
  - repeat split; [lia..|left; lia|]. intros j Hj. lia.
  - destruct (p hi) eqn:Hp.
    + repeat split; [lia..|auto|]. intros j Hj. lia.
    + destruct (IH (hi - 1)) as (Hb & Hk & Hj). cbv zeta in *.
      repeat split; [lia..| |].
      * destruct Hk as [Hk|Hk]; [left; lia | by right].
      * intros j Hj'.
        destruct (decide (j = hi)) as [->|Hne]; [exact Hp|]. apply Hj. lia.
Qed.

Lemma find_last_spec (p : Z → bool) (lo : Z) (n : nat) :
  let k := find_last p lo n in
  lo <= k <= lo + Z.of_nat n
  ∧ (k = lo ∨ p k = true)
  ∧ ∀ j, k < j <= lo + Z.of_nat n → p j = false.
Proof.
  unfold find_last. cbv zeta.
  destruct (find_down_spec p n (lo + Z.of_nat n)) as (Hb & Hk & Hj).
  cbv zeta in *. repeat split; [lia..| |exact Hj].
  destruct Hk as [Hk|Hk]; [left; lia | by right].
Qed.

Lemma days_before_month_succ (y m : Z) :
  1 <= m <= 11 →
  days_before_month y (m + 1) = days_before_month y m + days_in_month y m.
Proof.
  intros Hm.
  assert (m = 1 ∨ m = 2 ∨ m = 3 ∨ m = 4 ∨ m = 5 ∨ m = 6 ∨ m = 7 ∨ m = 8
          ∨ m = 9 ∨ m = 10 ∨ m = 11) as Hk by lia.
  unfold days_before_month, days_in_month.
  repeat (destruct Hk as [-> | Hk]; [simpl; destruct (is_leap y); reflexivity|]).
  subst. simpl. destruct (is_leap y); reflexivity.
Qed.

Lemma days_before_year_succ (y : Z) :
  days_before_year (y + 1)
  = days_before_year y + days_before_month y 12 + days_in_month y 12.
Proof.
  unfold days_before_year, days_before_month, days_in_month, is_leap. simpl.
  replace (y + 1 - 1) with y by lia.
  destruct (Z.eqb_spec (y mod 4) 0), (Z.eqb_spec (y mod 100) 0),
    (Z.eqb_spec (y mod 400) 0); simpl; Z.div_mod_to_equations; lia.
Qed.

Lemma days_in_month_le_31 (y m : Z) : days_in_month y m <= 31.
Proof.
  unfold days_in_month.
  repeat match goal with |- context [if ?b then _ else _] => destruct b end; lia.
Qed.

Lemma days_before_month_1 (y : Z) : days_before_month y 1 = 0.
Proof. reflexivity. Qed.

Lemma days_before_year_1 : days_before_year 1 = 0.
Proof. reflexivity. Qed.

Lemma dt_ordinal_range (t : datetime) :
  dt_valid t → 1 <= dt_ordinal t <= max_ordinal.
Proof.
  unfold dt_valid, dt_ordinal. intros Hv.
  assert (0 < us_per_day) by reflexivity.
  split.
  - assert (0 <= t / us_per_day) by (apply Z.div_pos; lia). lia.
  - assert (t / us_per_day < max_ordinal); [|lia].
    apply Z.div_lt_upper_bound; lia.
Qed.

(** The year of [t] is the year its day falls in. *)
Lemma dt_year_spec (t : datetime) :
  dt_valid t →
  1 <= dt_year t <= 9999
  ∧ days_before_year (dt_year t) < dt_ordinal t <= days_before_year (dt_year t + 1).
Proof.
  intros Hord%dt_ordinal_range. unfold dt_year.
  remember (Z.to_nat 9998) as n eqn:Hn.
  assert (Z.of_nat n = 9998) as Hn' by (rewrite Hn; apply Z2Nat.id; lia).
  clear Hn.
  pose proof (find_last_spec (fun y => days_before_year y <? dt_ordinal t) 1 n) as Hy.
  cbv zeta beta in Hy. rewrite Hn' in Hy.
  set (y := find_last _ 1 n) in *.
  destruct Hy as (Hyb & Hylo & Hyhi).
  split; [lia|]. split.
  - destruct Hylo as [-> | H%Z.ltb_lt]; [rewrite days_before_year_1; lia | exact H].
  - destruct (decide (y = 9999)) as [-> | Hne]; [apply Hord|].
    apply Z.ltb_ge, Hyhi. lia.
Qed.

(** The calendar fields of a representable [datetime] are in range, and
    name its day. *)
Lemma dt_fields_valid (t : datetime) :
  dt_valid t →
  1 <= dt_year t <= 9999
  ∧ 1 <= dt_month t <= 12
  ∧ 1 <= dt_day t <= days_in_month (dt_year t) (dt_month t)
  ∧ days_before_year (dt_year t) + days_before_month (dt_year t) (dt_month t)
    + dt_day t = dt_ordinal t.
Proof.
  intros Hv.
  destruct (dt_year_spec t Hv) as (Hyb & Hy1 & Hy2).
  unfold dt_day, dt_month.
  set (y := dt_year t) in *.
  pose proof (find_last_spec
                (fun m => days_before_year y + days_before_month y m <? dt_ordinal t)
                1 11) as Hm.
  cbv zeta beta in Hm.
  change (Z.of_nat 11) with 11 in Hm.
  set (m := find_last _ 1 11) in *.
  destruct Hm as (Hmb & Hmlo & Hmhi).
  assert (days_before_year y + days_before_month y m < dt_ordinal t) as Hm1.
  { destruct Hmlo as [-> | H%Z.ltb_lt]; [rewrite days_before_month_1; lia | exact H]. }
  assert (dt_ordinal t <= days_before_year y + days_before_month y m
                          + days_in_month y m) as Hm2.
  { destruct (decide (m = 12)) as [-> | Hne].
    - rewrite days_before_year_succ in Hy2. lia.
    - rewrite <- Z.add_assoc, <- days_before_month_succ by lia.
      apply Z.ltb_ge, Hmhi. lia. }
  lia.
Qed.

Lemma dt_time_fields (t : datetime) :
  0 <= t →
  0 <= dt_hour t < 24 ∧ 0 <= dt_minute t < 60 ∧ 0 <= dt_second t < 60
  ∧ 0 <= dt_microsecond t < us_per_second
  ∧ (((t / us_per_day * 24 + dt_hour t) * 60 + dt_minute t) * 60 + dt_second t)
      * us_per_second + dt_microsecond t = t.
Proof.
  intros Ht.
  unfold dt_hour, dt_minute, dt_second, dt_microsecond, us_per_day, us_per_second.
  Z.div_mod_to_equations. lia.
Qed.

(** Building a [datetime] from the calendar fields of [t], with another
    microsecond field, gives [t] with that microsecond field. *)
Lemma mk_datetime_fields (t : datetime) (us : Z) :
  dt_valid t → 0 <= us < us_per_second →
  mk_datetime (dt_year t) (dt_month t) (dt_day t) (dt_hour t) (dt_minute t)
    (dt_second t) us
  = Ok (t - dt_microsecond t + us).
Proof.
  intros Hv Hus.
  destruct (dt_fields_valid t Hv) as (Hy & Hm & Hd & Hord).
  destruct (dt_time_fields t) as (Hh & Hmi & Hs & Hmicro & Ht); [apply Hv|].
  unfold mk_datetime.
  replace (_ && _) with true.
  - f_equal. unfold dt_ordinal in Hord. lia.
  - symmetry. repeat (apply andb_true_intro; split);
      first [apply Z.leb_le | apply Z.ltb_lt]; lia.
Qed.

End PyFacts.

(** * Facts about binary64 arithmetic *)
Module Float64Facts.
Import Py.

(** ** Powers of two *)

Lemma pow2_pos (e : Z) : (0 < 2 ^ e)%Q.
Proof. by apply Qpower_0_lt. Qed.

Lemma pow2_add (a b : Z) : (2 ^ (a + b) == 2 ^ a * 2 ^ b)%Q.
Proof. by apply Qpower_plus. Qed.

Lemma pow2_pred (e : Z) : (2 ^ e == 2 * 2 ^ (e - 1))%Q.
Proof.
  replace e with (1 + (e - 1)) at 1 by lia. rewrite pow2_add. reflexivity.
Qed.

Lemma pow2_le (a b : Z) : a <= b → (2 ^ a <= 2 ^ b)%Q.
Proof. intros H. apply Qpower_le_compat_l; [exact H|]. by apply Qle_bool_iff. Qed.

Lemma pow2_Z (n : Z) : 0 <= n → (2 ^ n == inject_Z (2 ^ n))%Q.
Proof. intros H. rewrite Zpower_Qpower by exact H. reflexivity. Qed.

(** ** Rounding to a whole number *)

Lemma round_half_even_near (x : Q) :
  (x - (1 # 2) <= inject_Z (round_half_even x) <= x + (1 # 2))%Q.
Proof.
  unfold round_half_even. cbv zeta.
  pose proof (Qfloor_le x) as Hlo. pose proof (Qlt_floor x) as Hhi.
  rewrite inject_Z_plus in Hhi. change (inject_Z 1) with 1%Q in Hhi.
  generalize dependent (Qfloor x). intros f Hlo Hhi.
  pose proof (Qfloor_le (2 * (x - inject_Z f))) as Hrlo.
  pose proof (Qlt_floor (2 * (x - inject_Z f))) as Hrhi.
  rewrite inject_Z_plus in Hrhi. change (inject_Z 1) with 1%Q in Hrhi.
  destruct (Qeq_bool (2 * (x - inject_Z f)) 1) eqn:He.
  - apply Qeq_bool_iff in He.
    destruct (Z.even f); [|rewrite inject_Z_plus; change (inject_Z 1) with 1%Q]; lra.
  - clear He. revert Hrlo Hrhi.
    generalize (Qfloor (2 * (x - inject_Z f))). intros g Hrlo Hrhi.
    destruct (Z.eqb_spec g 0) as [->|H0].
    + change (inject_Z 0) with 0%Q in *. lra.
    + assert (0 <= g) as Hg.
      { apply Z.lt_succ_r. rewrite Zlt_Qlt, <- Z.add_1_r, inject_Z_plus.
        change (inject_Z 1) with 1%Q. change (inject_Z 0) with 0%Q. lra. }
      assert (1 <= inject_Z g)%Q as H1.
      { change 1%Q with (inject_Z 1). rewrite <- Zle_Qle. lia. }
      rewrite inject_Z_plus. change (inject_Z 1) with 1%Q. lra.
Qed.

(** ** The binary logarithm *)

Lemma ilog2_le (x : Q) : ¬ (x == 0)%Q → (2 ^ ilog2 x <= Qabs x)%Q.
Proof.
  intros Hx. unfold ilog2. cbv zeta.
  set (n := Z.abs (Qnum x)). set (d := Z.pos (Qden x)).
  set (k := Z.log2 n - Z.log2 d).
  destruct (Qle_bool (2 ^ k) (Qabs x)) eqn:Hk; [by apply Qle_bool_iff|].
  assert (Hn : 0 < n).
  { subst n. destruct x as [[|p|p] q]; cbn [Qnum]; [|lia..]. exfalso. by apply Hx. }
  assert (Hd : 0 < d) by (subst d; lia).
  pose proof (Z.log2_spec n Hn) as [Hn1 _].
  pose proof (Z.log2_spec d Hd) as [_ Hd2].
  pose proof (Z.log2_nonneg n) as Hln. pose proof (Z.log2_nonneg d) as Hld.
  assert (Habs : (Qabs x == inject_Z n / inject_Z d)%Q).
  { subst n d. destruct x as [a q]. unfold Qabs. cbn [Qnum Qden].
    rewrite (Qmake_Qdiv (Z.abs a) q). reflexivity. }
  rewrite Habs.
  assert (Hdq : (0 < inject_Z d)%Q)
    by (change 0%Q with (inject_Z 0); by rewrite <- Zlt_Qlt).
  apply Qle_shift_div_l; [exact Hdq|].
  (* 2^(k-1) * d <= 2^(k-1) * 2^(log2 d + 1) = 2^(log2 n) <= n *)
  assert (inject_Z d <= 2 ^ (Z.log2 d + 1))%Q as H1.
  { rewrite pow2_Z by lia. rewrite <- Zle_Qle. lia. }
  assert (2 ^ Z.log2 n <= inject_Z n)%Q as H2.
  { rewrite pow2_Z by lia. by rewrite <- Zle_Qle. }
  assert (2 ^ (k - 1) * 2 ^ (Z.log2 d + 1) == 2 ^ Z.log2 n)%Q as H3.
  { rewrite <- pow2_add. subst k.
    by replace (Z.log2 n - Z.log2 d - 1 + (Z.log2 d + 1)) with (Z.log2 n) by lia. }
  pose proof (pow2_pos (k - 1)) as Hp.
  eapply Qle_trans; [|exact H2]. rewrite <- H3.
  rewrite !(Qmult_comm (2 ^ (k - 1))). apply Qmult_le_compat_r; [exact H1|lra].
Qed.

(** Half a unit in the last place is at most [2 ^ -53] of the value,
    or half the smallest positive number. *)
Lemma quantum_half (x : Q) :
  ¬ (x == 0)%Q →
  (2 ^ quantum x <= 2 * (Qabs x * 2 ^ (-53) + 2 ^ (-1075)))%Q.
Proof.
  intros Hx. unfold quantum.
  pose proof (ilog2_le x Hx) as Hl.
  pose proof (pow2_pos (-53)) as H53. pose proof (pow2_pos (-1075)) as H1075.
  assert (0 <= Qabs x)%Q as Habs by apply Qabs_nonneg.
  destruct (Z.max_spec (ilog2 x - 52) (-1074)) as [[_ ->]|[_ ->]].
  - rewrite (pow2_pred (-1074)). change (-1074 - 1) with (-1075).
    assert (0 <= Qabs x * 2 ^ (-53))%Q by (apply Qmult_le_0_compat; lra). lra.
  - replace (ilog2 x - 52) with (1 + (ilog2 x + -53)) by lia.
    rewrite pow2_add, pow2_add. change (2 ^ 1)%Q with 2%Q.
    assert (2 ^ ilog2 x * 2 ^ (-53) <= Qabs x * 2 ^ (-53))%Q
      by (apply Qmult_le_compat_r; lra).
    lra.
Qed.

(** ** The nearest binary64 number *)

Lemma Qltb_true (x y : Q) : Qltb x y = true ↔ (x < y)%Q.
Proof.
  unfold Qltb. rewrite negb_true_iff. split.
  - intros H. apply Qnot_le_lt. intros Hle. apply Qle_bool_iff in Hle. congruence.
  - intros H. apply not_true_is_false. intros Hle%Qle_bool_iff.
    by apply Qlt_not_le in H.
Qed.

Lemma Qltb_false (x y : Q) : Qltb x y = false ↔ (y <= x)%Q.
Proof. unfold Qltb. rewrite negb_false_iff. apply Qle_bool_iff. Qed.

Lemma Qle_bool_gt (x y : Q) : Qle_bool x y = false ↔ (y < x)%Q.
Proof.
  split.
  - intros H. apply Qnot_le_lt. intros Hle%Qle_bool_iff. congruence.
  - intros H. apply not_true_is_false. intros Hle%Qle_bool_iff.
    by apply Qlt_not_le in H.
Qed.

Lemma Qis_zero_eq (x : Q) : Qis_zero x = true ↔ (x == 0)%Q.
Proof. apply Qeq_bool_iff. Qed.

Lemma Qis_zero_neq (x : Q) : Qis_zero x = false ↔ ¬ (x == 0)%Q.
Proof. unfold Qis_zero. rewrite <- not_true_iff_false, Qeq_bool_iff. done. Qed.

(** The largest error of [nearest] at [x]: half a unit in the last
    place, which is at most [2 ^ -53] of [x] but for the numbers below
    [2 ^ -1022]. *)
Definition half_ulp (x : Q) : Q := (Qabs x * 2 ^ (-53) + 2 ^ (-1075))%Q.

Lemma half_ulp_pos (x : Q) : (0 < half_ulp x)%Q.
Proof.
  unfold half_ulp. pose proof (pow2_pos (-53)). pose proof (pow2_pos (-1075)).
  pose proof (Qabs_nonneg x).
  assert (0 <= Qabs x * 2 ^ (-53))%Q by (apply Qmult_le_0_compat; lra). lra.
Qed.

(** The whole multiple of the quantum nearest to [x] is within half a
    unit in the last place of [x]. *)
Lemma round_quantum_near (x : Q) :
  ¬ (x == 0)%Q →
  let y := (inject_Z (round_half_even (x / 2 ^ quantum x)) * 2 ^ quantum x)%Q in
  (x - half_ulp x <= y <= x + half_ulp x)%Q.
Proof.
  intros Hx. cbv zeta.
  pose proof (quantum_half x Hx) as Hq. fold (half_ulp x) in Hq.
  pose proof (pow2_pos (quantum x)) as Hp.
  pose proof (round_half_even_near (x / 2 ^ quantum x)) as Hr.
  revert Hq Hp Hr. generalize (2 ^ quantum x)%Q (half_ulp x). intros p h Hq Hp Hr.
  assert (Hxa : (x == x / p * p)%Q) by (field; lra).
  revert Hr Hxa. generalize (x / p)%Q (inject_Z (round_half_even (x / p))).
  intros a m [Hr1 Hr2] Hxa.
  assert ((a - (1 # 2)) * p <= m * p)%Q as H1
    by (apply Qmult_le_compat_r; lra).
  assert (m * p <= (a + (1 # 2)) * p)%Q as H2
    by (apply Qmult_le_compat_r; lra).
  assert ((a - (1 # 2)) * p == x - (1 # 2) * p)%Q as E1 by (rewrite Hxa; ring).
  assert ((a + (1 # 2)) * p == x + (1 # 2) * p)%Q as E2 by (rewrite Hxa; ring).
  rewrite E1 in H1. rewrite E2 in H2. lra.
Qed.

(** [nearest] of a positive number: [inf], or a number that is not
    negative, is below [2 ^ 1024] and is within half a unit in the last
    place. *)
Lemma nearest_pos (x : Q) :
  (0 < x)%Q →
  nearest x = Inf false
  ∨ ∃ y, nearest x = Finite y ∧ (0 <= y)%Q ∧ (y < 2 ^ 1024)%Q
         ∧ (x - half_ulp x <= y <= x + half_ulp x)%Q.
Proof.
  intros Hx. assert (Hnz : ¬ (x == 0)%Q) by lra.
  unfold nearest. cbv zeta.
  replace (Qis_zero x) with false by (symmetry; by apply Qis_zero_neq).
  replace (Qltb x 0) with false by (symmetry; apply Qltb_false; lra).
  pose proof (round_quantum_near x Hnz) as Hy. cbv zeta in Hy.
  pose proof (round_half_even_near (x / 2 ^ quantum x)) as Hm.
  pose proof (pow2_pos (quantum x)) as Hp.
  assert (Ha : (0 < x / 2 ^ quantum x)%Q) by (by apply Qlt_shift_div_l; lra).
  set (m := round_half_even (x / 2 ^ quantum x)) in *.
  assert (Hm0 : 0 <= m).
  { apply Z.lt_succ_r. rewrite Zlt_Qlt, <- Z.add_1_r, inject_Z_plus.
    change (inject_Z 1) with 1%Q. change (inject_Z 0) with 0%Q. lra. }
  pose proof (Qred_correct (inject_Z m * 2 ^ quantum x)) as Hred.
  destruct (Qle_bool (2 ^ 1024) (Qabs (Qred (inject_Z m * 2 ^ quantum x)))) eqn:Hov;
    [by left|right].
  apply Qle_bool_gt in Hov. rewrite Hred in Hov.
  assert (Hy0 : (0 <= inject_Z m * 2 ^ quantum x)%Q).
  { apply Qmult_le_0_compat; [|lra].
    change 0%Q with (inject_Z 0). by rewrite <- Zle_Qle. }
  rewrite Qabs_pos in Hov by exact Hy0.
  destruct (Z.eqb_spec m 0) as [H0|H0].
  - exists 0%Q. split; [reflexivity|]. split; [lra|]. split; [apply pow2_pos|].
    rewrite H0 in Hy. change (inject_Z 0) with 0%Q in Hy. lra.
  - exists (Qred (inject_Z m * 2 ^ quantum x)). split; [reflexivity|].
    rewrite Hred. split; [exact Hy0|]. split; [exact Hov|exact Hy].
Qed.

End Float64Facts.

(** * Facts about [sem/strconv.py] *)
Module StrconvFacts.
Import Py Strconv PyFacts.

Lemma not_digit_slash : not_digit "/". Proof. reflexivity. Qed.
Lemma not_digit_colon : not_digit ":". Proof. reflexivity. Qed.
Lemma not_digit_point : not_digit ".". Proof. reflexivity. Qed.

Lemma format_date_shape (t : datetime) :
  format_date t =
    digits 4 (dt_year t) +:+ String "/" (digits 2 (dt_month t) +:+
      String "/" (digits 2 (dt_day t))).
Proof. reflexivity. Qed.

(** The text of [format_time]: hours, minutes, seconds, and the first of
    the six microsecond digits; the other five are cut off. *)
Lemma format_time_shape (t : datetime) :
  format_time t =
    digits 2 (dt_hour t) +:+ String ":" (digits 2 (dt_minute t) +:+
      String ":" (digits 2 (dt_second t) +:+
        String "." (digits 1 (dt_microsecond t / 100000)))).
Proof.
  unfold format_time, strftime_HMSf, drop_last.
  cbv [digits String.append String.length Nat.sub String.substring].
  change (10 ^ Z.of_nat 5) with 100000. change (10 ^ Z.of_nat 0) with 1.
  by rewrite !Z.div_1_r.
Qed.

(** The tenth of a second [t] falls in. *)
Definition truncate_tenth (t : datetime) : datetime := t - t mod 100000.

Lemma truncate_tenth_microsecond (t : datetime) :
  t - dt_microsecond t + dt_microsecond t / 100000 * 100000 = truncate_tenth t.
Proof.
  unfold truncate_tenth, dt_microsecond, us_per_second.
  change 1000000 with (100000 * 10).
  rewrite Z.rem_mul_r by lia.
  set (r := t mod 100000). set (k := (t / 100000) mod 10).
  assert (0 <= r < 100000) as Hr by (apply Z.mod_pos_bound; lia).
  replace ((r + 100000 * k) / 100000) with k; [lia|].
  rewrite (Z.mul_comm 100000 k), Z.div_add, Z.div_small by lia. lia.
Qed.

(** Reading back texts written with fixed-width fields. *)
Lemma parse_date_time_fields (y m d hh mm ss x : Z) :
  0 <= y < 10000 → 0 <= m < 100 → 0 <= d < 100 →
  0 <= hh < 100 → 0 <= mm < 100 → 0 <= ss < 100 → 0 <= x < 10 →
  parse_date_time
    (Some (digits 4 y +:+ String "/" (digits 2 m +:+ String "/" (digits 2 d))))
    (Some (digits 2 hh +:+ String ":" (digits 2 mm +:+
             String ":" (digits 2 ss +:+ String "." (digits 1 x)))))
  = mk_datetime y m d hh mm ss (x * 100000).
Proof.
  intros Hy Hm Hd Hh Hmi Hs Hx.
  assert (split "/" (digits 4 y +:+ String "/" (digits 2 m +:+ String "/" (digits 2 d)))
          = [digits 4 y; digits 2 m; digits 2 d]) as Hdate.
  { rewrite !split_free_sep, split_free;
      by (try apply free_of_digits; try apply is_digits_digits). }
  assert (free_of ":" (digits 2 ss +:+ String "." (digits 1 x)) = true) as Hfree.
  { rewrite free_of_app. cbn [free_of].
    by rewrite !free_of_digits by (try apply is_digits_digits; done). }
  assert (split ":" (digits 2 hh +:+ String ":" (digits 2 mm +:+
                       String ":" (digits 2 ss +:+ String "." (digits 1 x))))
          = [digits 2 hh; digits 2 mm; digits 2 ss +:+ String "." (digits 1 x)])
    as Htime.
  { rewrite !split_free_sep, (split_free _ _ Hfree);
      by (try apply free_of_digits; try apply is_digits_digits). }
  assert (split "." (digits 2 ss +:+ String "." (digits 1 x))
          = [digits 2 ss; digits 1 x]) as Hsec.
  { rewrite split_free_sep, split_free;
      by (try apply free_of_digits; try apply is_digits_digits). }
  unfold parse_date_time. cbn [of_option mbind res_bind].
  rewrite Hdate. cbn [mapM mbind res_bind].
  rewrite int_digits_4, !int_digits_2 by lia.
  cbn [of_option mbind res_bind].
  rewrite Htime, !int_digits_2 by lia.
  cbn [of_option mbind res_bind].
  rewrite Hsec, int_digits_2, int_digits_1 by lia.
  reflexivity.
Qed.

(** Reading back the two texts written for [t] gives [t] cut to the
    tenth of a second. *)
Lemma parse_date_time_format (t : datetime) :
  dt_valid t →
  parse_date_time (Some (format_date t)) (Some (format_time t))
  = Ok (truncate_tenth t).
Proof.
  intros Hv.
  destruct (dt_fields_valid t Hv) as (Hy & Hm & Hd & _).
  destruct (dt_time_fields t) as (Hh & Hmi & Hs & Hus & _); [apply Hv|].
  assert (0 <= dt_microsecond t / 100000 < 10) as Hx.
  { unfold us_per_second in Hus. split.
    - apply Z.div_pos; lia.
    - apply Z.div_lt_upper_bound; lia. }
  pose proof (days_in_month_le_31 (dt_year t) (dt_month t)) as Hd'.
  rewrite format_date_shape, format_time_shape.
  rewrite parse_date_time_fields by lia.
  rewrite mk_datetime_fields; [|done|unfold us_per_second; lia].
  f_equal. apply truncate_tenth_microsecond.
Qed.

End StrconvFacts.

(** * Facts about [sem/event.py] *)
Module EventFacts.
Import Py Strconv Event.

Section sub_search_facts.
Context {A : Type}.
Variable key : A → Q.

Lemma sub_search_nil (check : Q → bool) :
  sub_search key [] check = None.
Proof. reflexivity. Qed.

Lemma sub_search_head_fails (check : Q → bool) i item rest :
  check (key item) = false →
  sub_search key ((i, item) :: rest) check = None.
Proof. intros H. unfold sub_search. simpl. by rewrite H. Qed.

Lemma imap_pair_snoc (l : list A) (x : A) :
  reverse (imap pair (l ++ [x])) = (length l, x) :: reverse (imap pair l).
Proof.
  rewrite imap_app, reverse_app. simpl.
  by rewrite Nat.add_0_r.
Qed.

(** No lower bound when even the first entry is above the target. *)
Lemma find_bounds_lo_none (sequence : list A) (target : Q) :
  Forall (fun item => Qle_bool (key item) target = false) sequence →
  (find_bounds key sequence target).1 = None.
Proof.
  intros H. unfold find_bounds. simpl.
  destruct H as [|item rest Hitem _]; [reflexivity|].
  simpl. by apply sub_search_head_fails.
Qed.

(** No upper bound when even the last entry is below the target. *)
Lemma find_bounds_hi_none (sequence : list A) (target : Q) :
  Forall (fun item => Qle_bool target (key item) = false) sequence →
  (find_bounds key sequence target).2 = None.
Proof.
  intros H. unfold find_bounds. simpl.
  destruct sequence as [|item rest] using rev_ind; [reflexivity|].
  rewrite imap_pair_snoc.
  apply sub_search_head_fails.
  apply Forall_app in H as [_ H]. by inversion H.
Qed.

End sub_search_facts.

(** [get_magnitude_time] has no "no answer" result: when a bound is
    missing, unpacking it raises [TypeError]. *)
Lemma get_magnitude_time_out_of_range (self : EventManager) (magnitude : Q)
  (post : bool) :
  let mags := if post then post_magnitudes self else pre_magnitudes self in
  Forall (fun item => Qle_bool item.1 magnitude = false) mags
  ∨ Forall (fun item => Qle_bool magnitude item.1 = false) mags →
  get_magnitude_time self magnitude post = Raise TypeError.
Proof.
  intros mags H. unfold get_magnitude_time. fold mags.
  destruct (find_bounds fst mags magnitude) as [lo hi] eqn:Hb.
  destruct H as [H|H].
  - apply (find_bounds_lo_none fst) in H. rewrite Hb in H. simpl in H.
    by subst lo.
  - apply (find_bounds_hi_none fst) in H. rewrite Hb in H. simpl in H.
    subst hi. destruct lo as [[lo_i [lo_m lo_t]]|]; reflexivity.
Qed.

(** The answer of [get_time] for a [MAGPRE]/[MAGPOST] name never comes
    from the contact-time fallback: it is the table's answer, or the
    exception of the table lookup. *)
Lemma get_time_magnitude_no_fallback (self : EventManager) (name word percent : string)
  (p : Q) :
  events self !! name = None →
  split " " name = [word; percent] →
  word = "MAGPRE" ∨ word = "MAGPOST" →
  float percent = Some p →
  get_time self name =
    Some <$> get_magnitude_time self (p / 100)%Q (bool_decide (word = "MAGPOST")).
Proof.
  intros Hev Hsplit Hword Hp. unfold get_time, get_time_body.
  rewrite Hev, Hsplit.
  destruct Hword as [-> | ->]; simpl; rewrite Hp; simpl;
    by destruct (get_magnitude_time _ _ _).
Qed.

(** [get_time] is a fixed point of its body: the two unfoldings of its
    definition are the whole recursion. *)
Lemma get_time_unfold (self : EventManager) (name : string) :
  get_time self name = get_time_body (get_time self) self name.
Proof. reflexivity. Qed.

(** An event table whose pre-maximum curve covers magnitudes 0.2 to 0.8. *)
Definition partial_table : EventManager :=
  {| events := <["C1" := 1000000]> (<["C2" := 5000000]> ∅);
     pre_magnitudes := [(0.2%Q, 2000000); (0.8%Q, 4000000)];
     post_magnitudes := [(0.2%Q, 9000000); (0.8%Q, 7000000)];
     max_magnitude := 1 |}.

(** C1 (fails on the code).  Claim: a [MAGPRE p] name whose target lies
    outside the magnitudes of the table makes the lookup report no answer,
    and [get_time] falls back to interpolation between the contacts.
    Code: with the table covering 0.2 to 0.8, ['MAGPRE 10'] (target 0.1)
    and ['MAGPOST 90'] (target 0.9) do not reach the fallback; the
    unpacking of the missing bound in [get_magnitude_time] raises
    [TypeError]. *)
Theorem get_time_out_of_range_raises :
  float "10" = Some 10%Q
  ∧ get_magnitude_time partial_table (10 / 100)%Q false = Raise TypeError
  ∧ get_time partial_table "MAGPRE 10" = Raise TypeError
  ∧ get_time partial_table "MAGPOST 90" = Raise TypeError
  ∧ get_time partial_table "MAGPRE 10"
      ≠ Ok (Some (1000000 + td_mul (5000000 - 1000000) (1 * (10 / 100))%Q)).
Proof. repeat split; try reflexivity. discriminate. Qed.

(** ** The bounds search on an ascending table *)

Section bounds.
Context {A : Type}.
Variable key : A → Q.

(** The scan of [sub_search] passes a run of [k] leading entries, stops
    at the entry after them, and answers with the last entry passed. *)
Lemma sub_search_from_run (check : Q → bool) (ps : list (nat * A))
  (found : option (nat * A)) :
  ∃ k : nat,
    (k ≤ length ps)%nat
    ∧ (∀ j p, (j < k)%nat → ps !! j = Some p → check (key p.2) = true)
    ∧ (∀ p, ps !! k = Some p → check (key p.2) = false)
    ∧ sub_search_from key check found ps
      = match k with O => found | S k' => ps !! k' end.
Proof.
  revert found. induction ps as [|[i item] rest IH]; intros found.
  - exists 0%nat. split; [done|]. split; [intros; lia|]. by split.
  - cbn [sub_search_from]. destruct (check (key item)) eqn:Hc.
    + destruct (IH (Some (i, item))) as (k & Hlen & Hpass & Hfail & Hres).
      exists (S k). split; [cbn [length]; lia|]. split; [|split].
      * intros [|j] p Hj Hp; [by simplify_eq/= | apply (Hpass j); [lia | done]].
      * exact Hfail.
      * rewrite Hres. by destruct k.
    + exists 0%nat. split; [lia|]. split; [intros; lia|]. split; [|done].
      intros p [= <-]. exact Hc.
Qed.

(** Magnitudes never decrease along the table. *)
Definition ascending (l : list A) : Prop :=
  ∀ (i j : nat) (a b : A),
    (i ≤ j)%nat → l !! i = Some a → l !! j = Some b → (key a <= key b)%Q.

Lemma Qle_bool_false (x y : Q) : Qle_bool x y = false ↔ (y < x)%Q.
Proof.
  rewrite <- not_true_iff_false, Qle_bool_iff. split.
  - apply Qnot_le_lt.
  - apply Qlt_not_le.
Qed.

(** On an ascending table with an entry at or below the target, the
    lower bound is the rightmost entry at or below the target. *)
Lemma find_bounds_lo (l : list A) (target : Q) (a : A) :
  ascending l → a ∈ l → (key a <= target)%Q →
  ∃ (i : nat) (e : A),
    (find_bounds key l target).1 = Some (i, e)
    ∧ l !! i = Some e
    ∧ (key e <= target)%Q
    ∧ ∀ j e', (i < j)%nat → l !! j = Some e' → (target < key e')%Q.
Proof.
  intros Hasc [ia Hia]%list_elem_of_lookup Ha.
  unfold find_bounds, sub_search. cbn [fst].
  destruct (sub_search_from_run (fun x => Qle_bool x target) (imap pair l) None)
    as (k & Hlen & Hpass & Hfail & Hres).
  rewrite length_imap in Hlen.
  assert (ia < k)%nat as Hk.
  { destruct (decide (ia < k)%nat) as [|Hge]; [done|]. exfalso.
    destruct (lookup_lt_is_Some_2 l k) as [ek Hek].
    { apply lookup_lt_Some in Hia. lia. }
    specialize (Hfail (k, ek)). rewrite list_lookup_imap, Hek in Hfail.
    specialize (Hfail eq_refl). apply Qle_bool_false in Hfail. cbn in Hfail.
    pose proof (Hasc k ia ek a ltac:(lia) Hek Hia). lra. }
  destruct k as [|k']; [lia|].
  destruct (lookup_lt_is_Some_2 l k') as [e He]; [lia|].
  exists k', e. rewrite Hres, list_lookup_imap, He.
  repeat split.
  - specialize (Hpass k' (k', e) ltac:(lia)).
    rewrite list_lookup_imap, He in Hpass.
    by apply Qle_bool_iff, Hpass.
  - intros j e' Hj He'.
    destruct (lookup_lt_is_Some_2 l (S k')) as [ek Hek].
    { apply lookup_lt_Some in He'. lia. }
    specialize (Hfail (S k', ek)). rewrite list_lookup_imap, Hek in Hfail.
    specialize (Hfail eq_refl). apply Qle_bool_false in Hfail. cbn in Hfail.
    pose proof (Hasc (S k') j ek e' ltac:(lia) Hek He'). lra.
Qed.

Lemma reverse_imap_lookup (l : list A) (k : nat) :
  (k < length l)%nat →
  reverse (imap pair l) !! k
  = (fun e => (length l - S k, e)%nat) <$> l !! (length l - S k)%nat.
Proof.
  intros Hk. rewrite reverse_lookup by (by rewrite length_imap).
  by rewrite length_imap, list_lookup_imap.
Qed.

(** On an ascending table with an entry at or above the target, the
    upper bound is the leftmost entry at or above the target. *)
Lemma find_bounds_hi (l : list A) (target : Q) (b : A) :
  ascending l → b ∈ l → (target <= key b)%Q →
  ∃ (i : nat) (e : A),
    (find_bounds key l target).2 = Some (i, e)
    ∧ l !! i = Some e
    ∧ (target <= key e)%Q
    ∧ ∀ j e', (j < i)%nat → l !! j = Some e' → (key e' < target)%Q.
Proof.
  intros Hasc [ib Hib]%list_elem_of_lookup Hb.
  pose proof (lookup_lt_Some _ _ _ Hib) as Hlen.
  unfold find_bounds, sub_search. cbn [snd].
  destruct (sub_search_from_run (fun x => Qle_bool target x)
              (reverse (imap pair l)) None) as (k & Hklen & Hpass & Hfail & Hres).
  rewrite length_reverse, length_imap in Hklen.
  assert (length l - S ib < k)%nat as Hk.
  { destruct (decide (length l - S ib < k)%nat) as [|Hge]; [done|]. exfalso.
    destruct (lookup_lt_is_Some_2 l (length l - S k)) as [ek Hek]; [lia|].
    specialize (Hfail (length l - S k, ek)%nat).
    rewrite reverse_imap_lookup, Hek in Hfail by lia.
    specialize (Hfail eq_refl). apply Qle_bool_false in Hfail. cbn in Hfail.
    pose proof (Hasc ib (length l - S k)%nat b ek ltac:(lia) Hib Hek). lra. }
  destruct k as [|k']; [lia|].
  destruct (lookup_lt_is_Some_2 l (length l - S k')) as [e He]; [lia|].
  exists (length l - S k')%nat, e.
  rewrite Hres, reverse_imap_lookup, He by lia.
  repeat split.
  - specialize (Hpass k' (length l - S k', e)%nat ltac:(lia)).
    rewrite reverse_imap_lookup, He in Hpass by lia.
    by apply Qle_bool_iff, Hpass.
  - intros j e' Hj He'.
    destruct (lookup_lt_is_Some_2 l (length l - S (S k'))) as [ek Hek]; [lia|].
    specialize (Hfail (length l - S (S k'), ek)%nat).
    rewrite reverse_imap_lookup, Hek in Hfail by lia.
    specialize (Hfail eq_refl). apply Qle_bool_false in Hfail. cbn in Hfail.
    pose proof (Hasc j (length l - S (S k'))%nat e' ek ltac:(lia) He' Hek). lra.
Qed.

End bounds.

(** ** C8: the magnitude-time lookup *)

(** A curve that stays at magnitude 0.5 for two readings. *)
Definition plateau_table : EventManager :=
  {| events := ∅;
     pre_magnitudes := [(0%Q, 1000000); (0.5%Q, 2000000); (0.5%Q, 3000000);
                        (1%Q, 4000000)];
     post_magnitudes := [];
     max_magnitude := 1 |}.

(** C8 (fails on the code).  Claim: for a target within the range of an
    ascending table the lookup returns the time of the bounding entry
    when the rightmost entry at or below the target and the leftmost
    entry at or above it coincide, and otherwise the time interpolated
    between the two.  Code: this table ascends (no magnitude is below an
    earlier one) and the target 0.5 is within its range.  The rightmost
    entry at or below the target is entry 2, the leftmost entry at or
    above it is entry 1; they do not coincide, and the branch that is to
    return a time in the middle divides by the difference of their
    magnitudes, which is zero: the lookup raises [ZeroDivisionError] and
    returns no time, and so does [get_time] for ['MAGPRE 50']. *)
Theorem plateau_lookup_raises :
  ascending fst (pre_magnitudes plateau_table)
  ∧ find_bounds fst (pre_magnitudes plateau_table) 0.5
    = (Some (2%nat, (0.5%Q, 3000000)), Some (1%nat, (0.5%Q, 2000000)))
  ∧ get_magnitude_time plateau_table 0.5 false = Raise ZeroDivisionError
  ∧ get_time plateau_table "MAGPRE 50" = Raise ZeroDivisionError.
Proof.
  split; [|repeat split].
  intros i j a b Hij Ha Hb.
  destruct i as [|[|[|[|i]]]], j as [|[|[|[|j]]]];
    simplify_eq/=; try lia; by vm_compute.
Qed.

(** The table of the specification's example: magnitude 0 at [t0],
    magnitude 1 at [t1]. *)
Definition two_point_table (t0 t1 : datetime) : EventManager :=
  {| events := ∅;
     pre_magnitudes := [(0%Q, t0); (1%Q, t1)];
     post_magnitudes := [];
     max_magnitude := 1 |}.

(** A rational that is a whole number rounds to that number. *)
Lemma round_half_even_whole (x : Q) (n : Z) :
  (x == inject_Z n)%Q → round_half_even x = n.
Proof.
  intros Hx. unfold round_half_even. cbv zeta.
  assert (Qfloor x = n) as -> by (rewrite (Qfloor_comp _ _ Hx); apply Qfloor_Z).
  assert (2 * (x - inject_Z n) == 0)%Q as H0 by (rewrite Hx; ring).
  replace (Qeq_bool (2 * (x - inject_Z n)) 1) with false.
  - by rewrite (Qfloor_comp _ _ H0).
  - symmetry. apply not_true_iff_false. rewrite Qeq_bool_iff, H0. discriminate.
Qed.

Lemma round_half_even_comp (x y : Q) :
  (x == y)%Q → round_half_even x = round_half_even y.
Proof.
  intros H. unfold round_half_even. cbv zeta.
  rewrite (Qfloor_comp _ _ H).
  assert (2 * (x - inject_Z (Qfloor y)) == 2 * (y - inject_Z (Qfloor y)))%Q as H2
    by (by rewrite H).
  by rewrite (Qfloor_comp _ _ H2), (Qeqb_comp _ _ H2 1%Q 1%Q (Qeq_refl 1%Q)).
Qed.

Lemma two_point_lookup_between (t0 t1 : datetime) (q : Q) :
  find_bounds fst [(0%Q, t0); (1%Q, t1)] q
  = (Some (0%nat, (0%Q, t0)), Some (1%nat, (1%Q, t1))) →
  get_magnitude_time (two_point_table t0 t1) q false
  = Ok (t0 + td_mul (t1 - t0) ((q - 0) / (1 - 0))).
Proof.
  intros Hfb. unfold get_magnitude_time.
  cbn [two_point_table pre_magnitudes]. by rewrite Hfb.
Qed.

Lemma two_point_lookup_knot (t0 t1 : datetime) (q : Q) :
  find_bounds fst [(0%Q, t0); (1%Q, t1)] q
  = (Some (0%nat, (0%Q, t0)), Some (0%nat, (0%Q, t0))) →
  get_magnitude_time (two_point_table t0 t1) q false = Ok t0.
Proof.
  intros Hfb. unfold get_magnitude_time.
  cbn [two_point_table pre_magnitudes]. by rewrite Hfb.
Qed.

(** Where the curve has no two readings of the target magnitude the
    lookup does return a time; these are the two examples of the
    specification.  At the knot 0.0 the lookup
    returns [t0] itself.  At 0.5 it returns [t0] plus half the time from
    [t0] to [t1], rounded to a whole microsecond; when that time is an
    even number of microseconds (as between any two instants given in
    tenths of a second) this is the instant exactly midway. *)
Lemma two_point_examples (t0 h : datetime) :
  get_time (two_point_table t0 (t0 + 2 * h)) "MAGPRE 0" = Ok (Some t0)
  ∧ get_time (two_point_table t0 (t0 + 2 * h)) "MAGPRE 50" = Ok (Some (t0 + h))
  ∧ ∀ t1, get_time (two_point_table t0 t1) "MAGPRE 50"
          = Ok (Some (t0 + round_half_even (inject_Z (t1 - t0) * 0.5))).
Proof.
  assert (∀ t1, get_time (two_point_table t0 t1) "MAGPRE 50"
                = Ok (Some (t0 + round_half_even (inject_Z (t1 - t0) * 0.5))))
    as Hmid.
  { intros t1.
    rewrite (get_time_magnitude_no_fallback _ _ "MAGPRE" "50" 50%Q)
      by (done || by left).
    cbn [bool_decide decide_rel]. rewrite two_point_lookup_between by reflexivity.
    cbn [fmap res_fmap]. unfold td_mul. do 3 f_equal.
    apply round_half_even_comp. field. }
  split; [|split; [|exact Hmid]].
  - rewrite (get_time_magnitude_no_fallback _ _ "MAGPRE" "0" 0%Q)
      by (done || by left).
    cbn [bool_decide decide_rel]. by rewrite two_point_lookup_knot by reflexivity.
  - rewrite Hmid. do 3 f_equal.
    apply round_half_even_whole.
    replace (t0 + 2 * h - t0) with (2 * h) by lia.
    rewrite inject_Z_mult. change (inject_Z 2) with 2%Q. field.
Qed.

End EventFacts.

(** * Facts about [sem/script.py] *)
Module ScriptFacts.
Import Py Strconv Event Action Semscript Script.

(** With no block open, [_add_command] stores whatever command it is
    given in the script, the [ENDFOR] marker included. *)
Lemma _add_command_top_level (self : ScriptParser) (command : ScriptCommand) :
  stack self = [] →
  is_nestable command = false →
  _add_command self command =
    Ok {| script := Script_add_command (script self) command; stack := [] |}.
Proof.
  intros Hs Hn. unfold _add_command. rewrite Hs. simpl. by rewrite Hn.
Qed.

(** [ENDFOR] closes the open block and is not stored in it. *)
Lemma _add_command_closes (cs : list ScriptCommand) (ev : option EventManager)
  (start step end_ : Q) (body : list LeafCommand) :
  _add_command {| script := {| commands := cs ++ [ForVarLoop start step end_ body];
                               events := ev |};
                  stack := [length cs] |} ForLoopEnd =
    Ok {| script := {| commands := cs ++ [ForVarLoop start step end_ body];
                       events := ev |};
          stack := [] |}.
Proof.
  unfold _add_command. simpl.
  rewrite list_lookup_middle by reflexivity. simpl.
  do 3 f_equal.
  rewrite list_insert_id; [reflexivity|].
  by apply list_lookup_middle.
Qed.

(** C4 (fails on the code).  Claim: a line [ENDFOR] read while no block
    is open fails the compilation, so the marker is never kept in the
    top-level command list.  Code: the line parses; [_add_command] takes
    its top-level branch and appends the marker to [script.commands]
    (also after a block that was closed properly); the failure comes
    only later, when [generate_sequence] asks the marker for actions. *)
Theorem stray_endfor_is_kept :
  _parse_script ScriptParser_init ["ENDFOR"]
    = Ok {| commands := [ForLoopEnd]; events := None |}
  ∧ _parse_script ScriptParser_init
      ["FOR,(INTERVALOMETER),1,5,3"; "ENDFOR"; "ENDFOR"]
    = Ok {| commands := [ForIterLoop 1 5 3 []; ForLoopEnd]; events := None |}
  ∧ ∀ (fuel : nat) (ev : EventManager),
      generate_sequence fuel {| commands := [ForLoopEnd]; events := Some ev |}
      = Some (Raise ValueError).
Proof. repeat split. Qed.

End ScriptFacts.

(** * Facts about [sem/sequence.py] *)
Module SequenceFacts.
Import Py Strconv Fields Action Sequence PyFacts StrconvFacts.

(** ** The constructor sorts, stably *)

Definition time_le (a b : Action) : Prop := time a <= time b.

(** The actions of [l] scheduled at [t], in the order of [l]. *)
Definition at_time (t : datetime) (l : list Action) : list Action :=
  List.filter (fun a => time a =? t) l.

Lemma insert_HdRel (x y : Action) (l : list Action) :
  time_le y x → HdRel time_le y l → HdRel time_le y (insert x l).
Proof.
  intros Hyx Hl. destruct l as [|z l]; simpl.
  - by constructor.
  - destruct (lt z x); constructor; [by inversion Hl | exact Hyx].
Qed.

Lemma insert_Sorted (x : Action) (l : list Action) :
  Sorted time_le l → Sorted time_le (insert x l).
Proof.
  induction 1 as [|y l Hl IH Hy]; simpl.
  - by repeat constructor.
  - unfold lt. destruct (Z.ltb_spec (time y) (time x)) as [Hlt|Hge].
    + constructor; [exact IH|].
      apply insert_HdRel; [unfold time_le; lia | exact Hy].
    + constructor; [by constructor|]. constructor. exact Hge.
Qed.

Lemma sorted_Sorted (l : list Action) : Sorted time_le (sorted l).
Proof.
  induction l as [|x l IH]; simpl; [constructor | by apply insert_Sorted].
Qed.

Lemma insert_Permutation (x : Action) (l : list Action) :
  insert x l ≡ₚ x :: l.
Proof.
  induction l as [|y l IH]; simpl; [reflexivity|].
  destruct (lt y x); [|reflexivity].
  rewrite IH. apply perm_swap.
Qed.

Lemma sorted_Permutation (l : list Action) : sorted l ≡ₚ l.
Proof.
  induction l as [|x l IH]; simpl; [reflexivity|].
  by rewrite insert_Permutation, IH.
Qed.

Lemma insert_at_time (t : datetime) (x : Action) (l : list Action) :
  at_time t (insert x l) = at_time t (x :: l).
Proof.
  induction l as [|y l IH]; [reflexivity|].
  cbn [insert]. unfold lt.
  destruct (Z.ltb_spec (time y) (time x)) as [Hlt|Hge]; [|reflexivity].
  unfold at_time in *. cbn [List.filter] in *. rewrite IH.
  destruct (Z.eqb_spec (time y) t), (Z.eqb_spec (time x) t); try reflexivity.
  lia.
Qed.

Lemma sorted_at_time (t : datetime) (l : list Action) :
  at_time t (sorted l) = at_time t l.
Proof.
  induction l as [|x l IH]; [reflexivity|].
  cbn [sorted]. rewrite insert_at_time.
  unfold at_time in *. cbn [List.filter]. by rewrite IH.
Qed.

(** ** What [read_csv] keeps of a document *)

(** What the loop of [read_csv] gets for a row: nothing for an empty
    row (the reader skips it), else the result of [_make_action]. *)
Definition row_result (r : row) : res (option Action) :=
  match r with
  | [] => Ok None
  | _ => _make_action (dict_of_row r)
  end.

(** The action of a row that makes one. *)
Definition row_action (r : row) : option Action :=
  match row_result r with
  | Ok (Some a) => Some a
  | _ => None
  end.

(** The rows before the first row that raises. *)
Fixpoint rows_read (rows : list row) : list row :=
  match rows with
  | [] => []
  | r :: rest => if is_ok (row_result r) then r :: rows_read rest else []
  end.

(** The exception of the first row that raises, if any. *)
Fixpoint outcome (rows : list row) : res unit :=
  match rows with
  | [] => Ok tt
  | r :: rest =>
      match row_result r with
      | Raise e => Raise e
      | Ok _ => outcome rest
      end
  end.

Lemma omap_cons_Some {A B} (f : A → option B) (x : A) (l : list A) (y : B) :
  f x = Some y → omap f (x :: l) = y :: omap f l.
Proof. intros H. simpl. by rewrite H. Qed.

Lemma omap_cons_None {A B} (f : A → option B) (x : A) (l : list A) :
  f x = None → omap f (x :: l) = omap f l.
Proof. intros H. simpl. by rewrite H. Qed.

Lemma read_rows_spec (rows : list row) (acc : list Action) :
  read_rows rows acc = (acc ++ omap row_action (rows_read rows), outcome rows).
Proof.
  revert acc. induction rows as [|r rows IH]; intros acc.
  - simpl. by rewrite app_nil_r.
  - cbn [read_rows rows_read outcome].
    destruct r as [|x r'].
    + cbn [row_result is_ok]. rewrite IH.
      by rewrite (omap_cons_None row_action []).
    + change (_make_action (dict_of_row (x :: r'))) with (row_result (x :: r')).
      destruct (row_result (x :: r')) as [[a|]|e] eqn:Hr; cbn [is_ok].
      * rewrite IH.
        rewrite (omap_cons_Some row_action _ _ a)
          by (unfold row_action; by rewrite Hr).
        by rewrite <- app_assoc.
      * rewrite IH.
        rewrite (omap_cons_None row_action)
          by (unfold row_action; by rewrite Hr).
        reflexivity.
      * by rewrite app_nil_r.
Qed.

Lemma read_csv_spec (self : Sequence) (file : list row) :
  read_csv self file
  = ({| actions := omap row_action (rows_read file) |}, outcome file).
Proof. unfold read_csv. by rewrite read_rows_spec. Qed.

Lemma rows_read_app (rows1 rows2 : list row) :
  rows_read (rows1 ++ rows2)
  = if is_ok (outcome rows1) then rows1 ++ rows_read rows2 else rows_read rows1.
Proof.
  induction rows1 as [|r rows1 IH]; [reflexivity|].
  cbn [app rows_read outcome].
  destruct (row_result r) as [o|e]; cbn [is_ok]; [|reflexivity].
  rewrite IH. by destruct (is_ok (outcome rows1)).
Qed.

Lemma outcome_app (rows1 rows2 : list row) :
  outcome (rows1 ++ rows2)
  = match outcome rows1 with Ok _ => outcome rows2 | Raise e => Raise e end.
Proof.
  induction rows1 as [|r rows1 IH]; [reflexivity|].
  cbn [app outcome]. by destruct (row_result r).
Qed.

Lemma rows_read_all (rows : list row) :
  is_ok (outcome rows) = true → rows_read rows = rows.
Proof.
  induction rows as [|r rows IH]; [reflexivity|].
  cbn [rows_read outcome]. destruct (row_result r); cbn [is_ok]; [|discriminate].
  intros H. by rewrite IH.
Qed.

(** ** Rows written by [write_csv] *)

Lemma writerow_takepic (t : datetime) (shutter aperture iso comment : value) :
  writerow (as_dict (ActionTakePic t shutter aperture iso comment))
  = [format_date t; format_time t; "PICT"; str shutter; str aperture; str iso;
     ""; str comment].
Proof.
  unfold as_dict. cbn [time].
  generalize (format_date t) (format_time t). reflexivity.
Qed.

Lemma writerow_play (t : datetime) (soundfile comment : value) :
  writerow (as_dict (ActionPlay t soundfile comment))
  = [format_date t; format_time t; "PLAY"; ""; ""; ""; str soundfile; str comment].
Proof.
  unfold as_dict. cbn [time].
  generalize (format_date t) (format_time t). reflexivity.
Qed.

(** [_make_action] on a row of eight fields. *)
Lemma _make_action_full_row (date time kind shutter aperture iso file comment : string) :
  _make_action (dict_of_row [date; time; kind; shutter; aperture; iso; file; comment])
  = if bool_decide (Some date = Some "date") then Ok None
    else t ← parse_date_time (Some date) (Some time);
         if bool_decide (Some kind = Some "PICT")
         then Ok (Some (ActionTakePic t (VStr shutter) (VStr aperture)
                          (VStr iso) (VStr comment)))
         else if bool_decide (Some kind = Some "PLAY")
         then Ok (Some (ActionPlay t (VStr file) (VStr comment)))
         else Ok None.
Proof. reflexivity. Qed.

Lemma digits_not_header (y : Z) (rest : string) :
  digits 4 y +:+ rest ≠ "date".
Proof.
  intros H. cbv [digits String.append] in H.
  apply (f_equal (fun s => match s with
                           | String c _ => digit_val c
                           | EmptyString => None
                           end)) in H.
  rewrite digit_val_digit in H by apply mod_10_digit. discriminate.
Qed.

Lemma format_date_not_header (t : datetime) :
  bool_decide (Some (format_date t) = Some "date") = false.
Proof.
  apply bool_decide_eq_false. intros H.
  assert (format_date t = "date") as H' by congruence.
  rewrite format_date_shape in H'. by apply digits_not_header in H'.
Qed.

(** The action read back from the row written for an action: the time
    is cut to the tenth of a second and every other field comes back as
    the text that was written for it. *)
Definition read_back (a : Action) : Action :=
  match a with
  | ActionTakePic t shutter aperture iso comment =>
      ActionTakePic (truncate_tenth t) (VStr (str shutter)) (VStr (str aperture))
        (VStr (str iso)) (VStr (str comment))
  | ActionPlay t soundfile comment =>
      ActionPlay (truncate_tenth t) (VStr (str soundfile)) (VStr (str comment))
  end.

Lemma row_result_written (a : Action) :
  dt_valid (time a) →
  row_result (writerow (as_dict a)) = Ok (Some (read_back a)).
Proof.
  intros Hv. destruct a as [t s ap i c | t f c]; cbn [time] in Hv.
  - rewrite writerow_takepic. cbn [row_result].
    rewrite _make_action_full_row, format_date_not_header.
    by rewrite parse_date_time_format.
  - rewrite writerow_play. cbn [row_result].
    rewrite _make_action_full_row, format_date_not_header.
    by rewrite parse_date_time_format.
Qed.

Lemma row_result_header : row_result FIELD_NAMES = Ok None.
Proof. reflexivity. Qed.

Lemma written_rows_read (l : list Action) :
  Forall (fun a => dt_valid (time a)) l →
  outcome (writerow ∘ as_dict <$> l) = Ok tt
  ∧ omap row_action (rows_read (writerow ∘ as_dict <$> l)) = read_back <$> l.
Proof.
  induction 1 as [|a l Ha Hl [IH1 IH2]]; [done|].
  cbn [fmap list_fmap outcome rows_read compose].
  rewrite (row_result_written a Ha). cbn [is_ok].
  split; [exact IH1|].
  rewrite (omap_cons_Some row_action _ _ (read_back a))
    by (unfold row_action; by rewrite (row_result_written a Ha)).
  f_equal. exact IH2.
Qed.

Lemma read_csv_write_csv (self seq : Sequence) :
  Forall (fun a => dt_valid (time a)) (actions seq) →
  read_csv self (write_csv seq) = ({| actions := read_back <$> actions seq |}, Ok tt).
Proof.
  intros Hv. rewrite read_csv_spec. unfold write_csv.
  destruct (written_rows_read _ Hv) as [H1 H2].
  cbn [rows_read outcome]. rewrite row_result_header. cbn [is_ok].
  rewrite (omap_cons_None row_action) by reflexivity.
  by rewrite H1, H2.
Qed.

(** ** C3: sortedness *)

Lemma truncate_tenth_mono (t1 t2 : datetime) :
  t1 <= t2 → truncate_tenth t1 <= truncate_tenth t2.
Proof.
  intros H. unfold truncate_tenth.
  pose proof (Z.div_le_mono t1 t2 100000 ltac:(lia) H) as Hd.
  pose proof (Z.div_mod t1 100000 ltac:(lia)).
  pose proof (Z.div_mod t2 100000 ltac:(lia)).
  lia.
Qed.

Lemma time_read_back (a : Action) : time (read_back a) = truncate_tenth (time a).
Proof. by destruct a. Qed.

Lemma read_back_Sorted (l : list Action) :
  Sorted time_le l → Sorted time_le (read_back <$> l).
Proof.
  apply Sorted_fmap. intros a b Hab. unfold time_le.
  rewrite !time_read_back. by apply truncate_tenth_mono.
Qed.

(** Two cues, the later one first in the document. *)
Definition unordered_document : list row :=
  [["2024/04/08"; "18:17:21.0"; "PLAY"; ""; ""; ""; "b.mp3"; "second"];
   ["2024/04/08"; "18:17:20.0"; "PLAY"; ""; ""; ""; "a.mp3"; "first"]].

(** C3, counterexample.  [read_csv] leaves the actions in the order of
    the rows: after reading a document whose rows are not in time order,
    [.actions] is not sorted. *)
Lemma read_csv_not_sorted :
  ¬ Sorted time_le (actions (read_csv (init []) unordered_document).1).
Proof.
  assert (actions (read_csv (init []) unordered_document).1
          = [ActionPlay 63848197041000000 (VStr "b.mp3") (VStr "second");
             ActionPlay 63848197040000000 (VStr "a.mp3") (VStr "first")]) as ->
    by (vm_compute; reflexivity).
  intros H. apply Sorted_inv in H as [_ H]. apply HdRel_inv in H.
  unfold time_le in H. simpl in H. lia.
Qed.

(** C3, amended.  The constructor sorts: [.actions] is in non-decreasing
    time order, holds the given actions and no others, and the actions of
    equal time are in their original order.  [read_csv] does not sort: it
    replaces [.actions] by the actions of the rows, in the order of the
    rows.  So a document written by [write_csv] from a constructed
    sequence is read back sorted. *)
Theorem init_sorts_read_csv_keeps_row_order (l : list Action) (self : Sequence)
  (file : list row) :
  Sorted time_le (actions (init l))
  ∧ actions (init l) ≡ₚ l
  ∧ (∀ t, at_time t (actions (init l)) = at_time t l)
  ∧ actions (read_csv self file).1 = omap row_action (rows_read file)
  ∧ (Forall (fun a => dt_valid (time a)) l →
     Sorted time_le (actions (read_csv self (write_csv (init l))).1)).
Proof.
  repeat split.
  - apply sorted_Sorted.
  - apply sorted_Permutation.
  - intros t. apply sorted_at_time.
  - by rewrite read_csv_spec.
  - intros Hv. rewrite read_csv_write_csv.
    + apply read_back_Sorted, sorted_Sorted.
    + cbn [actions init]. by rewrite sorted_Permutation.
Qed.

Definition totality_cue : Action :=
  ActionPlay 63848197041000000 (VStr "b.mp3") (VStr "second").

Definition warning_cue : Action :=
  ActionPlay 63848197040050000 (VStr "a.mp3") (VStr "first").

Lemma init_sorts_read_csv_keeps_row_order_witness :
  Sorted time_le
    (actions (read_csv (init []) (write_csv (init [totality_cue; warning_cue]))).1).
Proof.
  apply (init_sorts_read_csv_keeps_row_order [totality_cue; warning_cue] (init []) []).
  repeat constructor; discriminate.
Defined.

(** ** C5: the round trip *)

(** The round trip as the specification words it: every action comes
    back with every field equal to the original, except that the time is
    cut to the tenth of a second. *)
Definition exact_except_time (seq : Sequence) : Prop :=
  ∀ self : Sequence,
    read_csv self (write_csv seq)
    = ({| actions := (fun a => set_time a (truncate_tenth (time a))) <$> actions seq |},
       Ok tt).

(** An action all of whose fields, the time apart, are texts. *)
Definition is_text (v : value) : bool :=
  match v with
  | VStr _ => true
  | _ => false
  end.

Definition all_text (a : Action) : bool :=
  match a with
  | ActionTakePic _ shutter aperture iso comment =>
      is_text shutter && is_text aperture && is_text iso && is_text comment
  | ActionPlay _ soundfile comment => is_text soundfile && is_text comment
  end.

(** A capture as [TakePic.generate_actions] builds it: half a second,
    f/8, ISO 100, at 18:17:20.512345 UTC on 2024-04-08. *)
Definition corona_picture : Action :=
  ActionTakePic 63848197040512345 (VFloat 0.5) (VFloat 8) (VInt 100) (VStr "Corona").

(** C5, counterexample.  The shutter time, aperture and ISO of a capture
    are numbers in the sequence and come back as texts: the float [0.5]
    as ['0.5'], the [int] [100] as ['100']. *)
Lemma capture_numbers_come_back_as_text :
  read_csv (init []) (write_csv (init [corona_picture]))
  = ({| actions := [ActionTakePic 63848197040500000 (VStr "0.5") (VStr "8.0")
                      (VStr "100") (VStr "Corona")] |}, Ok tt)
  ∧ ¬ exact_except_time (init [corona_picture]).
Proof.
  assert (read_csv (init []) (write_csv (init [corona_picture]))
          = ({| actions := [ActionTakePic 63848197040500000 (VStr "0.5") (VStr "8.0")
                      (VStr "100") (VStr "Corona")] |}, Ok tt)) as Hread
    by (vm_compute; reflexivity).
  split; [exact Hread|].
  intros H. specialize (H (init [])). rewrite Hread in H.
  cbn in H. discriminate.
Qed.

Lemma truncate_tenth_spec (t : datetime) :
  truncate_tenth t <= t < truncate_tenth t + 100000
  ∧ truncate_tenth t mod 100000 = 0.
Proof.
  unfold truncate_tenth.
  pose proof (Z.mod_pos_bound t 100000 ltac:(lia)).
  split; [lia|].
  rewrite Zminus_mod_idemp_r, Z.sub_diag. reflexivity.
Qed.

Lemma read_back_all_text (a : Action) :
  all_text a = true → read_back a = set_time a (truncate_tenth (time a)).
Proof.
  destruct a as [t [] [] [] [] | t [] []]; simpl; try discriminate; reflexivity.
Qed.

(** C5, amended.  Writing a sequence (of representable times) and reading
    the rows back gives, action by action and in the same order, an
    action of the same kind whose time is the original cut down (not
    rounded) to the tenth of a second and whose other fields are the
    texts written for the original fields: a field that was a text comes
    back equal, a number comes back as its decimal text.  In particular
    an action all of whose fields are texts comes back equal, the time
    apart. *)
Theorem read_csv_write_csv_round_trip (self seq : Sequence) :
  Forall (fun a => dt_valid (time a)) (actions seq) →
  read_csv self (write_csv seq) = ({| actions := read_back <$> actions seq |}, Ok tt)
  ∧ ∀ a : Action,
      time (read_back a) = time a - time a mod 100000
      ∧ (time (read_back a) <= time a < time (read_back a) + 100000)
      ∧ time (read_back a) mod 100000 = 0
      ∧ (all_text a = true → read_back a = set_time a (time (read_back a))).
Proof.
  intros Hv. split; [by apply read_csv_write_csv|].
  intros a. rewrite time_read_back.
  destruct (truncate_tenth_spec (time a)) as [H1 H2].
  repeat split; try lia; try done.
  apply read_back_all_text.
Qed.

Lemma read_csv_write_csv_round_trip_witness :
  read_csv (init []) (write_csv (init [corona_picture; warning_cue]))
  = ({| actions := read_back <$> actions (init [corona_picture; warning_cue]) |},
     Ok tt).
Proof.
  apply (read_csv_write_csv_round_trip (init []) (init [corona_picture; warning_cue])).
  repeat constructor; discriminate.
Defined.

(** ** C6: errors while reading *)

Definition first_cue_row : row :=
  ["2024/04/08"; "18:17:20.0"; "PLAY"; ""; ""; ""; "a.mp3"; "first"].

(** The seconds lack their tenth. *)
Definition bad_time_row : row :=
  ["2024/04/08"; "18:17:21"; "PLAY"; ""; ""; ""; "b.mp3"; "second"].

Definition last_cue_row : row :=
  ["2024/04/08"; "18:17:22.0"; "PLAY"; ""; ""; ""; "c.mp3"; "third"].

Definition unknown_kind_row : row :=
  ["2024/04/08"; "18:17:21.0"; "WAIT"; ""; ""; ""; ""; "pause"].

(** C6, counterexample.  A row with a malformed timestamp is not dropped
    on its own: [parse_date_time] raises [ValueError], nothing catches
    it, and [read_csv] ends there.  The well-formed row after it is never
    read, and its action is not in [.actions]. *)
Lemma malformed_timestamp_ends_reading :
  read_csv (init []) [first_cue_row; bad_time_row; last_cue_row]
  = ({| actions := [ActionPlay 63848197040000000 (VStr "a.mp3") (VStr "first")] |},
     Raise ValueError)
  ∧ row_action last_cue_row
    = Some (ActionPlay 63848197042000000 (VStr "c.mp3") (VStr "third"))
  ∧ ActionPlay 63848197042000000 (VStr "c.mp3") (VStr "third")
    ∉ actions (read_csv (init []) [first_cue_row; bad_time_row; last_cue_row]).1.
Proof.
  assert (read_csv (init []) [first_cue_row; bad_time_row; last_cue_row]
          = ({| actions := [ActionPlay 63848197040000000 (VStr "a.mp3") (VStr "first")] |},
             Raise ValueError)) as Hread by (vm_compute; reflexivity).
  split; [exact Hread|]. split; [vm_compute; reflexivity|].
  rewrite Hread. cbn [fst actions].
  intros H%list_elem_of_singleton. discriminate.
Qed.

Lemma row_result_unknown_kind (r : row) (t : datetime) :
  r ≠ [] →
  dict_of_row r !! F_DATE ≠ Some "date" →
  parse_date_time (dict_of_row r !! F_DATE) (dict_of_row r !! F_TIME) = Ok t →
  dict_of_row r !! F_ACTION ≠ Some "PICT" →
  dict_of_row r !! F_ACTION ≠ Some "PLAY" →
  row_result r = Ok None.
Proof.
  intros Hne Hdate Hparse Hpict Hplay.
  destruct r as [|x r']; [done|]. cbn [row_result]. unfold _make_action.
  rewrite bool_decide_eq_false_2 by done. rewrite Hparse. cbn [mbind res_bind].
  by rewrite !bool_decide_eq_false_2 by done.
Qed.

Lemma row_result_bad_time (r : row) (e : exn) :
  r ≠ [] →
  dict_of_row r !! F_DATE ≠ Some "date" →
  parse_date_time (dict_of_row r !! F_DATE) (dict_of_row r !! F_TIME) = Raise e →
  row_result r = Raise e.
Proof.
  intros Hne Hdate Hparse.
  destruct r as [|x r']; [done|]. cbn [row_result]. unfold _make_action.
  rewrite bool_decide_eq_false_2 by done. by rewrite Hparse.
Qed.

Lemma read_csv_skip_row (self : Sequence) (before after : list row) (r : row) :
  row_result r = Ok None →
  read_csv self (before ++ r :: after) = read_csv self (before ++ after).
Proof.
  intros Hr. rewrite !read_csv_spec.
  rewrite !rows_read_app, !outcome_app.
  cbn [rows_read outcome]. rewrite Hr. cbn [is_ok].
  destruct (outcome before); cbn [is_ok]; [|reflexivity].
  rewrite !omap_app.
  by rewrite (omap_cons_None row_action) by (unfold row_action; by rewrite Hr).
Qed.

Lemma read_csv_stop_row (self : Sequence) (before after : list row) (r : row)
  (e : exn) :
  row_result r = Raise e →
  read_csv self (before ++ r :: after)
  = match read_csv self before with
    | (s, Ok _) => (s, Raise e)
    | (s, Raise e') => (s, Raise e')
    end.
Proof.
  intros Hr. rewrite !read_csv_spec.
  rewrite !rows_read_app, !outcome_app.
  cbn [rows_read outcome]. rewrite Hr. cbn [is_ok].
  destruct (outcome before) as [[]|e'] eqn:Ho; cbn [is_ok]; [|reflexivity].
  rewrite app_nil_r. rewrite rows_read_all by (by rewrite Ho). reflexivity.
Qed.

(** C6, amended.  A data row with a well-formed timestamp and an action
    kind that is neither [PICT] nor [PLAY] is skipped and reading goes
    on: the document reads as it would without the row.  A data row with
    a malformed timestamp ends the reading, whatever its action kind: the
    exception of [parse_date_time] leaves [read_csv], [.actions] holds
    the actions of the rows before it, and no row after it is read (the
    result does not depend on them). *)
Theorem read_csv_row_errors (self : Sequence) (before after : list row) (r : row) :
  r ≠ [] →
  dict_of_row r !! F_DATE ≠ Some "date" →
  (∀ t : datetime,
     parse_date_time (dict_of_row r !! F_DATE) (dict_of_row r !! F_TIME) = Ok t →
     dict_of_row r !! F_ACTION ≠ Some "PICT" →
     dict_of_row r !! F_ACTION ≠ Some "PLAY" →
     read_csv self (before ++ r :: after) = read_csv self (before ++ after))
  ∧ (∀ e : exn,
       parse_date_time (dict_of_row r !! F_DATE) (dict_of_row r !! F_TIME) = Raise e →
       read_csv self (before ++ r :: after)
       = match read_csv self before with
         | (s, Ok _) => (s, Raise e)
         | (s, Raise e') => (s, Raise e')
         end).
Proof.
  intros Hne Hdate. split.
  - intros t Hparse Hpict Hplay.
    apply read_csv_skip_row. by apply (row_result_unknown_kind r t).
  - intros e Hparse.
    apply read_csv_stop_row. by apply row_result_bad_time.
Qed.

Lemma read_csv_row_errors_witness :
  read_csv (init []) ([first_cue_row] ++ unknown_kind_row :: [last_cue_row])
  = read_csv (init []) ([first_cue_row] ++ [last_cue_row])
  ∧ read_csv (init []) ([first_cue_row] ++ bad_time_row :: [last_cue_row])
    = match read_csv (init []) [first_cue_row] with
      | (s, Ok _) => (s, Raise ValueError)
      | (s, Raise e') => (s, Raise e')
      end.
Proof.
  split.
  - apply (proj1 (read_csv_row_errors (init []) [first_cue_row] [last_cue_row]
                    unknown_kind_row ltac:(discriminate) ltac:(discriminate))
             63848197041000000);
      [reflexivity | discriminate | discriminate].
  - apply (proj2 (read_csv_row_errors (init []) [first_cue_row] [last_cue_row]
                    bad_time_row ltac:(discriminate) ltac:(discriminate))
             ValueError).
    reflexivity.
Defined.

End SequenceFacts.

(** * Facts about [sequencer.py] *)
Module SequencerFacts.
Import Py Action Sequencer.

Lemma total_seconds_neg (d : timedelta) :
  Qltb (total_seconds d) 0 = (d <? 0).
Proof.
  unfold Qltb, total_seconds.
  destruct (Z.ltb_spec d 0) as [H|H].
  - apply negb_true_iff, not_true_is_false. rewrite Qle_bool_iff.
    unfold Qle, Qdiv, Qmult, Qinv, inject_Z, us_per_second. simpl. lia.
  - apply negb_false_iff. rewrite Qle_bool_iff.
    unfold Qle, Qdiv, Qmult, Qinv, inject_Z, us_per_second. simpl. lia.
Qed.

Lemma total_seconds_pos (d : timedelta) :
  Qltb 0 (total_seconds d) = (0 <? d).
Proof.
  unfold Qltb, total_seconds.
  destruct (Z.ltb_spec 0 d) as [H|H].
  - apply negb_true_iff, not_true_is_false. rewrite Qle_bool_iff.
    unfold Qle, Qdiv, Qmult, Qinv, inject_Z, us_per_second. simpl. lia.
  - apply negb_false_iff. rewrite Qle_bool_iff.
    unfold Qle, Qdiv, Qmult, Qinv, inject_Z, us_per_second. simpl. lia.
Qed.

Lemma execute_from_turns (self : Sequencer) (clock : nat → datetime) (i : nat)
  (todo : list Action) :
  execute_from self clock i todo =
    concat (imap (fun k action => execute_step self (clock (i + k)%nat) action) todo).
Proof.
  revert i. induction todo as [|action rest IH]; intros i; [reflexivity|].
  simpl. rewrite Nat.add_0_r. f_equal. rewrite IH.
  f_equal. apply imap_ext. intros k x _. simpl. f_equal. f_equal. lia.
Qed.

Lemma execute_step_spec (self : Sequencer) (real_now : datetime) (action : Action) :
  execute_step self real_now action =
    let now := real_now + time_offset self in
    if time action <? now then []
    else if time action =? now then [Submit action]
    else [Sleep (total_seconds (time action - now)); Submit action].
Proof.
  unfold execute_step. cbv zeta.
  rewrite total_seconds_neg, total_seconds_pos.
  set (now := real_now + time_offset self).
  destruct (Z.ltb_spec (time action) now) as [Hlt|Hge].
  - replace (time action - now <? 0) with true; [reflexivity|].
    symmetry. apply Z.ltb_lt. lia.
  - replace (time action - now <? 0) with false
      by (symmetry; apply Z.ltb_ge; lia).
    destruct (Z.eqb_spec (time action) now) as [Heq|Hne].
    + replace (0 <? time action - now) with false; [reflexivity|].
      symmetry. apply Z.ltb_ge. lia.
    + replace (0 <? time action - now) with true; [reflexivity|].
      symmetry. apply Z.ltb_lt. lia.
Qed.

(** The actions handed to the executor, in order. *)
Definition dispatched (trace : list effect) : list Action :=
  omap (fun e => match e with Submit a => Some a | Sleep _ => None end) trace.

(** The action is not yet past when the loop, reading [real_now], gets
    to it. *)
Definition due (self : Sequencer) (real_now : datetime) (action : Action) : bool :=
  negb (time action <? real_now + time_offset self).

Lemma dispatched_step (self : Sequencer) (real_now : datetime) (action : Action) :
  dispatched (execute_step self real_now action)
  = if due self real_now action then [action] else [].
Proof.
  rewrite execute_step_spec. unfold due. cbv zeta.
  destruct (time action <? real_now + time_offset self); [reflexivity|].
  by destruct (time action =? real_now + time_offset self).
Qed.

Lemma dispatched_execute_from (self : Sequencer) (clock : nat → datetime) (i : nat)
  (todo : list Action) :
  dispatched (execute_from self clock i todo)
  = omap (fun '(k, action) => if due self (clock k) action then Some action else None)
         (imap (fun k => pair (i + k)%nat) todo).
Proof.
  revert i. induction todo as [|action rest IH]; intros i; [reflexivity|].
  cbn [execute_from imap]. unfold dispatched at 1. rewrite omap_app.
  fold (dispatched (execute_step self (clock i) action)).
  fold (dispatched (execute_from self clock (S i) rest)).
  rewrite dispatched_step, IH, Nat.add_0_r. cbn [omap list_omap].
  replace (imap ((fun k => pair (i + k)%nat) ∘ S) rest)
    with (imap (fun k => pair (S i + k)%nat) rest)
    by (apply imap_ext; intros k x _; cbn; f_equal; lia).
  by destruct (due self (clock i) action).
Qed.

(** C9.  The control loop takes the actions one by one, in list order.
    In the turn of an action whose time is earlier than the current
    (real plus offset) clock it does nothing at all: no sleep, no
    dispatch, and it goes on to the next action.  In the turn of an
    action that is due now or later it sleeps for exactly the remaining
    delay (no sleep call when the delay is zero) and then hands the
    action to the executor.  So the actions dispatched in a run are those
    that were not past in their turn, each once, in list order. *)
Theorem execute_skips_late_and_dispatches_due (self : Sequencer)
  (clock : nat → datetime) :
  execute self clock =
    concat (imap (fun i action => execute_step self (clock i) action)
                 (actions self))
  ∧ (∀ (real_now : datetime) (action : Action),
       execute_step self real_now action =
         let now := real_now + time_offset self in
         if time action <? now then []
         else if time action =? now then [Submit action]
         else [Sleep (total_seconds (time action - now)); Submit action])
  ∧ dispatched (execute self clock)
    = omap (fun '(i, action) =>
              if due self (clock i) action then Some action else None)
           (imap pair (actions self)).
Proof.
  split; [|split].
  - unfold execute. by rewrite execute_from_turns.
  - apply execute_step_spec.
  - unfold execute. by rewrite dispatched_execute_from.
Qed.

End SequencerFacts.

(** * Facts about [sem/semscript.py] *)
Module SemscriptFacts.
Import Py Strconv Event Action Semscript Float64Facts.

(** ** The variable loop *)

(** The variable loop as the specification words it: the loop variable
    advances once per full pass over the children, every child of a pass
    being generated at the same value. *)
Fixpoint var_loop_per_pass (fuel : nat) (events : EventManager)
  (step end_ : float64) (commands : list LeafCommand) (value : float64)
  : option (res (list Action)) :=
  match fuel with
  | O => None
  | S fuel' =>
      if flt value end_ then
        match mapM (var_child events value) commands with
        | Raise e => Some (Raise e)
        | Ok more =>
            match var_loop_per_pass fuel' events step end_ commands (fadd value step) with
            | None => None
            | Some (Raise e) => Some (Raise e)
            | Some (Ok actions) => Some (Ok (concat more ++ actions))
            end
        end
      else Some (Ok [])
  end.

(** With exactly one child the two loops are the same loop. *)
Lemma var_loop_single_child (fuel : nat) (events : EventManager)
  (step end_ : float64) (c : LeafCommand) (value : float64) :
  var_loop fuel events step end_ [c] value
  = var_loop_per_pass fuel events step end_ [c] value.
Proof.
  revert value. induction fuel as [|fuel IH]; intros value; [reflexivity|].
  cbn [var_loop var_loop_per_pass var_pass mapM].
  destruct (flt value end_); [|reflexivity].
  destruct (var_child events value c) as [more|e]; [|reflexivity].
  cbn [mbind res_bind]. rewrite IH.
  destruct (var_loop_per_pass fuel events step end_ [c] (fadd value step))
    as [[actions|e]|]; cbn [concat]; rewrite ?app_nil_r; reflexivity.
Qed.

(** What the code does in one pass: child number [k] of the pass is
    generated at the value the loop variable had at the start of the pass
    with the step added [k] times, and the pass leaves the variable one
    step further for every child. *)
Lemma var_pass_from (events : EventManager) (step : float64)
  (commands : list LeafCommand) (n : nat) (value : float64) :
  var_pass events step commands (Nat.iter n (fun v => fadd v step) value)
  = more ← mapM (fun '(k, c) =>
                   var_child events (Nat.iter k (fun v => fadd v step) value) c)
                (imap (fun k => pair (n + k)%nat) commands);
    Ok (concat more, Nat.iter (n + length commands) (fun v => fadd v step) value).
Proof.
  revert n. induction commands as [|c rest IH]; intros n.
  - cbn. by rewrite Nat.add_0_r.
  - cbn [var_pass imap mapM length]. rewrite Nat.add_0_r.
    destruct (var_child events _ c) as [more|e]; [|reflexivity].
    cbn [mbind res_bind].
    change (fadd (Nat.iter n (fun v => fadd v step) value) step)
      with (Nat.iter (S n) (fun v => fadd v step) value).
    rewrite IH.
    replace (imap ((fun k => pair (n + k)%nat) ∘ S) rest)
      with (imap (fun k => pair (S n + k)%nat) rest)
      by (apply imap_ext; intros k x _; cbn; f_equal; lia).
    destruct (mapM _ _) as [mores|e]; [|reflexivity].
    cbn [mbind res_bind concat].
    by replace (n + S (length rest))%nat with (S n + length rest)%nat by lia.
Qed.

Lemma var_pass_per_child (events : EventManager) (step : float64)
  (commands : list LeafCommand) (value : float64) :
  var_pass events step commands value
  = more ← mapM (fun '(k, c) =>
                   var_child events (Nat.iter k (fun v => fadd v step) value) c)
                (imap pair commands);
    Ok (concat more, Nat.iter (length commands) (fun v => fadd v step) value).
Proof. exact (var_pass_from events step commands 0 value). Qed.

(** A curve of four readings, magnitudes 0% to 3%. *)
Definition four_readings : EventManager :=
  {| events := ∅;
     pre_magnitudes := [(0%Q, 1000000); (0.01%Q, 2000000); (0.02%Q, 3000000);
                        (0.03%Q, 4000000)];
     post_magnitudes := [];
     max_magnitude := 1 |}.

Definition picture : LeafCommand :=
  TakePic "MAGPRE (VAR)" (Some 0) 0.5 8 100 "partial".

Definition cue : LeafCommand :=
  Play "MAGPRE (VAR)" (Some 0) "beep.mp3" "cue".

(** C2 (fails on the code).  Claim: for each value [start],
    [start + step], ... below [end] the loop makes one full pass over all
    children at that value, the value advancing once per pass.  Code:
    [value += self.step] sits inside the loop over the children, so the
    value advances after every child.  With two children and the loop
    0.0 : 1.0 : 3.0 the code generates four actions, at 0.0, 1.0, 2.0 and
    3.0 (the end value is not excluded, the test [value < end] being made
    once per pass), where the claim gives six, each child at 0.0, 1.0 and
    2.0.  With one child the code and the claim agree: three actions, at
    0.0, 1.0 and 2.0. *)
Theorem var_loop_advances_per_child :
  generate_actions 10 (ForVarLoop 0 1 3 [picture; cue]) four_readings
    = Some (Ok [ActionTakePic 1000000 (VFloat 0.5) (VFloat 8) (VInt 100)
                  (VStr "partial (Mag. 00.0%)");
                ActionPlay 2000000 (VStr "beep.mp3") (VStr "cue (Mag. 01.0%)");
                ActionTakePic 3000000 (VFloat 0.5) (VFloat 8) (VInt 100)
                  (VStr "partial (Mag. 02.0%)");
                ActionPlay 4000000 (VStr "beep.mp3") (VStr "cue (Mag. 03.0%)")])
  ∧ var_loop_per_pass 10 four_readings 1 3 [picture; cue] 0
    = Some (Ok [ActionTakePic 1000000 (VFloat 0.5) (VFloat 8) (VInt 100)
                  (VStr "partial (Mag. 00.0%)");
                ActionPlay 1000000 (VStr "beep.mp3") (VStr "cue (Mag. 00.0%)");
                ActionTakePic 2000000 (VFloat 0.5) (VFloat 8) (VInt 100)
                  (VStr "partial (Mag. 01.0%)");
                ActionPlay 2000000 (VStr "beep.mp3") (VStr "cue (Mag. 01.0%)");
                ActionTakePic 3000000 (VFloat 0.5) (VFloat 8) (VInt 100)
                  (VStr "partial (Mag. 02.0%)");
                ActionPlay 3000000 (VStr "beep.mp3") (VStr "cue (Mag. 02.0%)")])
  ∧ generate_actions 10 (ForVarLoop 0 1 3 [picture]) four_readings
    = Some (Ok [ActionTakePic 1000000 (VFloat 0.5) (VFloat 8) (VInt 100)
                  (VStr "partial (Mag. 00.0%)");
                ActionTakePic 2000000 (VFloat 0.5) (VFloat 8) (VInt 100)
                  (VStr "partial (Mag. 01.0%)");
                ActionTakePic 3000000 (VFloat 0.5) (VFloat 8) (VInt 100)
                  (VStr "partial (Mag. 02.0%)")]).
Proof. repeat split; vm_compute; reflexivity. Qed.

(** ** Termination of the variable loop *)

(** [a <= b]: false when either side is [nan]. *)
Definition fle (a b : float64) : bool :=
  match a, b with
  | NaN, _ | _, NaN => false
  | _, _ => negb (flt b a)
  end.

(** A float that is a number: not [inf], [-inf] or [nan]. *)
Definition is_number (a : float64) : bool :=
  match a with
  | Finite _ | NegZero => true
  | Inf _ | NaN => false
  end.

(** [v'] is above [v] by [δ] at least: it is [inf], or both are numbers
    and [v + δ <= v'] holds of their values. *)
Definition advanced (δ : Q) (v v' : float64) : Prop :=
  v' = Inf false
  ∨ (is_number v = true ∧ is_number v' = true ∧ (qval v + δ <= qval v')%Q).

(** An upper bound of the numbers below [end_]. *)
Definition ceiling_of (end_ : float64) : Q :=
  match end_ with
  | Inf false => 2 ^ 1024
  | _ => qval end_
  end.

(** A number of passes that certainly suffices, when every pass advances
    the loop variable by [δ] at least. *)
Definition passes_bound (start : float64) (δ : Q) (end_ : float64) : nat :=
  S (Z.to_nat (Qceiling ((ceiling_of end_ - qval start) / δ))).

Lemma passes_bound_enough (x δ b : Q) :
  (0 < δ)%Q →
  (b - x <= inject_Z (Z.of_nat (Z.to_nat (Qceiling ((b - x) / δ)))) * δ)%Q.
Proof.
  intros Hδ.
  set (q := ((b - x) / δ)%Q).
  assert (q <= inject_Z (Z.of_nat (Z.to_nat (Qceiling q))))%Q as Hq.
  { eapply Qle_trans; [apply Qle_ceiling|].
    rewrite <- Zle_Qle. lia. }
  assert (b - x == q * δ)%Q as ->.
  { unfold q. field. lra. }
  apply Qmult_le_compat_r; [exact Hq | lra].
Qed.

(** A number that [nearest] returns is below [2 ^ 1024]. *)
Lemma nearest_number_bound (x : Q) :
  is_number (nearest x) = true → (qval (nearest x) < 2 ^ 1024)%Q.
Proof.
  pose proof (pow2_pos 1024) as Hp.
  unfold nearest. cbv zeta.
  destruct (Qis_zero x); [intros _; exact Hp|].
  destruct (Qle_bool _ _) eqn:Hov; [discriminate|].
  apply Qle_bool_gt in Hov.
  destruct (_ =? 0); [by destruct (Qltb x 0)|].
  intros _. cbn [qval]. eapply Qle_lt_trans; [apply Qle_Qabs|exact Hov].
Qed.

Lemma fadd_number_bound (a b : float64) :
  is_number (fadd a b) = true → (qval (fadd a b) < 2 ^ 1024)%Q.
Proof.
  pose proof (pow2_pos 1024) as Hp.
  destruct a as [x| |s|], b as [y| |s'|]; cbn [fadd qval];
    try discriminate; try (intros _; exact Hp);
    try (destruct (Qis_zero _); [intros _; exact Hp|apply nearest_number_bound]).
  by destruct (Bool.eqb s s').
Qed.

(** Order facts on floats. *)
Lemma fle_not_flt (a b : float64) : fle a b = true → flt b a = false.
Proof.
  destruct a as [x| |s|], b as [y| |s'|]; cbn [fle];
    try discriminate; by intros ?%negb_true_iff.
Qed.

Lemma flt_or_fle (v end_ start : float64) :
  flt start end_ = true ∨ fle end_ start = true →
  is_number v = true ∨ v = Inf false →
  flt v end_ = true ∨ fle end_ v = true.
Proof.
  intros Hend Hv.
  assert (end_ ≠ NaN) as Hn.
  { intros ->. destruct Hend as [H|H]; by destruct start. }
  destruct Hv as [Hv| ->].
  - destruct v as [x| |s|]; try discriminate; destruct end_ as [y| |s'|]; try done;
      cbn [fle]; match goal with |- context [negb ?b] => destruct b end; auto.
  - destruct end_ as [y| |s'|]; try done; cbn [fle flt]; auto.
Qed.

Lemma fle_advanced (start v v' : float64) (δ : Q) :
  (0 < δ)%Q →
  fle start v = true → is_number v = true → is_number v' = true →
  (qval v + δ <= qval v')%Q → fle start v' = true.
Proof.
  intros Hδ Hs Hv Hv' Hle.
  destruct start as [x| |s|]; try discriminate;
    destruct v as [y| | |]; try discriminate;
    destruct v' as [z| | |]; try discriminate;
    cbn [fle flt qval] in *; try exact Hs;
    apply negb_true_iff, Qltb_false; apply negb_true_iff, Qltb_false in Hs; lra.
Qed.

Section termination.
Variable events : EventManager.
Variables start step end_ : float64.
Variable δ : Q.
Hypothesis δ_pos : (0 < δ)%Q.

(** Below [end_] an addition of the step advances the value by [δ] at
    least. *)
Hypothesis below : ∀ v : float64,
  fle start v = true → flt v end_ = true → advanced δ v (fadd v step).

(** At or above [end_] an addition of the step does not take the value
    back below [end_]. *)
Hypothesis above : ∀ v : float64,
  fle end_ v = true → fle end_ (fadd v step) = true.

(** The states of the variable inside a pass that began at [v0]. *)
Definition inside (v0 v : float64) : Prop :=
  fle end_ v = true
  ∨ (fle start v = true ∧ is_number v = true
     ∧ (qval v0 + δ <= qval v)%Q ∧ (qval v < 2 ^ 1024)%Q).

Lemma inside_step (v0 v : float64) :
  flt v0 end_ = true → inside v0 v → inside v0 (fadd v step).
Proof.
  intros H0 [Hv|(Hs & Hn & Hle & _)]; [left; by apply above|].
  destruct (flt_or_fle v end_ v0 (or_introl H0) (or_introl Hn)) as [Hlt|Hge];
    [|left; by apply above].
  destruct (below v Hs Hlt) as [->|(_ & Hn' & Hle')].
  - left. destruct end_ as [y| |[]|]; try done. by destruct v0.
  - right. split; [by apply (fle_advanced start v _ δ)|]. split; [exact Hn'|].
    split; [lra|by apply fadd_number_bound].
Qed.

Lemma var_pass_inside (commands : list LeafCommand) (v0 v : float64)
  (actions : list Action) (v' : float64) :
  flt v0 end_ = true → inside v0 v →
  var_pass events step commands v = Ok (actions, v') → inside v0 v'.
Proof.
  intros H0. revert v actions.
  induction commands as [|c rest IH]; intros v actions Hv H.
  - injection H as _ <-. exact Hv.
  - cbn [var_pass] in H.
    destruct (var_child events v c) as [more|e]; [|discriminate].
    cbn [mbind res_bind] in H.
    destruct (var_pass events step rest (fadd v step)) as [[acts v'']|e] eqn:Hp;
      [|discriminate].
    injection H as _ <-. eapply IH; [|exact Hp]. by apply inside_step.
Qed.

(** A pass over at least one child that began below [end_] leaves the
    variable at or above [end_], or [δ] further on. *)
Lemma var_pass_advances (commands : list LeafCommand) (v : float64)
  (actions : list Action) (v' : float64) :
  commands ≠ [] → fle start v = true → flt v end_ = true →
  var_pass events step commands v = Ok (actions, v') → inside v v'.
Proof.
  intros Hne Hs Hlt H. destruct commands as [|c rest]; [done|].
  cbn [var_pass] in H.
  destruct (var_child events v c) as [more|e]; [|discriminate].
  cbn [mbind res_bind] in H.
  destruct (var_pass events step rest (fadd v step)) as [[acts v'']|e] eqn:Hp;
    [|discriminate].
  injection H as _ <-. eapply var_pass_inside; [exact Hlt| |exact Hp].
  destruct (below v Hs Hlt) as [->|(Hn & Hn' & Hle')].
  - left. destruct end_ as [y| |[]|]; try done. by destruct v.
  - right. split; [by apply (fle_advanced start v _ δ)|]. split; [exact Hn'|].
    split; [exact Hle'|by apply fadd_number_bound].
Qed.

Lemma flt_ceiling (v : float64) :
  is_number v = true → (qval v < 2 ^ 1024)%Q → flt v end_ = true →
  (qval v < ceiling_of end_)%Q.
Proof.
  intros Hn Hb Hlt.
  destruct v as [x| | |]; try discriminate;
    destruct end_ as [y| |[]|]; try discriminate; cbn [flt qval ceiling_of] in *;
    try exact Hb; by apply Qltb_true in Hlt.
Qed.

Lemma var_loop_measure (commands : list LeafCommand) :
  commands ≠ [] →
  ∀ (n : nat) (v : float64) (fuel : nat),
    fle start v = true →
    (ceiling_of end_ - qval v <= inject_Z (Z.of_nat n) * δ)%Q →
    (S n < fuel)%nat →
    is_Some (var_loop fuel events step end_ commands v).
Proof.
  intros Hne n.
  induction n as [|n IH]; intros v fuel Hs Hm Hfuel;
    (destruct fuel as [|fuel]; [lia|]); cbn [var_loop];
    (destruct (flt v end_) eqn:Hlt; [|eauto]);
    (destruct (var_pass events step commands v) as [[more v']|e] eqn:Hp; [|eauto]);
    pose proof (var_pass_advances commands v more v' Hne Hs Hlt Hp) as Hin;
    (destruct fuel as [|fuel]; [lia|]).
  - assert (flt v' end_ = false) as Hge.
    { destruct Hin as [Hge|(Hs' & Hn' & Hle & Hb)]; [by apply fle_not_flt|].
      destruct (flt v' end_) eqn:Hlt'; [|reflexivity].
      pose proof (flt_ceiling v' Hn' Hb Hlt') as Hc.
      change (inject_Z (Z.of_nat 0)) with 0%Q in Hm. lra. }
    cbn [var_loop]. rewrite Hge. rewrite app_nil_r. eauto.
  - destruct Hin as [Hge|(Hs' & Hn' & Hle & Hb)].
    + cbn [var_loop]. rewrite (fle_not_flt _ _ Hge). eauto.
    + destruct (IH v' (S fuel) Hs') as [r Hr]; [|lia|].
      * rewrite Nat2Z.inj_succ, <- Z.add_1_r, inject_Z_plus in Hm.
        change (inject_Z 1) with 1%Q in Hm. lra.
      * rewrite Hr. destruct r; eauto.
Qed.

End termination.

Lemma flt_irrefl (a : float64) : flt a a = false.
Proof.
  destruct a as [x| |s|]; cbn [flt qval]; try reflexivity.
  - apply Qltb_false, Qle_refl.
  - by destruct s.
Qed.


(** The sum of a number that is not negative and a positive step. *)
Lemma fadd_pos (x d : Q) :
  (0 <= x)%Q → (0 < d)%Q →
  fadd x d = Inf false
  ∨ ∃ y, fadd x d = Finite y ∧ (x + d - half_ulp (x + d) <= y)%Q.
Proof.
  intros Hx Hd. cbn [fadd qval].
  replace (Qis_zero (x + d)) with false
    by (symmetry; apply Qis_zero_neq; lra).
  destruct (nearest_pos (x + d)) as [->|(y & -> & _ & _ & Hy & _)];
    [lra|by left|right; eauto].
Qed.

Lemma half_ulp_below (x : Q) :
  (0 <= x)%Q → (half_ulp x <= (x + 1) * (1 # 1024))%Q.
Proof.
  intros Hx. unfold half_ulp. rewrite Qabs_pos by exact Hx.
  assert (2 ^ (-53) <= 1 # 1024)%Q as H1 by (apply Qle_bool_iff; by vm_compute).
  assert (2 ^ (-1075) <= 1 # 1024)%Q as H2 by (apply Qle_bool_iff; by vm_compute).
  assert (x * 2 ^ (-53) <= x * (1 # 1024))%Q as H3.
  { rewrite !(Qmult_comm x). by apply Qmult_le_compat_r. }
  lra.
Qed.


(** Without children the loop never advances its variable. *)
Lemma var_loop_no_children_runs_forever (events : EventManager)
  (step end_ value : float64) (fuel : nat) :
  flt value end_ = true →
  var_loop fuel events step end_ [] value = None.
Proof.
  intros H. induction fuel as [|fuel IH]; [reflexivity|].
  cbn [var_loop var_pass]. by rewrite H, IH.
Qed.

(** The step [1e-17] and the end [1.0000000000000002], the float next
    above [1.0]. *)
Definition absorbed_step : float64 := nearest (1 # 100000000000000000).
Definition next_above_one : float64 := nearest 1.0000000000000002.


(** ** The intervalometer loop *)

Definition comment_of (c : LeafCommand) : string :=
  match c with
  | Play _ _ _ comment => comment
  | TakePic _ _ _ _ _ comment => comment
  end.

(** A leaf command that generates, generates exactly one action, which
    carries the command's comment. *)
Lemma leaf_generate_actions_one (c : LeafCommand) (events : EventManager)
  (override_event : option string) (l : list Action) :
  leaf_generate_actions c events override_event = Ok l →
  ∃ a, l = [a] ∧ Action.comment a = VStr (comment_of c).
Proof.
  unfold leaf_generate_actions. intros H.
  destruct (get_time events _) as [[t|]|e]; simpl in H;
    destruct c as [ev [off|] file cm | ev [off|] sh ap iso cm];
    simplify_eq; eauto.
Qed.

(** The accumulated offset when iteration [i] (counted from 0) starts:
    [0.0], then one [delay] added (or, for kind 0, subtracted) after
    every iteration, each time rounded as floats are. *)
Definition iter_offset (kind : Z) (delay : float64) (i : nat) : float64 :=
  Nat.iter i (fun value => if kind =? 0 then fsub value delay
                           else fadd value delay) 0%Q.

(** The offset as a duration: [int(value * 100)] centiseconds.  The
    result is an exception when the offset is not a number or the
    duration is too long for a [timedelta]. *)
Definition iter_shift (kind : Z) (delay : float64) (i : nat) : res timedelta :=
  n ← int_of_float (fmul (iter_offset kind delay i) 100);
  timedelta_microseconds (n * 10000).

(** The note of iteration [i] (counted from 0): its 1-based number. *)
Definition iter_note (i : nat) : string :=
  " (iter. " +:+ fmt_0d 3 (Z.of_nat i + 1) +:+ ")".

(** The action of child [c] in iteration [i], from the action [a] the
    child generates on its own: [a] with its time shifted and the note
    appended to its comment.  The result is an exception when the shift
    is one, or when the shifted time is not in the years 1 to 9999. *)
Definition iter_action (kind : Z) (delay : float64) (i : nat) (c : LeafCommand)
  (a : Action) : res Action :=
  var ← iter_shift kind delay i;
  t ← datetime_add (time a) var;
  Ok (set_comment (set_time a t) (VStr (comment_of c +:+ iter_note i))).

Lemma iter_child_spec (events : EventManager) (kind : Z) (delay : float64)
  (i : nat) (c : LeafCommand) (a : Action) :
  leaf_generate_actions c events None = Ok [a] →
  iter_child events (Z.of_nat i) (iter_offset kind delay i) c
  = (fun x => [x]) <$> iter_action kind delay i c a.
Proof.
  intros H. unfold iter_child, iter_action, iter_shift.
  destruct (int_of_float _) as [n|e]; [|reflexivity]. cbn [mbind res_bind].
  destruct (timedelta_microseconds _) as [var|e]; [|reflexivity].
  cbn [mbind res_bind]. rewrite H. cbn [mbind res_bind mapM].
  apply leaf_generate_actions_one in H as (a' & [= <-] & Hc).
  destruct (datetime_add (time a) var) as [t|e]; [|reflexivity].
  cbn [mbind res_bind]. unfold add_comment.
  replace (Action.comment (set_time a t)) with (VStr (comment_of c))
    by (by destruct a).
  reflexivity.
Qed.

Lemma mapM_iter_child (events : EventManager) (kind : Z) (delay : float64)
  (i : nat) (base : LeafCommand → Action) (commands : list LeafCommand) :
  (∀ c, c ∈ commands → leaf_generate_actions c events None = Ok [base c]) →
  @concat Action <$> mapM (iter_child events (Z.of_nat i) (iter_offset kind delay i)) commands
  = mapM (fun c => iter_action kind delay i c (base c)) commands.
Proof.
  induction commands as [|c rest IH]; intros H; [reflexivity|].
  cbn [mapM]. rewrite (iter_child_spec _ _ _ _ _ (base c)) by (apply H; left).
  destruct (iter_action kind delay i c (base c)) as [a|e]; [|reflexivity].
  cbn [fmap res_fmap mbind res_bind].
  rewrite <- IH by (intros c' Hc'; apply H; by right).
  by destruct (mapM _ rest).
Qed.

Lemma iter_loop_spec (events : EventManager) (kind : Z) (delay : float64)
  (base : LeafCommand → Action) (commands : list LeafCommand) :
  (∀ c, c ∈ commands → leaf_generate_actions c events None = Ok [base c]) →
  ∀ (n i : nat),
    iter_loop n events kind delay commands (Z.of_nat i) (iter_offset kind delay i)
    = @concat Action <$> mapM (fun k => mapM (fun c => iter_action kind delay k c (base c))
                                     commands)
                      (seq i n).
Proof.
  intros H n. induction n as [|n IH]; intros i; [reflexivity|].
  cbn [iter_loop seq mapM].
  rewrite <- (mapM_iter_child events kind delay i base commands H).
  destruct (mapM (iter_child _ _ _) commands) as [more|e]; [|reflexivity].
  cbn [fmap res_fmap mbind res_bind].
  replace (Z.of_nat i + 1) with (Z.of_nat (S i)) by lia.
  change (if kind =? 0 then fsub (iter_offset kind delay i) delay
          else fadd (iter_offset kind delay i) delay)
    with (iter_offset kind delay (S i)).
  rewrite IH. by destruct (mapM _ (seq (S i) n)).
Qed.


(** Contact time C2 at 18:17:20.5 UTC on 2024-04-08. *)
Definition contact_table : EventManager :=
  {| events := <["C2" := 63848197040500000]> ∅;
     pre_magnitudes := [];
     post_magnitudes := [];
     max_magnitude := 1 |}.

Definition burst : LeafCommand :=
  TakePic "C2" (Some 1000000) 0.002 8 100 "Corona".


(** The shifts of the first three iterations of a loop of five
    seconds: the sums [0.0 + 5.0] and [5.0 + 5.0] are exact. *)
Lemma iter_shift_5s :
  iter_shift 1 5 0 = Ok 0
  ∧ iter_shift 1 5 1 = Ok (5 * us_per_second)
  ∧ iter_shift 1 5 2 = Ok (10 * us_per_second).
Proof. repeat split; by vm_compute. Qed.

(** The example of the specification, for any child and the action [a]
    it generates on its own, if ten seconds after the time of [a] is
    still a time that [datetime] can hold: forward, five seconds, three
    iterations give [a] at its own time, five seconds later and ten
    seconds later, with the notes 001, 002 and 003. *)
Lemma iter_loop_forward_5s_3 (events : EventManager) (c : LeafCommand)
  (a : Action) (fuel : nat) :
  leaf_generate_actions c events None = Ok [a] →
  dt_valid (time a) → dt_valid (time a + 10 * us_per_second) →
  generate_actions fuel (ForIterLoop 1 5 3 [c]) events
  = Some (Ok [set_comment a (VStr (comment_of c +:+ " (iter. 001)"));
              set_comment (set_time a (time a + 5 * us_per_second))
                (VStr (comment_of c +:+ " (iter. 002)"));
              set_comment (set_time a (time a + 10 * us_per_second))
                (VStr (comment_of c +:+ " (iter. 003)"))]).
Proof.
  intros H [Ha0 Ha1] [Hb0 Hb1].
  assert (∀ c', c' ∈ [c] → leaf_generate_actions c' events None = Ok [a])
    as Hbase by (intros c' ->%list_elem_of_singleton; exact H).
  pose proof (iter_loop_spec events 1 5 (fun _ => a) [c] Hbase 3 0) as Hs.
  unfold generate_actions. change (Z.to_nat 3) with 3%nat.
  change (iter_loop 3 events 1 5 [c] 0 0%Q)
    with (iter_loop 3 events 1 5 [c] (Z.of_nat 0) (iter_offset 1 5 0)).
  rewrite Hs. cbn [seq mapM]. unfold iter_action.
  destruct iter_shift_5s as (-> & -> & ->). cbn [mbind res_bind].
  assert (∀ d, 0 <= d <= 10 * us_per_second →
               datetime_add (time a) d = Ok (time a + d)) as Hadd.
  { intros d Hd. unfold datetime_add. cbv zeta.
    replace ((0 <=? time a + d) && (time a + d <? max_ordinal * us_per_day))
      with true; [reflexivity|].
    symmetry. apply andb_true_iff. split; [apply Z.leb_le|apply Z.ltb_lt]; lia. }
  rewrite !Hadd by (unfold us_per_second; lia).
  cbn [mbind res_bind fmap res_fmap concat app].
  change (iter_note 0) with " (iter. 001)".
  change (iter_note 1) with " (iter. 002)".
  change (iter_note 2) with " (iter. 003)".
  rewrite Z.add_0_r. by destruct a.
Qed.

(** The running sum is a sum of floats: ten times [0.1] is accumulated
    as [0.0], [0.1], [0.2], [0.30000000000000004], ..., and the tenth
    iteration (the ninth sum, [0.8999999999999999]) is shifted by 0.89
    seconds, the ninth (the eighth sum, [0.7999999999999999], whose
    hundredfold rounds to [80.0]) by 0.80 seconds. *)
Lemma iter_shift_tenths :
  iter_offset 1 (nearest 0.1) 3 = nearest 0.30000000000000004
  ∧ iter_offset 1 (nearest 0.1) 9 = nearest 0.8999999999999999
  ∧ iter_shift 1 (nearest 0.1) 8 = Ok 800000
  ∧ iter_shift 1 (nearest 0.1) 9 = Ok 890000
  ∧ iter_shift 0 (nearest 0.1) 9 = Ok (-890000).
Proof. repeat split; by vm_compute. Qed.

End SemscriptFacts.

(** * More about [sem/sequence.py] *)
Module SequenceMore.
Import Py Strconv Fields Action Sequence PyFacts StrconvFacts SequenceFacts.

(** ** Sorted input *)

Lemma sorted_of_Sorted (l : list Action) : Sorted time_le l → sorted l = l.
Proof.
  induction 1 as [|x l Hl IH Hx]; [reflexivity|].
  cbn [sorted]. rewrite IH.
  destruct Hx as [|y l' Hxy]; [reflexivity|].
  cbn [insert]. unfold lt.
  by rewrite (proj2 (Z.ltb_ge (time y) (time x)) Hxy).
Qed.

(** X1.  The constructor leaves a list that is already in time order
    exactly as it is, so constructing a sequence from the actions of a
    constructed sequence changes nothing. *)
Theorem init_keeps_sorted_input (l : list Action) :
  (Sorted time_le l → actions (init l) = l)
  ∧ init (actions (init l)) = init l.
Proof.
  split.
  - apply sorted_of_Sorted.
  - unfold init. cbn [actions]. f_equal. apply sorted_of_Sorted, sorted_Sorted.
Qed.

Lemma init_keeps_sorted_input_witness :
  actions (init [warning_cue; totality_cue]) = [warning_cue; totality_cue].
Proof.
  apply (proj1 (init_keeps_sorted_input [warning_cue; totality_cue])).
  repeat constructor. unfold time_le. cbn. lia.
Defined.

(** ** Documents put together *)

(** X2.  Reading is compositional: if a document reads without an
    exception, then that document followed by a second one reads as the
    actions of the first followed by the actions of the second, with the
    outcome of the second.  A header row is skipped wherever it stands,
    so two written documents put end to end read as the two sequences
    put end to end. *)
Theorem read_csv_of_joined_documents (self : Sequence) (file1 file2 : list row) :
  (read_csv self file1).2 = Ok tt →
  read_csv self (file1 ++ file2)
  = ({| actions := actions (read_csv self file1).1
                   ++ actions (read_csv self file2).1 |},
     (read_csv self file2).2).
Proof.
  rewrite !read_csv_spec. cbn [fst snd actions]. intros H1.
  rewrite rows_read_app, outcome_app, H1. cbn [is_ok].
  rewrite omap_app. by rewrite (rows_read_all file1) by (by rewrite H1).
Qed.

Lemma read_csv_of_joined_documents_witness :
  read_csv (init []) (write_csv (init [warning_cue]) ++ write_csv (init [totality_cue]))
  = ({| actions := actions (read_csv (init []) (write_csv (init [warning_cue]))).1
                   ++ actions (read_csv (init []) (write_csv (init [totality_cue]))).1 |},
     (read_csv (init []) (write_csv (init [totality_cue]))).2).
Proof.
  apply (read_csv_of_joined_documents (init []) (write_csv (init [warning_cue]))
           (write_csv (init [totality_cue]))).
  vm_compute. reflexivity.
Defined.

(** ** A second round trip *)

Lemma truncate_tenth_idem (t : datetime) :
  truncate_tenth (truncate_tenth t) = truncate_tenth t.
Proof.
  destruct (truncate_tenth_spec t) as [_ H].
  unfold truncate_tenth at 1. rewrite H. lia.
Qed.

Lemma truncate_tenth_valid (t : datetime) :
  dt_valid t → dt_valid (truncate_tenth t).
Proof.
  unfold dt_valid. intros Hv.
  destruct (truncate_tenth_spec t) as [H _].
  assert (0 <= truncate_tenth t); [|lia].
  unfold truncate_tenth.
  pose proof (Z.mod_le t 100000 ltac:(lia) ltac:(lia)). lia.
Qed.

Lemma read_back_idem (a : Action) : read_back (read_back a) = read_back a.
Proof. destruct a; cbn [read_back str]; by rewrite truncate_tenth_idem. Qed.

(** X3.  The loss of a round trip happens once: the sequence read back
    from a written document is reproduced exactly, times and all fields,
    by writing it and reading it again. *)
Theorem second_round_trip_is_exact (self seq : Sequence) :
  Forall (fun a => dt_valid (time a)) (actions seq) →
  let seq' := (read_csv self (write_csv seq)).1 in
  read_csv self (write_csv seq') = (seq', Ok tt).
Proof.
  intros Hv. cbv zeta. rewrite (read_csv_write_csv self seq Hv). cbn [fst].
  rewrite read_csv_write_csv.
  - cbn [actions]. do 2 f_equal.
    rewrite <- list_fmap_compose. apply list_fmap_ext.
    intros i a _. apply read_back_idem.
  - cbn [actions]. apply Forall_fmap. eapply Forall_impl; [exact Hv|].
    intros a Ha. cbn. rewrite time_read_back. by apply truncate_tenth_valid.
Qed.

Lemma second_round_trip_is_exact_witness :
  read_csv (init [])
    (write_csv (read_csv (init []) (write_csv (init [corona_picture; warning_cue]))).1)
  = ((read_csv (init []) (write_csv (init [corona_picture; warning_cue]))).1, Ok tt).
Proof.
  apply (second_round_trip_is_exact (init []) (init [corona_picture; warning_cue])).
  repeat constructor; discriminate.
Defined.

(** ** Short rows *)

Lemma _make_action_no_kind (d : csv_row) (a : Action) :
  d !! F_ACTION = None → _make_action d ≠ Ok (Some a).
Proof.
  intros Hk. unfold _make_action.
  destruct (bool_decide (d !! F_DATE = Some "date")); [discriminate|].
  destruct (parse_date_time _ _) as [t|e]; [|discriminate].
  cbn [mbind res_bind]. rewrite Hk.
  rewrite !bool_decide_eq_false_2 by discriminate. discriminate.
Qed.

(** The date text is three whole numbers: the parts between its slashes
    are three, and [int] reads each of them. *)
Definition three_numbers (d : string) : bool :=
  match mapM (fun x => of_option ValueError (int x)) (split "/" d) with
  | Ok [_; _; _] => true
  | _ => false
  end.

(** X4.  A row with fewer than three fields never makes an action: its
    action kind is missing.  A row of one field is worse than skipped,
    unless the field is the header word: if the field is not three whole
    numbers between slashes the date does not parse and the row raises
    [ValueError]; if it is, then, the time being absent, the call of
    [split] on [None] raises [AttributeError], which [parse_date_time]
    does not turn into [ValueError]. *)
Theorem short_row_makes_no_action (r : row) :
  (length r < 3)%nat →
  row_action r = None
  ∧ ∀ d : string, r = [d] →
      row_result r
      = if decide (d = "date") then Ok None
        else if three_numbers d then Raise AttributeError
        else Raise ValueError.
Proof.
  intros Hlen. split.
  - unfold row_action.
    destruct (row_result r) as [[a|]|e] eqn:Hr; try reflexivity. exfalso.
    destruct r as [|d [|t [|k r']]]; cbn [length] in Hlen; try lia;
      cbn [row_result] in Hr; try discriminate;
      by apply _make_action_no_kind in Hr.
  - intros d ->. cbn [row_result]. unfold _make_action.
    change (dict_of_row [d] !! F_DATE) with (Some d).
    change (dict_of_row [d] !! F_TIME) with (@None string).
    destruct (decide (d = "date")) as [->|Hne]; [reflexivity|].
    rewrite bool_decide_eq_false_2 by congruence.
    unfold parse_date_time, three_numbers. cbn [of_option mbind res_bind].
    destruct (mapM _ (split "/" d)) as [ymd|e] eqn:Hm.
    + by destruct ymd as [|y [|m [|dd [|]]]].
    + cbn [mbind res_bind]. do 2 f_equal.
      clear -Hm. revert e Hm. generalize (split "/" d). intros l.
      induction l as [|x l IH]; intros e Hm; [discriminate|].
      cbn [mapM] in Hm. destruct (int x); cbn in Hm; [|congruence].
      destruct (mapM _ l) as [ys|e']; cbn in Hm; [discriminate|].
      injection Hm as <-. by apply IH.
Qed.

Lemma short_row_makes_no_action_witness :
  (row_action ["2024/04/08"] = None
   ∧ row_result ["2024/04/08"] = Raise AttributeError)
  ∧ (row_action ["2024-04-08"] = None
     ∧ row_result ["2024-04-08"] = Raise ValueError)
  ∧ row_result ["date"] = Ok None.
Proof.
  split; [|split].
  - destruct (short_row_makes_no_action ["2024/04/08"]) as [H1 H2]; [cbn; lia|].
    split; [exact H1|exact (H2 _ eq_refl)].
  - destruct (short_row_makes_no_action ["2024-04-08"]) as [H1 H2]; [cbn; lia|].
    split; [exact H1|exact (H2 _ eq_refl)].
  - exact (proj2 (short_row_makes_no_action ["date"] ltac:(cbn; lia)) _ eq_refl).
Defined.

End SequenceMore.

(** * More about [sequencer.py] *)
Module SequencerMore.
Import Py Action Sequencer SequencerFacts.

Lemma dispatched_app (t1 t2 : list effect) :
  dispatched (t1 ++ t2) = dispatched t1 ++ dispatched t2.
Proof. unfold dispatched. apply omap_app. Qed.

Lemma dispatched_sublist (self : Sequencer) (clock : nat → datetime) (i : nat)
  (todo : list Action) :
  dispatched (execute_from self clock i todo) `sublist_of` todo.
Proof.
  revert i. induction todo as [|action rest IH]; intros i; [constructor|].
  cbn [execute_from]. rewrite dispatched_app, dispatched_step.
  destruct (due self (clock i) action); cbn [app].
  - apply sublist_skip, IH.
  - apply sublist_cons, IH.
Qed.

Lemma Qltb_lt (x y : Q) : Qltb x y = true → (x < y)%Q.
Proof.
  unfold Qltb. intros H. apply Qnot_le_lt. intros Hle.
  apply Qle_bool_iff in Hle. rewrite Hle in H. discriminate.
Qed.

Lemma sleep_positive (self : Sequencer) (clock : nat → datetime) (i : nat)
  (todo : list Action) (s : Q) :
  Sleep s ∈ execute_from self clock i todo → (0 < s)%Q.
Proof.
  revert i. induction todo as [|action rest IH]; intros i; cbn [execute_from].
  - by intros ?%elem_of_nil.
  - rewrite elem_of_app. intros [H|H]; [|by eapply IH].
    unfold execute_step in H.
    destruct (Qltb _ 0); [by apply elem_of_nil in H|].
    destruct (Qltb 0 _) eqn:Hpos; cbn [app] in H.
    + apply elem_of_cons in H as [[= ->]|H]; [by apply Qltb_lt|].
      by apply list_elem_of_singleton in H.
    + by apply list_elem_of_singleton in H.
Qed.

(** X5.  Whatever the clock reads, the control loop hands over only
    actions of its list, each at most once and in list order (the
    dispatched actions are a sub-list of the list), and it never sleeps
    for zero or a negative time. *)
Theorem execute_dispatches_sublist (self : Sequencer) (clock : nat → datetime) :
  dispatched (execute self clock) `sublist_of` actions self
  ∧ ∀ s : Q, Sleep s ∈ execute self clock → (0 < s)%Q.
Proof.
  split.
  - apply dispatched_sublist.
  - intros s. apply sleep_positive.
Qed.

Lemma sublist_StronglySorted {A} (R : A → A → Prop) (l1 l2 : list A) :
  l1 `sublist_of` l2 → StronglySorted R l2 → StronglySorted R l1.
Proof.
  induction 1 as [|x l1 l2 Hsub IH|x l1 l2 Hsub IH];
    rewrite ?StronglySorted_cons; [done| |intros [_ Hs]; by apply IH].
  intros [Hall Hs]. split; [|by apply IH].
  apply Forall_forall. intros y Hy. rewrite Forall_forall in Hall.
  apply Hall. by eapply elem_of_sublist.
Qed.

(** The kind of the action is switched on. *)
Definition enabled (no_sound no_camera : bool) (action : Action) : bool :=
  match action with
  | ActionTakePic _ _ _ _ _ => negb no_camera
  | ActionPlay _ _ _ => negb no_sound
  end.

Lemma _collect_actions_sublist (no_sound no_camera : bool) (sequence : list Action) :
  _collect_actions no_sound no_camera sequence `sublist_of` sequence.
Proof.
  unfold _collect_actions.
  induction sequence as [|a l IH]; [constructor|]. cbn [List.filter].
  destruct (match a with ActionTakePic _ _ _ _ _ => _ | ActionPlay _ _ _ => _ end).
  - by apply sublist_skip.
  - by apply sublist_cons.
Qed.

Lemma _collect_actions_elem (no_sound no_camera : bool) (sequence : list Action)
  (a : Action) :
  a ∈ _collect_actions no_sound no_camera sequence
  ↔ a ∈ sequence ∧ enabled no_sound no_camera a = true.
Proof.
  unfold _collect_actions. rewrite !list_elem_of_In, filter_In.
  by destruct a.
Qed.

(** X6.  The filter of the sequencer keeps the actions whose kind is
    switched on, in their order, and nothing else: with [no_camera] no
    picture and with [no_sound] no sound is ever handed to the executor,
    with neither the list is the sequence itself, and a sequence in time
    order stays in time order. *)
Theorem _collect_actions_filters_kinds (no_sound no_camera : bool)
  (sequence : list Action) (offset : timedelta) (clock : nat → datetime) :
  let self := {| no_sound := no_sound; no_camera := no_camera;
                 actions := _collect_actions no_sound no_camera sequence;
                 time_offset := offset |} in
  (∀ a, a ∈ actions self ↔ a ∈ sequence ∧ enabled no_sound no_camera a = true)
  ∧ actions self `sublist_of` sequence
  ∧ (no_sound = false → no_camera = false → actions self = sequence)
  ∧ (Sorted SequenceFacts.time_le sequence → Sorted SequenceFacts.time_le (actions self))
  ∧ ∀ a, a ∈ dispatched (execute self clock) →
         a ∈ sequence ∧ enabled no_sound no_camera a = true.
Proof.
  cbv zeta. cbn [actions]. split; [|split; [|split; [|split]]].
  - apply _collect_actions_elem.
  - apply _collect_actions_sublist.
  - intros -> ->. unfold _collect_actions.
    induction sequence as [|a l IH]; [reflexivity|].
    cbn [List.filter]. destruct a; cbn [negb]; f_equal; apply IH.
  - intros Hs.
    assert (Transitive SequenceFacts.time_le)
      by (intros x y z; unfold SequenceFacts.time_le; lia).
    apply StronglySorted_Sorted.
    eapply sublist_StronglySorted; [apply _collect_actions_sublist|].
    by apply Sorted_StronglySorted.
  - intros a Ha. apply _collect_actions_elem.
    eapply elem_of_sublist; [exact Ha|].
    unfold execute. cbn [actions]. apply dispatched_sublist.
Qed.

Lemma _collect_actions_filters_kinds_witness :
  _collect_actions false false [SequenceFacts.warning_cue; SequenceFacts.corona_picture]
  = [SequenceFacts.warning_cue; SequenceFacts.corona_picture].
Proof.
  apply (_collect_actions_filters_kinds false false
           [SequenceFacts.warning_cue; SequenceFacts.corona_picture] 0 (fun _ => 0));
    reflexivity.
Defined.

(** X7.  The loop relies on the list being in time order.  With a clock
    that does not run backwards and a sleep that does not return early,
    an action that stands behind a dispatched action of a strictly later
    time is past when its turn comes, and is skipped. *)
Theorem execute_skips_out_of_order (self : Sequencer) (clock : nat → datetime)
  (i j : nat) (a b : Action) :
  (∀ k, clock k <= clock (S k)) →
  (∀ k c, actions self !! k = Some c → due self (clock k) c = true →
          time c <= clock (S k) + time_offset self) →
  (i < j)%nat →
  actions self !! i = Some a →
  actions self !! j = Some b →
  due self (clock i) a = true →
  time b < time a →
  due self (clock j) b = false
  ∧ execute_step self (clock j) b = [].
Proof.
  intros Hmono Hsleep Hij Ha Hb Hdue Hlt.
  assert (Hle : ∀ n m, (n <= m)%nat → clock n <= clock m).
  { intros n m Hnm. induction Hnm as [|m _ IH]; [lia|].
    specialize (Hmono m). lia. }
  pose proof (Hsleep i a Ha Hdue) as Hwake.
  pose proof (Hle (S i) j ltac:(lia)) as Hlate.
  assert (Hpast : (time b <? clock j + time_offset self) = true)
    by (apply Z.ltb_lt; lia).
  split.
  - unfold due. by rewrite Hpast.
  - rewrite execute_step_spec. cbv zeta. by rewrite Hpast.
Qed.

Lemma execute_skips_out_of_order_witness :
  let self := {| no_sound := false; no_camera := false;
                 actions := [ActionPlay 10 (VStr "b.wav") VNone;
                             ActionPlay 5 (VStr "a.wav") VNone];
                 time_offset := 0 |} in
  due self 10 (ActionPlay 5 (VStr "a.wav") VNone) = false
  ∧ execute_step self 10 (ActionPlay 5 (VStr "a.wav") VNone) = [].
Proof.
  cbv zeta.
  apply (execute_skips_out_of_order
           {| no_sound := false; no_camera := false;
              actions := [ActionPlay 10 (VStr "b.wav") VNone;
                          ActionPlay 5 (VStr "a.wav") VNone];
              time_offset := 0 |}
           (fun _ => 10) 0 1
           (ActionPlay 10 (VStr "b.wav") VNone) (ActionPlay 5 (VStr "a.wav") VNone)).
  - intros k. lia.
  - intros [|[|k]] c H; cbn in H; simplify_eq; cbn; lia || discriminate.
  - lia.
  - reflexivity.
  - reflexivity.
  - reflexivity.
  - cbn. lia.
Defined.

End SequencerMore.

(** * More about [sem/script.py] *)
Module ScriptMore.
Import Py Strconv Event Action Semscript Script ScriptFacts.

(** At most one block is open, and the open block is the last command of
    the script. *)
Definition well_stacked (p : ScriptParser) : Prop :=
  stack p = []
  ∨ ∃ cs loop, commands (script p) = cs ++ [loop]
               ∧ stack p = [length cs]
               ∧ is_nestable loop = true.

(** The line is neither blank nor a comment and makes [command]. *)
Definition makes (line : string) (command : ScriptCommand) : Prop :=
  startswith "#" (strip line) = false
  ∧ strip line ≠ ""
  ∧ _make_command (strip line) = Ok (Some command).

(** A sequence of calls of [_add_command]. *)
Fixpoint add_commands (p : ScriptParser) (cs : list ScriptCommand)
  : res ScriptParser :=
  match cs with
  | [] => Ok p
  | c :: cs' => p' ← _add_command p c; add_commands p' cs'
  end.

(** The block [loop] with [body] added to its children. *)
Definition with_body (loop : ScriptCommand) (body : list LeafCommand)
  : ScriptCommand :=
  match loop with
  | ForVarLoop start step end_ cs => ForVarLoop start step end_ (cs ++ body)
  | ForIterLoop kind delay iters cs => ForIterLoop kind delay iters (cs ++ body)
  | ForLoopEnd | Leaf _ => loop
  end.

Lemma with_body_nil (loop : ScriptCommand) : with_body loop [] = loop.
Proof. destruct loop; cbn; by rewrite ?app_nil_r. Qed.

Lemma with_body_nestable (loop : ScriptCommand) (body : list LeafCommand) :
  is_nestable (with_body loop body) = is_nestable loop.
Proof. by destruct loop. Qed.

Lemma string_eqb_false (s : string) : s ≠ "" → String.eqb s "" = false.
Proof. intros H. by apply String.eqb_neq. Qed.

Lemma parse_lines_makes (p : ScriptParser) (line : string) (rest : list string)
  (c : ScriptCommand) :
  makes line c →
  parse_lines p (line :: rest) = p' ← _add_command p c; parse_lines p' rest.
Proof.
  intros (Hc & He & Hm). cbn [parse_lines].
  by rewrite Hc, (string_eqb_false _ He), Hm.
Qed.

Lemma parse_lines_add_commands (p : ScriptParser) (lines : list string)
  (cs : list ScriptCommand) :
  Forall2 makes lines cs → parse_lines p lines = add_commands p cs.
Proof.
  intros H. revert p. induction H as [|line c lines cs Hm _ IH]; intros p;
    [reflexivity|].
  rewrite (parse_lines_makes _ _ _ _ Hm). cbn [add_commands].
  destruct (_add_command p c) as [p'|e]; [apply IH|reflexivity].
Qed.

Lemma add_commands_app (p : ScriptParser) (cs1 cs2 : list ScriptCommand) :
  add_commands p (cs1 ++ cs2) = p' ← add_commands p cs1; add_commands p' cs2.
Proof.
  revert p. induction cs1 as [|c cs1 IH]; intros p; [reflexivity|].
  cbn [app add_commands]. destruct (_add_command p c) as [p'|e]; [apply IH|reflexivity].
Qed.

Lemma _add_command_open (cs : list ScriptCommand) (ev : option EventManager)
  (loop command : ScriptCommand) :
  is_nestable loop = true →
  _add_command {| script := {| commands := cs ++ [loop]; events := ev |};
                  stack := [length cs] |} command
  = match command with
    | ForVarLoop _ _ _ _ | ForIterLoop _ _ _ _ => Raise ValueError
    | ForLoopEnd =>
        Ok {| script := {| commands := cs ++ [loop]; events := ev |}; stack := [] |}
    | Leaf c =>
        Ok {| script := {| commands := cs ++ [with_body loop [c]]; events := ev |};
              stack := [length cs] |}
    end.
Proof.
  intros Hn. unfold _add_command. cbn [stack last script commands Script.events].
  rewrite list_lookup_middle by reflexivity.
  assert (Hins : ∀ x, <[length cs := x]> (cs ++ [loop]) = cs ++ [x]).
  { intros x. rewrite insert_app_r_alt by lia.
    by rewrite Nat.sub_diag. }
  destruct loop; try discriminate; destruct command;
    cbn [add_command mbind res_bind removelast with_body]; by rewrite ?Hins.
Qed.

Lemma _add_command_well_stacked (p p' : ScriptParser) (command : ScriptCommand) :
  well_stacked p → _add_command p command = Ok p' → well_stacked p'.
Proof.
  intros [Hs|(cs & loop & Hc & Hs & Hn)] Hadd.
  - unfold _add_command in Hadd. rewrite Hs in Hadd. cbn [last] in Hadd.
    injection Hadd as <-. unfold well_stacked. cbn [stack script].
    destruct (is_nestable command) eqn:Hn; [right|by left].
    by exists (commands (script p)), command.
  - destruct p as [[cmds ev] st]. cbn [script commands stack] in *. subst cmds st.
    rewrite (_add_command_open _ _ _ _ Hn) in Hadd.
    destruct command; try discriminate; injection Hadd as <-.
    + by left.
    + right. exists cs, (with_body loop [c]). by rewrite with_body_nestable.
Qed.

Lemma parse_lines_well_stacked (file : list string) (p p' : ScriptParser) :
  well_stacked p → parse_lines p file = Ok p' → well_stacked p'.
Proof.
  revert p. induction file as [|line rest IH]; intros p Hw Hp.
  - by injection Hp as <-.
  - cbn [parse_lines] in Hp.
    destruct (startswith "#" (strip line)); [by eapply IH|].
    destruct (String.eqb (strip line) ""); [by eapply IH|].
    destruct (_make_command (strip line)) as [[c|]|e]; cbn [mbind res_bind] in Hp;
      [|by eapply IH|discriminate].
    destruct (_add_command p c) as [p1|e] eqn:Hadd; [|discriminate].
    cbn [mbind res_bind] in Hp.
    eapply IH; [|exact Hp]. by eapply _add_command_well_stacked.
Qed.

(** X8.  Whatever the script file, in the state the parser reaches at
    most one block is open, and the open block is the last command of the
    script and is a loop. *)
Theorem parser_keeps_one_open_block (file : list string) (p : ScriptParser) :
  parse_lines ScriptParser_init file = Ok p → well_stacked p.
Proof. apply parse_lines_well_stacked. by left. Qed.

Lemma parser_keeps_one_open_block_witness :
  well_stacked
    {| script := {| commands := [ForIterLoop 1 5 3
                                   [Play "C2" (Some 0) "totality.mp3" "Totality"]];
                    events := None |};
       stack := [0%nat] |}.
Proof.
  apply (parser_keeps_one_open_block
           ["# burst"; "FOR,(INTERVALOMETER),1,5,3";
            "PLAY,C2,+,00:00.0,totality.wav,,,,,,,,Totality"]).
  reflexivity.
Defined.

(** X9.  A block inside a block aborts the parse: when a block is open,
    a line that makes a loop command raises [ValueError], whatever
    follows it in the file. *)
Theorem nested_block_raises (p : ScriptParser) (line : string)
  (rest : list string) (command : ScriptCommand) :
  well_stacked p →
  stack p ≠ [] →
  makes line command →
  is_nestable command = true →
  _add_command p command = Raise ValueError
  ∧ parse_lines p (line :: rest) = Raise ValueError.
Proof.
  intros [Hs|(cs & loop & Hc & Hs & Hn)] Hopen Hm Hcn; [done|].
  assert (_add_command p command = Raise ValueError) as Hadd.
  { destruct p as [[cmds ev] st]. cbn [script commands stack] in *. subst cmds st.
    rewrite (_add_command_open _ _ _ _ Hn). by destruct command. }
  split; [exact Hadd|].
  by rewrite (parse_lines_makes _ _ _ _ Hm), Hadd.
Qed.

Lemma nested_block_raises_witness :
  let p := {| script := {| commands := [ForVarLoop 0 1 3 []]; events := None |};
              stack := [0%nat] |} in
  _add_command p (ForIterLoop 1 5 3 []) = Raise ValueError
  ∧ parse_lines p ["FOR,(INTERVALOMETER),1,5,3"; "ENDFOR"; "ENDFOR"]
    = Raise ValueError.
Proof.
  cbv zeta.
  apply (nested_block_raises
           {| script := {| commands := [ForVarLoop 0 1 3 []]; events := None |};
              stack := [0%nat] |}
           "FOR,(INTERVALOMETER),1,5,3" ["ENDFOR"; "ENDFOR"] (ForIterLoop 1 5 3 [])).
  - right. by exists [], (ForVarLoop 0 1 3 []).
  - discriminate.
  - repeat split. discriminate.
  - reflexivity.
Defined.

Lemma add_commands_body (cs : list ScriptCommand) (ev : option EventManager)
  (loop : ScriptCommand) (body : list LeafCommand) :
  is_nestable loop = true →
  add_commands {| script := {| commands := cs ++ [loop]; events := ev |};
                  stack := [length cs] |} (Leaf <$> body)
  = Ok {| script := {| commands := cs ++ [with_body loop body]; events := ev |};
          stack := [length cs] |}.
Proof.
  intros Hn. revert loop Hn. induction body as [|c body IH]; intros loop Hn.
  - cbn. by rewrite with_body_nil.
  - cbn [fmap list_fmap add_commands].
    rewrite (_add_command_open _ _ _ _ Hn). cbn [mbind res_bind].
    change (list_fmap _ _ Leaf body) with (Leaf <$> body).
    rewrite IH by (by rewrite with_body_nestable).
    do 4 f_equal. destruct loop; cbn; by rewrite <- ?app_assoc.
Qed.

(** X10.  With no block open, the lines of a loop command followed by
    leaf commands build one block at the end of the script, holding the
    leaf commands in their order.  The [ENDFOR] line only closes the
    block: a file that ends without it parses to the same script, and no
    error is raised for the block left open. *)
Theorem block_is_built_in_order (p : ScriptParser) (lines : list string)
  (loop : ScriptCommand) (body : list LeafCommand) :
  stack p = [] →
  is_nestable loop = true →
  Forall2 makes lines (loop :: (Leaf <$> body)) →
  let built := {| commands := commands (script p) ++ [with_body loop body];
                  events := events (script p) |} in
  parse_lines p lines
    = Ok {| script := built; stack := [length (commands (script p))] |}
  ∧ parse_lines p (lines ++ ["ENDFOR"]) = Ok {| script := built; stack := [] |}
  ∧ _parse_script p lines = _parse_script p (lines ++ ["ENDFOR"]).
Proof.
  intros Hs Hn Hm. cbv zeta.
  assert (Hopen : add_commands p (loop :: (Leaf <$> body))
    = Ok {| script := {| commands := commands (script p) ++ [with_body loop body];
                         events := events (script p) |};
            stack := [length (commands (script p))] |}).
  { cbn [add_commands]. unfold _add_command at 1. rewrite Hs. cbn [last].
    rewrite Hn. cbn [mbind res_bind app]. unfold Script_add_command.
    by apply add_commands_body. }
  assert (Hend : makes "ENDFOR" ForLoopEnd) by (repeat split; discriminate).
  assert (H1 : parse_lines p lines
    = Ok {| script := {| commands := commands (script p) ++ [with_body loop body];
                         events := events (script p) |};
            stack := [length (commands (script p))] |})
    by (by rewrite (parse_lines_add_commands _ _ _ Hm)).
  assert (H2 : parse_lines p (lines ++ ["ENDFOR"])
    = Ok {| script := {| commands := commands (script p) ++ [with_body loop body];
                         events := events (script p) |};
            stack := [] |}).
  { rewrite (parse_lines_add_commands p (lines ++ ["ENDFOR"])
               ((loop :: (Leaf <$> body)) ++ [ForLoopEnd]))
      by (apply Forall2_app; [exact Hm|by constructor]).
    rewrite add_commands_app, Hopen. cbn [mbind res_bind add_commands].
    rewrite _add_command_open by (by rewrite with_body_nestable). reflexivity. }
  split; [exact H1|]. split; [exact H2|].
  unfold _parse_script. by rewrite H1, H2.
Qed.

Lemma block_is_built_in_order_witness :
  _parse_script ScriptParser_init
    ["FOR,(INTERVALOMETER),1,5,3"; "PLAY,C2,+,00:00.0,totality.wav,,,,,,,,Totality"]
  = _parse_script ScriptParser_init
      ["FOR,(INTERVALOMETER),1,5,3"; "PLAY,C2,+,00:00.0,totality.wav,,,,,,,,Totality";
       "ENDFOR"].
Proof.
  refine (proj2 (proj2 (block_is_built_in_order ScriptParser_init
    ["FOR,(INTERVALOMETER),1,5,3"; "PLAY,C2,+,00:00.0,totality.wav,,,,,,,,Totality"]
    (ForIterLoop 1 5 3 []) [Play "C2" (Some 0) "totality.mp3" "Totality"] _ _ _))).
  - reflexivity.
  - reflexivity.
  - repeat constructor; discriminate.
Defined.

End ScriptMore.

(** * More about [sem/semscript.py] and the generation of a sequence *)
Module SemscriptMore.
Import Py Strconv Event Action Semscript Script PyFacts Float64Facts EventFacts
  SemscriptFacts.

(** Case analysis on a text that is matched against literals. *)
Ltac string_cases :=
  repeat (cbv beta iota;
          match goal with
          | |- context [match ?s with EmptyString => _ | String _ _ => _ end] =>
              is_var s; destruct s
          | |- context [match ?a with Ascii _ _ _ _ _ _ _ _ => _ end] =>
              is_var a; destruct a
          | |- context [match ?b with true => _ | false => _ end] =>
              is_var b; destruct b
          end).

(** ** Event names that cannot be resolved *)

Lemma get_time_body_unresolved (f : string → res (option datetime))
  (self : EventManager) (name : string) :
  Event.events self !! name = None →
  (∀ percent, split " " name ≠ ["MAGPRE"; percent]
              ∧ split " " name ≠ ["MAGPOST"; percent]) →
  get_time_body f self name = Ok None.
Proof.
  intros Hev Hname. unfold get_time_body. rewrite Hev. revert Hname.
  destruct (split " " name) as [|x [|y [|z r]]]; intros Hname; try reflexivity.
  - string_cases; reflexivity.
  - string_cases;
      first [reflexivity
            | exfalso; destruct (Hname y) as [H1 H2];
              first [by apply H1 | by apply H2]].
  - string_cases; reflexivity.
Qed.

(** X11.  An event name that is not in the event table and is not
    [MAGPRE p] or [MAGPOST p] is not resolved: [get_time] raises nothing
    and returns [None].  A command on such an event then fails at
    generation with [TypeError], from adding its offset to [None]. *)
Theorem unknown_event_raises_TypeError (c : LeafCommand) (events : EventManager)
  (fuel : nat) :
  Event.events events !! event c = None →
  (∀ percent, split " " (event c) ≠ ["MAGPRE"; percent]
              ∧ split " " (event c) ≠ ["MAGPOST"; percent]) →
  get_time events (event c) = Ok None
  ∧ leaf_generate_actions c events None = Raise TypeError
  ∧ generate_actions fuel (Leaf c) events = Some (Raise TypeError).
Proof.
  intros Hev Hname.
  assert (Hg : get_time events (event c) = Ok None)
    by (unfold get_time; by apply get_time_body_unresolved).
  assert (Hl : leaf_generate_actions c events None = Raise TypeError).
  { unfold leaf_generate_actions. cbn [default]. rewrite Hg.
    by destruct c. }
  repeat split; [exact Hg|exact Hl|]. cbn [generate_actions]. by rewrite Hl.
Qed.

Lemma unknown_event_raises_TypeError_witness :
  get_time contact_table "C5" = Ok None
  ∧ leaf_generate_actions (Play "C5" (Some 0) "totality.mp3" "Totality")
      contact_table None = Raise TypeError
  ∧ generate_actions 0 (Leaf (Play "C5" (Some 0) "totality.mp3" "Totality"))
      contact_table = Some (Raise TypeError).
Proof.
  apply (unknown_event_raises_TypeError
           (Play "C5" (Some 0) "totality.mp3" "Totality") contact_table 0).
  - reflexivity.
  - intros percent. split; discriminate.
Defined.

(** ** The event of a child of [FOR (VAR)] *)

(** The command with another event name. *)
Definition with_event (c : LeafCommand) (e : string) : LeafCommand :=
  match c with
  | Play _ offset file comment => Play e offset file comment
  | TakePic _ offset shutter_sec aperture iso comment =>
      TakePic e offset shutter_sec aperture iso comment
  end.

Lemma leaf_generate_actions_override (c : LeafCommand) (e1 e2 name : string)
  (events : EventManager) :
  leaf_generate_actions (with_event c e1) events (Some name)
  = leaf_generate_actions (with_event c e2) events (Some name).
Proof. by destruct c. Qed.

Lemma var_pass_raises (events : EventManager) (step value : float64)
  (c : LeafCommand) (rest : list LeafCommand) (e : exn) :
  var_child events value c = Raise e →
  var_pass events step (c :: rest) value = Raise e.
Proof. intros H. cbn [var_pass]. by rewrite H. Qed.

(** X12.  A child of a [FOR (VAR)] block must have an event of exactly
    two words.  Of these only the first is used: the second, usually the
    placeholder [(VAR)], is replaced by the loop value without being
    looked at, so two children that differ in it only generate the same.
    A first child whose event is not cut in two by [split(' ', maxsplit=2)]
    (a contact name such as [C2], or a name of three words) makes the
    whole block raise [ValueError] as soon as the loop is entered,
    whatever the event table. *)
Theorem var_child_uses_first_word (events : EventManager) (value : float64)
  (c : LeafCommand) :
  (∀ e1 e2 word post1 post2,
     split_max " " 2 e1 = [word; post1] →
     split_max " " 2 e2 = [word; post2] →
     var_child events value (with_event c e1)
     = var_child events value (with_event c e2))
  ∧ (length (split_max " " 2 (event c)) ≠ 2%nat →
     var_child events value c = Raise ValueError
     ∧ ∀ fuel step end_ rest,
         flt value end_ = true →
         generate_actions (S fuel) (ForVarLoop value step end_ (c :: rest)) events
         = Some (Raise ValueError)).
Proof.
  split.
  - intros e1 e2 word post1 post2 H1 H2. unfold var_child.
    replace (event (with_event c e1)) with e1 by (by destruct c).
    replace (event (with_event c e2)) with e2 by (by destruct c).
    rewrite H1, H2.
    by rewrite (leaf_generate_actions_override c e1 e2).
  - intros Hlen.
    assert (Hc : var_child events value c = Raise ValueError).
    { unfold var_child.
      by destruct (split_max " " 2 (event c)) as [|x [|y [|z r]]]. }
    split; [exact Hc|]. intros fuel step end_ rest Hlt.
    cbn [generate_actions var_loop]. rewrite Hlt.
    by rewrite (var_pass_raises _ _ _ _ _ _ Hc).
Qed.

Lemma var_child_uses_first_word_witness :
  var_child contact_table 0 burst = Raise ValueError
  ∧ ∀ fuel step end_ rest,
      flt 0 end_ = true →
      generate_actions (S fuel) (ForVarLoop 0 step end_ (burst :: rest)) contact_table
      = Some (Raise ValueError).
Proof.
  apply (proj2 (var_child_uses_first_word contact_table 0 burst)).
  cbn. lia.
Defined.

(** ** The shift of an iteration of [FOR (INTERVALOMETER)] *)



(** ** The whole script *)

Lemma generate_all_spec (fuel : nat) (ev : EventManager)
  (commands : list ScriptCommand) (actions : list Action) :
  generate_all fuel ev commands = Some (Ok actions) →
  ∃ parts : list (list Action),
    Forall2 (fun c part => generate_actions fuel c ev = Some (Ok part)) commands parts
    ∧ actions = concat parts.
Proof.
  revert actions. induction commands as [|c rest IH]; intros actions H.
  - injection H as <-. by exists [].
  - cbn [generate_all] in H.
    destruct (generate_actions fuel c ev) as [[more|e]|] eqn:Hc; try discriminate.
    destruct (generate_all fuel ev rest) as [[acts|e]|]; try discriminate.
    injection H as <-.
    destruct (IH acts eq_refl) as (parts & Hparts & ->).
    exists (more :: parts). split; [by constructor|reflexivity].
Qed.

Lemma generate_all_raises (fuel : nat) (ev : EventManager)
  (commands : list ScriptCommand) (e : exn) :
  generate_all fuel ev commands = Some (Raise e) →
  ∃ c, c ∈ commands ∧ generate_actions fuel c ev = Some (Raise e).
Proof.
  induction commands as [|c rest IH]; intros H; [discriminate|].
  cbn [generate_all] in H.
  destruct (generate_actions fuel c ev) as [[more|e']|] eqn:Hc; try discriminate.
  - destruct (generate_all fuel ev rest) as [[acts|e']|]; try discriminate.
    injection H as ->. destruct (IH eq_refl) as (c' & Hin & Hc').
    exists c'. split; [by right|exact Hc'].
  - injection H as ->. exists c. split; [left|exact Hc].
Qed.

(** X14.  [generate_sequence] puts the actions of the commands together:
    when it returns a sequence, every top-level command has generated,
    and the sequence is the one constructed from the actions of the
    commands in script order, so it holds exactly these actions, in time
    order.  When it raises, the exception is the one raised by a command
    of the script. *)
Theorem generate_sequence_collects (fuel : nat) (self : Script)
  (ev : EventManager) :
  Script.events self = Some ev →
  (∀ seq, generate_sequence fuel self = Some (Ok seq) →
     ∃ parts : list (list Action),
       Forall2 (fun c part => generate_actions fuel c ev = Some (Ok part))
               (commands self) parts
       ∧ seq = Sequence.init (concat parts)
       ∧ Sequence.actions seq ≡ₚ concat parts
       ∧ Sorted SequenceFacts.time_le (Sequence.actions seq))
  ∧ (∀ e, generate_sequence fuel self = Some (Raise e) →
       ∃ c, c ∈ commands self ∧ generate_actions fuel c ev = Some (Raise e)).
Proof.
  intros Hev. unfold generate_sequence. rewrite Hev. split.
  - intros seq H.
    destruct (generate_all fuel ev (commands self)) as [[acts|e]|] eqn:Hg;
      try discriminate.
    injection H as <-.
    destruct (generate_all_spec _ _ _ _ Hg) as (parts & Hparts & ->).
    exists parts. split; [exact Hparts|]. split; [reflexivity|]. split.
    + apply SequenceFacts.sorted_Permutation.
    + apply SequenceFacts.sorted_Sorted.
  - intros e H.
    destruct (generate_all fuel ev (commands self)) as [[acts|e']|] eqn:Hg;
      try discriminate.
    injection H as ->. by apply generate_all_raises.
Qed.

Lemma generate_sequence_collects_witness :
  ∃ parts : list (list Action),
    Forall2 (fun c part => generate_actions 0 c contact_table = Some (Ok part))
            [ForIterLoop 1 5 3 [burst]] parts
    ∧ Sorted SequenceFacts.time_le (Sequence.actions (Sequence.init (concat parts))).
Proof.
  assert (Hg : generate_sequence 0
                 {| commands := [ForIterLoop 1 5 3 [burst]];
                    Script.events := Some contact_table |}
               = Some (Ok (Sequence.init
                   [ActionTakePic 63848197041500000 (VFloat 0.002) (VFloat 8)
                      (VInt 100) (VStr "Corona (iter. 001)");
                    ActionTakePic 63848197046500000 (VFloat 0.002) (VFloat 8)
                      (VInt 100) (VStr "Corona (iter. 002)");
                    ActionTakePic 63848197051500000 (VFloat 0.002) (VFloat 8)
                      (VInt 100) (VStr "Corona (iter. 003)")])))
    by (by vm_compute).
  destruct (proj1 (generate_sequence_collects 0
              {| commands := [ForIterLoop 1 5 3 [burst]];
                 Script.events := Some contact_table |}
              contact_table eq_refl) _ Hg)
    as (parts & H1 & H2 & H3 & H4).
  exists parts. rewrite H2 in H4. by split.
Defined.

End SemscriptMore.

(** * More about [sem/strconv.py] *)
Module StrconvMore.
Import Py Strconv Event Action Semscript PyFacts StrconvFacts SequenceFacts.

(** ** What [parse_date_time] returns *)

Lemma days_before_month_end (y m : Z) :
  1 <= m <= 12 →
  0 <= days_before_month y m
  ∧ days_before_month y m + days_in_month y m
    <= days_before_month y 12 + days_in_month y 12.
Proof.
  intros Hm.
  assert (m = 1 ∨ m = 2 ∨ m = 3 ∨ m = 4 ∨ m = 5 ∨ m = 6 ∨ m = 7 ∨ m = 8
          ∨ m = 9 ∨ m = 10 ∨ m = 11 ∨ m = 12) as Hk by lia.
  unfold days_before_month, days_in_month.
  repeat (destruct Hk as [-> | Hk]; [simpl; destruct (is_leap y); lia|]).
  subst. simpl. destruct (is_leap y); lia.
Qed.

Lemma days_before_year_bounds (y : Z) :
  1 <= y <= 9999 →
  0 <= days_before_year y ∧ days_before_year (y + 1) <= max_ordinal.
Proof.
  intros Hy. unfold max_ordinal, days_before_year. cbv zeta.
  replace (y + 1 - 1) with y by lia.
  change (10000 - 1) with 9999.
  change (9999 * 365 + 9999 / 4 - 9999 / 100 + 9999 / 400) with 3652059.
  split.
  - Z.div_mod_to_equations. lia.
  - destruct (decide (y = 9999)) as [->|Hne]; [reflexivity|].
    Z.div_mod_to_equations. lia.
Qed.

(** The constructor returns a representable [datetime] with the given
    microsecond field. *)
Lemma mk_datetime_valid (y m d hh mm ss us : Z) (x : datetime) :
  mk_datetime y m d hh mm ss us = Ok x →
  dt_valid x ∧ dt_microsecond x = us.
Proof.
  unfold mk_datetime. destruct (_ && _) eqn:Hc; [|discriminate].
  intros [= <-].
  repeat (apply andb_true_iff in Hc as [Hc ?]).
  repeat match goal with
         | H : (_ <=? _) = true |- _ => apply Z.leb_le in H
         | H : (_ <? _) = true |- _ => apply Z.ltb_lt in H
         end.
  destruct (days_before_month_end y m ltac:(lia)) as [Hm0 Hm1].
  destruct (days_before_year_bounds y ltac:(lia)) as [Hy0 Hy1].
  rewrite days_before_year_succ in Hy1.
  unfold dt_valid, dt_microsecond, us_per_day, us_per_second in *.
  split; [nia|].
  rewrite Z.add_comm, Z.mod_add by lia. apply Z.mod_small. lia.
Qed.

(** The fields [parse_date_time] hands to the constructor. *)
Lemma parse_date_time_inv (date_str time_str : option string) (x : datetime) :
  parse_date_time date_str time_str = Ok x →
  ∃ d t hh mm ssf ss f y4 m2 d2 h mi s n,
    date_str = Some d ∧ time_str = Some t
    ∧ split ":" t = [hh; mm; ssf] ∧ split "." ssf = [ss; f]
    ∧ int f = Some n
    ∧ mk_datetime y4 m2 d2 h mi s (n * 100000) = Ok x.
Proof.
  unfold parse_date_time. intros H.
  destruct date_str as [d|]; [|discriminate]. cbn [of_option mbind res_bind] in H.
  destruct (mapM _ (split "/" d)) as [[|y4 [|m2 [|d2 [|]]]]|e];
    cbn [mbind res_bind] in H; try discriminate.
  destruct time_str as [t|]; [|discriminate]. cbn [of_option mbind res_bind] in H.
  destruct (split ":" t) as [|hh [|mm [|ssf [|]]]] eqn:Ht; try discriminate.
  destruct (int hh) as [h|]; [|discriminate].
  destruct (int mm) as [mi|]; [|discriminate].
  cbn [of_option mbind res_bind] in H.
  destruct (split "." ssf) as [|ss [|f [|]]] eqn:Hs; try discriminate.
  destruct (int ss) as [s|]; [|discriminate].
  destruct (int f) as [n|] eqn:Hf; [|discriminate].
  cbn [of_option mbind res_bind] in H.
  by exists d, t, hh, mm, ssf, ss, f, y4, m2, d2, h, mi, s, n.
Qed.

(** X15.  Whatever texts it is given, a [datetime] that [parse_date_time]
    returns is within the range of the class and is a whole number of
    tenths of a second, and it is written by [format_date] and
    [format_time] to texts that are read back to exactly this
    [datetime]. *)
Theorem parse_date_time_returns_canonical (date_str time_str : option string)
  (x : datetime) :
  parse_date_time date_str time_str = Ok x →
  dt_valid x
  ∧ x mod 100000 = 0
  ∧ parse_date_time (Some (format_date x)) (Some (format_time x)) = Ok x.
Proof.
  intros H.
  destruct (parse_date_time_inv _ _ _ H)
    as (d & t & hh & mm & ssf & ss & f & y4 & m2 & d2 & h & mi & s & n
        & _ & _ & _ & _ & _ & Hmk).
  destruct (mk_datetime_valid _ _ _ _ _ _ _ _ Hmk) as [Hv Hus].
  assert (Hx : x mod 100000 = 0).
  { unfold dt_microsecond, us_per_second in Hus.
    change 1000000 with (100000 * 10) in Hus.
    rewrite Z.rem_mul_r in Hus by lia.
    pose proof (Z.mod_pos_bound x 100000 ltac:(lia)).
    pose proof (Z.mod_pos_bound (x / 100000) 10 ltac:(lia)). lia. }
  split; [exact Hv|]. split; [exact Hx|].
  rewrite (parse_date_time_format x Hv). f_equal.
  unfold truncate_tenth. lia.
Qed.

Lemma parse_date_time_returns_canonical_witness :
  dt_valid 63848197040500000
  ∧ 63848197040500000 mod 100000 = 0
  ∧ parse_date_time (Some (format_date 63848197040500000))
      (Some (format_time 63848197040500000)) = Ok 63848197040500000.
Proof.
  apply (parse_date_time_returns_canonical (Some "2024/4/8") (Some "18:17:20.5")).
  vm_compute. reflexivity.
Defined.

(** X16.  The text after the point of the seconds is read as a whole
    number of tenths of a second, not as a decimal fraction: the time is
    accepted only if that number is between 0 and 9, and it then gives
    the microsecond field.  So [20.05] is read as 20.5 seconds, and
    [20.25] is refused. *)
Theorem tenths_are_counted (date_str time_str hh mm ssf ss f : string)
  (n : Z) (x : datetime) :
  split ":" time_str = [hh; mm; ssf] →
  split "." ssf = [ss; f] →
  int f = Some n →
  parse_date_time (Some date_str) (Some time_str) = Ok x →
  0 <= n <= 9 ∧ dt_microsecond x = n * 100000.
Proof.
  intros Ht Hs Hf H.
  destruct (parse_date_time_inv _ _ _ H)
    as (d & t & hh' & mm' & ssf' & ss' & f' & y4 & m2 & d2 & h & mi & s & n'
        & [= <-] & [= <-] & Ht' & Hs' & Hf' & Hmk).
  rewrite Ht in Ht'. injection Ht' as <- <- <-.
  rewrite Hs in Hs'. injection Hs' as <- <-.
  rewrite Hf in Hf'. injection Hf' as <-.
  destruct (mk_datetime_valid _ _ _ _ _ _ _ _ Hmk) as [_ Hus].
  split; [|exact Hus].
  pose proof (Z.mod_pos_bound x us_per_second ltac:(reflexivity)) as Hb.
  unfold dt_microsecond in Hus. unfold us_per_second in *. lia.
Qed.

Lemma tenths_are_counted_witness :
  0 <= 5 <= 9 ∧ dt_microsecond 63848197040500000 = 5 * 100000.
Proof.
  apply (tenths_are_counted "2024/04/08" "18:17:20.05" "18" "17" "20.05" "20" "05"
           5 63848197040500000); vm_compute; reflexivity.
Defined.

(** ** Offsets *)

(** X17.  Only the sign text [-] makes an offset negative: every other
    sign text, the empty one included, gives what [+] gives, and [-]
    gives the exact negation of it. *)
Theorem parse_time_delta_sign (sign_str time_str : string) :
  (sign_str ≠ "-" →
   parse_time_delta sign_str time_str = parse_time_delta "+" time_str)
  ∧ parse_time_delta "-" time_str
    = match parse_time_delta "+" time_str with
      | Ok (Some delta) => Ok (Some (- delta))
      | r => r
      end.
Proof.
  split.
  - intros Hs. unfold parse_time_delta.
    replace (String.eqb sign_str "-") with false
      by (symmetry; by apply String.eqb_neq).
    reflexivity.
  - unfold parse_time_delta.
    change (String.eqb "-" "-") with true. change (String.eqb "+" "-") with false.
    by destruct (mapM _ _) as [[|hh [|mm [|ss [|]]]]|e].
Qed.

Lemma parse_time_delta_sign_witness :
  parse_time_delta "" "01:30.0" = parse_time_delta "+" "01:30.0".
Proof.
  apply (proj1 (parse_time_delta_sign "" "01:30.0")). discriminate.
Defined.

(** X18.  An offset written without a colon (plain seconds, such as [5]
    or [2.5]) is not refused when the script is read: [parse_time_delta]
    returns [None] and the command is built with it.  The command can
    then never generate: whenever its event resolves, adding the offset
    raises [TypeError]. *)
Theorem offset_without_colon (event sign offset file a1 a2 a3 a4 a5 a6 a7
  comment : string) (v : Q) :
  free_of ":" offset = true →
  float offset = Some v →
  parse_time_delta sign offset = Ok None
  ∧ ∃ c, Play_init [event; sign; offset; file; a1; a2; a3; a4; a5; a6; a7; comment]
         = Ok (Leaf c)
         ∧ ∀ (events : EventManager) (t : option datetime),
             get_time events event = Ok t →
             leaf_generate_actions c events None = Raise TypeError.
Proof.
  intros Hfree Hv.
  assert (Hp : parse_time_delta sign offset = Ok None).
  { unfold parse_time_delta. rewrite (split_free _ _ Hfree).
    cbn [mapM]. rewrite Hv. reflexivity. }
  split; [exact Hp|].
  eexists. split.
  - cbn [Play_init]. rewrite Hp. reflexivity.
  - intros events t Ht. unfold leaf_generate_actions.
    cbn [default Semscript.event]. rewrite Ht. by destruct t.
Qed.

Lemma offset_without_colon_witness :
  parse_time_delta "+" "5" = Ok None
  ∧ ∃ c, Play_init ["C2"; "+"; "5"; "totality.wav"; ""; ""; ""; ""; ""; ""; "";
                    "Totality"] = Ok (Leaf c)
         ∧ ∀ (events : EventManager) (t : option datetime),
             get_time events "C2" = Ok t →
             leaf_generate_actions c events None = Raise TypeError.
Proof.
  apply (offset_without_colon "C2" "+" "5" "totality.wav" "" "" "" "" "" "" ""
           "Totality" 5); reflexivity.
Defined.

(** ** Shutter speeds *)

Lemma split_max_free (sep : ascii) (n : nat) (s : string) :
  free_of sep s = true → split_max sep n s = [s].
Proof.
  destruct n as [|n]; [reflexivity|].
  induction s as [|c s IH]; intros H; [reflexivity|].
  cbn [free_of] in H. apply andb_true_iff in H as [Hc%negb_true_iff Hs].
  cbn [split_max]. rewrite Hc.
  change ((fix go (t : string) : list string :=
             match t with
             | EmptyString => [EmptyString]
             | String c t' =>
                 if Ascii.eqb c sep then EmptyString :: split_max sep n t'
                 else match go t' with
                      | [] => [String c EmptyString]
                      | p :: ps => String c p :: ps
                      end
             end) s) with (split_max sep (S n) s).
  by rewrite IH.
Qed.

Lemma split_max_free_sep (sep : ascii) (n : nat) (s rest : string) :
  free_of sep s = true →
  split_max sep (S n) (s +:+ String sep rest) = s :: split_max sep n rest.
Proof.
  induction s as [|c s IH]; intros H.
  - change ("" +:+ String sep rest) with (String sep rest).
    cbn [split_max]. by rewrite Ascii.eqb_refl.
  - cbn [free_of] in H. apply andb_true_iff in H as [Hc%negb_true_iff Hs].
    change (String c s +:+ String sep rest) with (String c (s +:+ String sep rest)).
    cbn [split_max]. rewrite Hc.
    change ((fix go (t : string) : list string :=
               match t with
               | EmptyString => [EmptyString]
               | String c t' =>
                   if Ascii.eqb c sep then EmptyString :: split_max sep n t'
                   else match go t' with
                        | [] => [String c EmptyString]
                        | p :: ps => String c p :: ps
                        end
               end) (s +:+ String sep rest))
      with (split_max sep (S n) (s +:+ String sep rest)).
    by rewrite IH.
Qed.

(** X19.  A shutter text without a slash is its number; a text [a/b] is
    the quotient of the two numbers, and raises [ZeroDivisionError] when
    [b] is zero. *)
Theorem parse_shutter_fraction (a b : string) (x y : Q) :
  free_of "/" a = true → free_of "/" b = true →
  float a = Some x → float b = Some y →
  parse_shutter a = Ok x
  ∧ parse_shutter (a +:+ "/" +:+ b)
    = if Qis_zero y then Raise ZeroDivisionError else Ok (x / y)%Q.
Proof.
  intros Ha Hb Hx Hy. unfold parse_shutter. split.
  - rewrite (split_max_free _ _ _ Ha). cbn [mapM]. by rewrite Hx.
  - change (a +:+ "/" +:+ b) with (a +:+ String "/" b).
    rewrite (split_max_free_sep _ _ _ _ Ha), (split_max_free _ _ _ Hb).
    cbn [mapM]. by rewrite Hx, Hy.
Qed.

Lemma parse_shutter_fraction_witness :
  parse_shutter "1" = Ok 1%Q
  ∧ parse_shutter ("1" +:+ "/" +:+ "0")
    = if Qis_zero 0 then Raise ZeroDivisionError else Ok (1 / 0)%Q.
Proof.
  apply (parse_shutter_fraction "1" "0" 1 0); reflexivity.
Defined.

End StrconvMore.

(** * More about [sem/event.py] *)
Module EventMore.
Import Py Strconv Event PyFacts EventFacts.

(** ** The bounds are entries of the table *)

Section sub_search_found.
Context {A : Type}.
Variable key : A → Q.

Lemma sub_search_from_found (check : Q → bool) (found : option (nat * A))
  (l : list (nat * A)) (i : nat) (x : A) :
  sub_search_from key check found l = Some (i, x) →
  found = Some (i, x) ∨ (i, x) ∈ l ∧ check (key x) = true.
Proof.
  revert found. induction l as [|[k y] l IH]; intros found H; [by left|].
  cbn [sub_search_from] in H. destruct (check (key y)) eqn:Hc; [|by left].
  destruct (IH _ H) as [[= -> ->]|[Hin Hx]].
  - right. split; [left|exact Hc].
  - right. split; [by right|exact Hx].
Qed.

Lemma find_bounds_found (l : list A) (target : Q) :
  (∀ i x, (find_bounds key l target).1 = Some (i, x) →
          l !! i = Some x ∧ (key x <= target)%Q)
  ∧ (∀ i x, (find_bounds key l target).2 = Some (i, x) →
            l !! i = Some x ∧ (target <= key x)%Q).
Proof.
  unfold find_bounds. cbn [fst snd]. split; intros i x H.
  - apply sub_search_from_found in H as [H|[Hin Hc]]; [discriminate|].
    apply elem_of_lookup_imap in Hin as (k & y & [= -> ->] & Hl).
    split; [exact Hl|by apply Qle_bool_iff].
  - apply sub_search_from_found in H as [H|[Hin Hc]]; [discriminate|].
    apply elem_of_reverse, elem_of_lookup_imap in Hin as (k & y & [= -> ->] & Hl).
    split; [exact Hl|by apply Qle_bool_iff].
Qed.

End sub_search_found.

(** Rounding does not leave an interval with whole ends. *)
Lemma round_half_even_between (x : Q) (a b : Z) :
  (inject_Z a <= x)%Q → (x <= inject_Z b)%Q →
  a <= round_half_even x <= b.
Proof.
  intros Ha Hb.
  assert (Hfa : a <= Qfloor x).
  { rewrite <- (Qfloor_Z a). by apply Qfloor_resp_le. }
  assert (Hfb : Qfloor x <= b).
  { rewrite <- (Qfloor_Z b). by apply Qfloor_resp_le. }
  destruct (decide (Qfloor x = b)) as [Heq|Hne].
  - assert (x == inject_Z b)%Q as Hx.
    { apply Qle_antisym; [exact Hb|]. rewrite <- Heq. apply Qfloor_le. }
    rewrite (round_half_even_whole x b Hx). lia.
  - unfold round_half_even. cbv zeta.
    repeat match goal with |- context [if ?c then _ else _] => destruct c end; lia.
Qed.

Lemma td_mul_between (d : timedelta) (p : Q) :
  (0 <= p)%Q → (p <= 1)%Q →
  Z.min 0 d <= td_mul d p <= Z.max 0 d.
Proof.
  intros H0 H1. unfold td_mul.
  assert (Hd : (0 <= inject_Z d)%Q ∨ (inject_Z d <= 0)%Q).
  { destruct (Z.le_ge_cases 0 d) as [H|H]; [left|right];
      change 0%Q with (inject_Z 0); by rewrite <- Zle_Qle. }
  destruct Hd as [Hd|Hd].
  - assert (0 <= d) by (by rewrite Zle_Qle).
    rewrite Z.min_l, Z.max_r by lia.
    apply round_half_even_between.
    + change (inject_Z 0) with 0%Q. by apply Qmult_le_0_compat.
    + rewrite <- (Qmult_1_r (inject_Z d)) at 2.
      rewrite !(Qmult_comm (inject_Z d)). by apply Qmult_le_compat_r.
  - assert (d <= 0) by (by rewrite Zle_Qle).
    rewrite Z.min_r, Z.max_l by lia.
    apply round_half_even_between.
    + assert (0 <= - inject_Z d)%Q as Hn by lra.
      pose proof (Qmult_le_compat_r _ _ _ H1 Hn) as Hm. lra.
    + change (inject_Z 0) with 0%Q.
      assert (0 <= - inject_Z d)%Q as Hn by lra.
      pose proof (Qmult_le_0_compat _ _ Hn H0) as Hm. lra.
Qed.

(** X20.  The table lookup never extrapolates.  Whatever the table, in
    order or not, a time that [get_magnitude_time] returns lies between
    the times of two entries of the table whose magnitudes bracket the
    target, ends included. *)
Theorem get_magnitude_time_between (self : EventManager) (magnitude : Q)
  (post : bool) (t : datetime) :
  get_magnitude_time self magnitude post = Ok t →
  let mags := if post then post_magnitudes self else pre_magnitudes self in
  ∃ lo hi : Q * datetime,
    lo ∈ mags ∧ hi ∈ mags
    ∧ (lo.1 <= magnitude)%Q ∧ (magnitude <= hi.1)%Q
    ∧ Z.min lo.2 hi.2 <= t <= Z.max lo.2 hi.2.
Proof.
  unfold get_magnitude_time. cbv zeta.
  set (mags := if post then post_magnitudes self else pre_magnitudes self).
  destruct (find_bounds_found fst mags magnitude) as [Hlo Hhi].
  destruct (find_bounds fst mags magnitude) as [lo hi].
  cbn [fst snd] in Hlo, Hhi.
  destruct lo as [[lo_i [lo_m lo_t]]|]; [|discriminate].
  destruct hi as [[hi_i [hi_m hi_t]]|]; [|discriminate].
  cbn [of_option mbind res_bind].
  destruct (Hlo _ _ eq_refl) as [Hl1 Hl2].
  destruct (Hhi _ _ eq_refl) as [Hh1 Hh2].
  cbn [fst] in Hl2, Hh2.
  intros H. exists (lo_m, lo_t), (hi_m, hi_t). cbn [fst snd].
  split; [by eapply list_elem_of_lookup_2|].
  split; [by eapply list_elem_of_lookup_2|].
  split; [exact Hl2|]. split; [exact Hh2|].
  destruct (decide (lo_i = hi_i)) as [Heq|Hne].
  - injection H as <-. lia.
  - destruct (Qis_zero (hi_m - lo_m)) eqn:Hz; [discriminate|].
    injection H as <-.
    assert (¬ (hi_m - lo_m == 0)%Q) as Hnz.
    { intros H0. apply Qeq_bool_iff in H0. unfold Qis_zero in Hz. congruence. }
    assert (0 < hi_m - lo_m)%Q as Hpos by lra.
    assert (0 <= (magnitude - lo_m) / (hi_m - lo_m))%Q as Hp0.
    { apply Qle_shift_div_l; [exact Hpos|]. lra. }
    assert ((magnitude - lo_m) / (hi_m - lo_m) <= 1)%Q as Hp1.
    { apply Qle_shift_div_r; [exact Hpos|]. lra. }
    pose proof (td_mul_between (hi_t - lo_t) _ Hp0 Hp1). lia.
Qed.

Lemma get_magnitude_time_between_witness :
  ∃ lo hi : Q * datetime,
    lo ∈ pre_magnitudes partial_table ∧ hi ∈ pre_magnitudes partial_table
    ∧ (lo.1 <= 0.5)%Q ∧ (0.5 <= hi.1)%Q
    ∧ Z.min lo.2 hi.2 <= 3000000 <= Z.max lo.2 hi.2.
Proof.
  apply (get_magnitude_time_between partial_table 0.5 false 3000000).
  reflexivity.
Defined.

End EventMore.

(** * Facts about [EventParser] *)
Module EventParserFacts.
Import Py Strconv Event EventParser PyFacts EventFacts.

(** The reading of a magnitude line, on the day [date]. *)
Definition reading (date : option Z) (line : matched) : option (Q * datetime) :=
  match line with
  | Magnitude time mag =>
      match parse_time time, date, float mag with
      | Ok time, Some d, Some mag => Some (mag, d * us_per_day + time)
      | _, _, _ => None
      end
  | _ => None
  end.

(** The day of the first contact line of the first form. *)
Fixpoint first_contact_date (file : list matched) : option Z :=
  match file with
  | [] => None
  | Contact_a _ date time :: rest =>
      match parse_date_time (Some date) (Some time) with
      | Ok t => Some (date_of t)
      | Raise _ => None
      end
  | _ :: rest => first_contact_date rest
  end.

(** The day that is the default date once the file is read. *)
Definition final_date (st : locals) (file : list matched) : option Z :=
  match default_date st with
  | Some d => Some d
  | None => first_contact_date file
  end.

(** Nothing is in [post_mags] before the parser has switched to it. *)
Definition post_unused (st : locals) : Prop :=
  to_post st = false → post_mags st = [].

Lemma Magnitude_or_not (line : matched) :
  (∃ time mag, line = Magnitude time mag) ∨ (∀ time mag, line ≠ Magnitude time mag).
Proof. destruct line; try (by right); left; eauto. Qed.

(** The locals after the two tests on [prev_mag], before the reading is
    appended. *)
Definition switched (st : locals) (mag : Q) : locals :=
  if prev_truthy (prev_mag st) && below mag (prev_mag st)
  then {| events := events st; prev_mag := Stopped;
          pre_mags := pre_mags st; post_mags := post_mags st;
          to_post := true; max_magnitude := max_magnitude st;
          default_date := default_date st |}
  else if prev_truthy (prev_mag st)
  then {| events := events st; prev_mag := Prev mag;
          pre_mags := pre_mags st; post_mags := post_mags st;
          to_post := to_post st; max_magnitude := max_magnitude st;
          default_date := default_date st |}
  else st.

Lemma switched_fields (st : locals) (mag : Q) :
  pre_mags (switched st mag) = pre_mags st
  ∧ post_mags (switched st mag) = post_mags st
  ∧ default_date (switched st mag) = default_date st
  ∧ to_post (switched st mag)
    = to_post st || (prev_truthy (prev_mag st) && below mag (prev_mag st)).
Proof.
  unfold switched.
  destruct (prev_truthy (prev_mag st)), (below mag (prev_mag st));
    cbn [andb pre_mags post_mags default_date to_post];
    by rewrite ?orb_true_r, ?orb_false_r.
Qed.

Lemma parse_line_Magnitude (st st' : locals) (time mag : string) :
  parse_line st (Magnitude time mag) = Ok st' →
  ∃ tod d q,
    parse_time time = Ok tod ∧ default_date st = Some d ∧ float mag = Some q
    ∧ st' = append (switched st q) (q, d * us_per_day + tod).
Proof.
  cbn [parse_line]. intros H.
  destruct (parse_time time) as [tod|e]; [|discriminate].
  destruct (default_date st) as [d|] eqn:Hd; [|discriminate].
  destruct (float mag) as [q|]; [|discriminate].
  cbn [combine of_option mbind res_bind] in H. injection H as <-.
  exists tod, d, q. unfold switched. by rewrite Hd.
Qed.

(** What a line other than a magnitude line leaves alone. *)
Lemma parse_line_other (st st' : locals) (line : matched) :
  (∀ time mag, line ≠ Magnitude time mag) →
  parse_line st line = Ok st' →
  prev_mag st' = prev_mag st ∧ pre_mags st' = pre_mags st
  ∧ post_mags st' = post_mags st ∧ to_post st' = to_post st.
Proof.
  intros Hline H.
  destruct line as [num date time|num date time|date time|text|time mag|];
    cbn [parse_line] in *;
    try (destruct (parse_date_time _ _) as [t|e]; [|discriminate]);
    try (by injection H as <-).
  by destruct (Hline time mag).
Qed.

Lemma final_date_cons (st st' : locals) (line : matched) (rest : list matched) :
  parse_line st line = Ok st' →
  final_date st' rest = final_date st (line :: rest).
Proof.
  intros H. unfold final_date.
  destruct line as [num date time|num date time|date time|text|time mag|];
    cbn [parse_line first_contact_date] in *.
  - destruct (parse_date_time _ _) as [t|e]; [|discriminate].
    injection H as <-. cbn. by destruct (default_date st).
  - destruct (parse_date_time _ _) as [t|e]; [|discriminate].
    by injection H as <-.
  - destruct (parse_date_time _ _) as [t|e]; [|discriminate].
    by injection H as <-.
  - by injection H as <-.
  - apply parse_line_Magnitude in H as (tod & d & q & _ & Hd & _ & ->).
    destruct (switched_fields st q) as (_ & _ & Hdd & _).
    cbn [append default_date]. by rewrite Hdd, Hd.
  - by injection H as <-.
Qed.

Lemma post_unused_append (st : locals) (mag : Q) (x : Q * datetime) :
  post_unused st →
  post_unused (append (switched st mag) x)
  ∧ pre_mags (append (switched st mag) x) ++ post_mags (append (switched st mag) x)
    = (pre_mags st ++ post_mags st) ++ [x].
Proof.
  unfold post_unused. intros Hpu.
  destruct (switched_fields st mag) as (Hpre & Hpost & _ & Hto).
  cbn [append to_post pre_mags post_mags]. rewrite Hpre, Hpost.
  destruct (to_post (switched st mag)) eqn:Hs.
  - split; [discriminate|]. by rewrite app_assoc.
  - symmetry in Hto. apply orb_false_iff in Hto as [Hto _].
    rewrite (Hpu Hto). split; [done|]. by rewrite !app_nil_r.
Qed.

Lemma parse_lines_readings (file : list matched) (st st' : locals) :
  post_unused st →
  parse_lines st file = Ok st' →
  post_unused st'
  ∧ pre_mags st' ++ post_mags st'
    = (pre_mags st ++ post_mags st) ++ omap (reading (final_date st file)) file.
Proof.
  revert st. induction file as [|line rest IH]; intros st Hpu H.
  - injection H as <-. by rewrite app_nil_r.
  - cbn [parse_lines] in H.
    destruct (parse_line st line) as [st1|e] eqn:Hline; [|discriminate].
    cbn [mbind res_bind] in H.
    pose proof (final_date_cons _ _ _ rest Hline) as Hfd.
    destruct (Magnitude_or_not line) as [(time & mag & ->)|Hne].
    + apply parse_line_Magnitude in Hline as (tod & d & q & Htod & Hd & Hq & ->).
      destruct (post_unused_append st q (q, d * us_per_day + tod) Hpu)
        as [Hpu1 Happ].
      destruct (IH _ Hpu1 H) as (Hpu' & Hlists).
      split; [exact Hpu'|]. rewrite Hfd, Happ in Hlists. rewrite Hlists.
      unfold final_date at 2. rewrite Hd.
      rewrite <- app_assoc. f_equal.
      assert (reading (Some d) (Magnitude time mag)
              = Some (q, d * us_per_day + tod)) as Hr
        by (cbn [reading]; by rewrite Htod, Hq).
      change (omap (reading (Some d)) (Magnitude time mag :: rest))
        with (match reading (Some d) (Magnitude time mag) with
              | Some y => y :: omap (reading (Some d)) rest
              | None => omap (reading (Some d)) rest
              end).
      rewrite Hr. cbn [app]. do 2 f_equal.
      unfold final_date. by rewrite Hd.
    + destruct (parse_line_other _ _ _ Hne Hline) as (Hp & Hpre & Hpost & Hto).
      assert (Hpu1 : post_unused st1)
        by (unfold post_unused in *; rewrite Hto, Hpost; exact Hpu).
      destruct (IH _ Hpu1 H) as (Hpu' & Hlists).
      split; [exact Hpu'|]. rewrite Hfd in Hlists.
      rewrite Hlists, Hpre, Hpost. f_equal.
      destruct line; try reflexivity. by destruct (Hne time mag).
Qed.

Lemma parse_inv (file : list matched) (em : EventManager) :
  parse file = Ok em →
  ∃ st, parse_lines locals_init file = Ok st
        ∧ pre_magnitudes em = pre_mags st
        ∧ post_magnitudes em = reverse (post_mags st).
Proof.
  unfold parse. intros H.
  destruct (parse_lines locals_init file) as [st|e]; [|discriminate].
  exists st. split; [reflexivity|].
  cbn [mbind res_bind] in H. unfold EventManager_init in H.
  destruct (match EventParser.max_magnitude st with
            | Some (String _ _ as s) => of_option ValueError (float s)
            | _ => Ok 1%Q
            end) as [m|e]; [|discriminate].
  cbn [mbind res_bind] in H. by injection H as <-.
Qed.

(** X21.  The parser keeps every magnitude reading of the timing file,
    in the order of the file: the readings up to the switch are the
    pre-maximum table, the others the post-maximum table (which the event
    manager stores reversed).  Each reading has the day of the first
    contact line of the first form. *)
Theorem parse_keeps_readings_in_order (file : list matched) (em : EventManager) :
  parse file = Ok em →
  pre_magnitudes em ++ reverse (post_magnitudes em)
  = omap (reading (first_contact_date file)) file.
Proof.
  intros (st & Hst & -> & ->)%parse_inv. rewrite reverse_involutive.
  destruct (parse_lines_readings file locals_init st) as (_ & H);
    [done|exact Hst|].
  exact H.
Qed.

(** Partial eclipse of 2024-04-08: first contact, three readings going
    up, two going down. *)
Definition april_file : list matched :=
  [Contact_a "1" "2024/04/08" "17:00:00.0";
   Max_magnitude "0.95";
   Magnitude "17:10:00.0" "0.2";
   Magnitude "17:40:00.0" "0.6";
   Magnitude "18:10:00.0" "0.95";
   Magnitude "18:40:00.0" "0.6";
   Magnitude "19:10:00.0" "0.2"].

Definition april_day : Z := 63848131200000000.

Definition april_events : EventManager :=
  {| Event.events := <["C1" := april_day + 61200000000]> ∅;
     pre_magnitudes := [(0.2%Q, april_day + 61800000000);
                        (0.6%Q, april_day + 63600000000);
                        (0.95%Q, april_day + 65400000000)];
     post_magnitudes := [(0.2%Q, april_day + 69000000000);
                         (0.6%Q, april_day + 67200000000)];
     Event.max_magnitude := 0.95 |}.

Lemma parse_april_file : parse april_file = Ok april_events.
Proof. vm_compute. reflexivity. Qed.

Lemma parse_keeps_readings_in_order_witness :
  pre_magnitudes april_events ++ reverse (post_magnitudes april_events)
  = omap (reading (first_contact_date april_file)) april_file.
Proof.
  apply (parse_keeps_readings_in_order april_file april_events).
  exact parse_april_file.
Defined.

(** ** The switch to the post-maximum table *)

(** No magnitude line of the file reads zero. *)
Definition no_zero_reading (file : list matched) : Prop :=
  ∀ time mag q, Magnitude time mag ∈ file → float mag = Some q → ¬ (q == 0)%Q.

Definition mag_le (a b : Q * datetime) : Prop := (a.1 <= b.1)%Q.

(** The state of the parser between two lines, when no reading is zero:
    before the switch the pre-maximum table never goes down and
    [prev_mag] is its last magnitude; after the switch the first reading
    of the post-maximum table is below the last of the pre-maximum
    table. *)
Definition tracking (st : locals) : Prop :=
  Sorted mag_le (pre_mags st)
  ∧ if to_post st
    then prev_mag st = Stopped
         ∧ ∃ p r, last (pre_mags st) = Some p ∧ head (post_mags st) = Some r
                  ∧ (r.1 < p.1)%Q
    else post_mags st = []
         ∧ match last (pre_mags st) with
           | None => prev_mag st = Minus_inf
           | Some p => prev_mag st = Prev p.1 ∧ ¬ (p.1 == 0)%Q
           end.

Lemma Sorted_snoc {A} (R : A → A → Prop) (l : list A) (x : A) :
  Sorted R l → (∀ p, last l = Some p → R p x) → Sorted R (l ++ [x]).
Proof.
  induction 1 as [|y l Hl IH Hy]; intros Hx; [repeat constructor|].
  cbn [app]. constructor.
  - apply IH. intros p Hp. apply Hx.
    destruct l; [discriminate|exact Hp].
  - destruct Hy as [|z l' Hyz]; cbn [app]; constructor; [|exact Hyz].
    by apply Hx.
Qed.

Lemma Qis_zero_false (q : Q) : ¬ (q == 0)%Q → Qis_zero q = false.
Proof.
  intros H. unfold Qis_zero. apply not_true_is_false. by rewrite Qeq_bool_iff.
Qed.

Lemma tracking_Magnitude (st : locals) (q : Q) (x : datetime) :
  tracking st → ¬ (q == 0)%Q → tracking (append (switched st q) (q, x)).
Proof.
  intros [Hs Ht] Hq. unfold tracking, switched.
  destruct (to_post st) eqn:Hto.
  - destruct Ht as (Hprev & p & r & Hp & Hr & Hlt). rewrite Hprev.
    cbn [prev_truthy andb append to_post pre_mags post_mags prev_mag].
    rewrite ?Hto. split; [exact Hs|]. split; [exact Hprev|].
    exists p, r. split; [exact Hp|]. split; [|exact Hlt].
    destruct (post_mags st); [discriminate|exact Hr].
  - destruct Ht as [Hpost Hlast].
    destruct (last (pre_mags st)) as [p|] eqn:Hp.
    + destruct Hlast as [-> Hp0].
      cbn [prev_truthy below]. rewrite (Qis_zero_false _ Hp0). cbn [negb andb].
      destruct (Qltb q p.1) eqn:Hlt.
      * cbn [append to_post pre_mags post_mags prev_mag].
        split; [exact Hs|]. split; [reflexivity|].
        exists p, (q, x). rewrite Hpost. repeat split; [exact Hp|].
        cbn [fst]. unfold Qltb in Hlt. apply negb_true_iff in Hlt.
        apply Qnot_le_lt. intros Hle%Qle_bool_iff. congruence.
      * cbn [append to_post pre_mags post_mags prev_mag]. rewrite ?Hto.
        split.
        -- apply Sorted_snoc; [exact Hs|]. intros p' Hp'.
           rewrite Hp in Hp'. injection Hp' as <-.
           unfold mag_le. cbn [fst]. unfold Qltb in Hlt.
           apply negb_false_iff in Hlt. by apply Qle_bool_iff.
        -- split; [exact Hpost|]. rewrite last_snoc. by split.
    + rewrite Hlast. cbn [prev_truthy below andb].
      cbn [append to_post pre_mags post_mags prev_mag]. rewrite ?Hto.
      split.
      * apply Sorted_snoc; [exact Hs|]. intros p' Hp'. congruence.
      * split; [exact Hpost|]. rewrite last_snoc. by split.
Qed.

Lemma parse_lines_tracking (file : list matched) (st st' : locals) :
  no_zero_reading file → tracking st →
  parse_lines st file = Ok st' → tracking st'.
Proof.
  revert st. induction file as [|line rest IH]; intros st Hnz Ht H.
  - by injection H as <-.
  - cbn [parse_lines] in H.
    destruct (parse_line st line) as [st1|e] eqn:Hline; [|discriminate].
    cbn [mbind res_bind] in H.
    assert (Hnz' : no_zero_reading rest).
    { intros time mag q Hin. apply (Hnz time mag q). by right. }
    apply (IH st1 Hnz'); [|exact H].
    destruct (Magnitude_or_not line) as [(time & mag & ->)|Hne].
    + apply parse_line_Magnitude in Hline as (tod & d & q & Htod & Hd & Hq & ->).
      apply tracking_Magnitude; [exact Ht|].
      apply (Hnz time mag q); [left|exact Hq].
    + destruct (parse_line_other _ _ _ Hne Hline) as (Hp & Hpre & Hpost & Hto).
      unfold tracking in *. by rewrite Hp, Hpre, Hpost, Hto.
Qed.

Lemma StronglySorted_lookup {A} (R : A → A → Prop) (l : list A) (i j : nat)
  (a b : A) :
  StronglySorted R l → (i < j)%nat → l !! i = Some a → l !! j = Some b → R a b.
Proof.
  intros Hs. revert i j. induction Hs as [|x l Hs IH Hx]; intros i j Hij Ha Hb.
  - discriminate.
  - destruct j as [|j]; [lia|]. cbn in Hb. destruct i as [|i].
    + injection Ha as <-. rewrite Forall_forall in Hx. apply Hx.
      by eapply list_elem_of_lookup_2.
    + cbn in Ha. apply (IH i j); [lia|done|done].
Qed.

Lemma Sorted_ascending (l : list (Q * datetime)) :
  Sorted mag_le l → ascending fst l.
Proof.
  intros Hs.
  assert (Transitive mag_le) by (intros a b c; unfold mag_le; apply Qle_trans).
  apply Sorted_StronglySorted in Hs; [|done].
  intros i j a b Hij Ha Hb.
  destruct (decide (i = j)) as [->|Hne].
  - rewrite Ha in Hb. injection Hb as <-. apply Qle_refl.
  - apply (StronglySorted_lookup mag_le l i j a b); [exact Hs|lia|exact Ha|exact Hb].
Qed.

(** X22.  When no magnitude line reads zero, the parser switches to the
    post-maximum table at the first reading that is below the one before
    it, and never switches back.  So the pre-maximum table of the event
    manager never goes down: it is ascending in the sense the lookup
    needs.  If there is a post-maximum table, its first reading in file
    order is strictly below the last reading of the pre-maximum table. *)
Theorem parse_splits_at_first_descent (file : list matched) (em : EventManager) :
  no_zero_reading file →
  parse file = Ok em →
  ascending fst (pre_magnitudes em)
  ∧ (post_magnitudes em = []
     ∨ ∃ p r, last (pre_magnitudes em) = Some p
              ∧ last (post_magnitudes em) = Some r ∧ (r.1 < p.1)%Q).
Proof.
  intros Hnz (st & Hst & -> & ->)%parse_inv.
  assert (Ht : tracking st).
  { apply (parse_lines_tracking file locals_init); [exact Hnz| |exact Hst].
    split; [constructor|]. by cbn. }
  destruct Ht as [Hs Ht]. split; [by apply Sorted_ascending|].
  destruct (to_post st).
  - right. destruct Ht as (_ & p & r & Hp & Hr & Hlt). exists p, r.
    split; [exact Hp|]. split; [|exact Hlt].
    by rewrite last_reverse.
  - left. destruct Ht as [-> _]. reflexivity.
Qed.

Lemma parse_splits_at_first_descent_witness :
  ascending fst (pre_magnitudes april_events)
  ∧ (post_magnitudes april_events = []
     ∨ ∃ p r, last (pre_magnitudes april_events) = Some p
              ∧ last (post_magnitudes april_events) = Some r ∧ (r.1 < p.1)%Q).
Proof.
  apply (parse_splits_at_first_descent april_file april_events).
  - intros time mag q Hin Hq.
    repeat (apply elem_of_cons in Hin as [Hin|Hin];
            [try discriminate; injection Hin as -> ->; vm_compute in Hq;
             injection Hq as <-; discriminate|]).
    by apply elem_of_nil in Hin.
  - exact parse_april_file.
Defined.

(** ** A reading of zero *)

Lemma parse_lines_frozen (file : list matched) (st st' : locals) :
  to_post st = false → prev_truthy (prev_mag st) = false →
  parse_lines st file = Ok st' →
  to_post st' = false ∧ post_mags st' = post_mags st.
Proof.
  revert st. induction file as [|line rest IH]; intros st Hto Hp H.
  - by injection H as <-.
  - cbn [parse_lines] in H.
    destruct (parse_line st line) as [st1|e] eqn:Hline; [|discriminate].
    cbn [mbind res_bind] in H.
    destruct (Magnitude_or_not line) as [(time & mag & ->)|Hne].
    + apply parse_line_Magnitude in Hline as (tod & d & q & _ & _ & _ & ->).
      unfold switched in H. rewrite Hp in H. cbn [andb] in H.
      destruct (IH (append st (q, d * us_per_day + tod)) Hto Hp H) as [H1 H2].
      split; [exact H1|]. rewrite H2. cbn [append post_mags]. by rewrite Hto.
    + destruct (parse_line_other _ _ _ Hne Hline) as (Hp1 & _ & Hpost & Hto1).
      destruct (IH st1 ltac:(by rewrite Hto1) ltac:(by rewrite Hp1) H) as [H1 H2].
      split; [exact H1|]. by rewrite H2.
Qed.

Lemma parse_lines_app (file1 file2 : list matched) (st : locals) :
  parse_lines st (file1 ++ file2)
  = st' ← parse_lines st file1; parse_lines st' file2.
Proof.
  revert st. induction file1 as [|line rest IH]; intros st; [reflexivity|].
  cbn [app parse_lines]. destruct (parse_line st line); [apply IH|reflexivity].
Qed.

Lemma parse_lines_no_reading (file : list matched) (st st' : locals) :
  (∀ time mag, Magnitude time mag ∉ file) →
  parse_lines st file = Ok st' →
  prev_mag st' = prev_mag st ∧ pre_mags st' = pre_mags st
  ∧ post_mags st' = post_mags st ∧ to_post st' = to_post st.
Proof.
  revert st. induction file as [|line rest IH]; intros st Hno H.
  - by injection H as <-.
  - cbn [parse_lines] in H.
    destruct (parse_line st line) as [st1|e] eqn:Hline; [|discriminate].
    cbn [mbind res_bind] in H.
    assert (Hne : ∀ time mag, line ≠ Magnitude time mag)
      by (intros time mag ->; apply (Hno time mag); left).
    destruct (parse_line_other _ _ _ Hne Hline) as (Hp & Hpre & Hpost & Hto).
    assert (Hno' : ∀ time mag, Magnitude time mag ∉ rest)
      by (intros time mag Hin; apply (Hno time mag); by right).
    destruct (IH st1 Hno' H) as (H1 & H2 & H3 & H4).
    by rewrite H1, H2, H3, H4.
Qed.

(** X23.  A first magnitude reading of zero stops the search for the
    maximum before it has begun: [prev_mag] becomes [0.0], which counts
    as false, so the magnitudes are never compared again.  Every reading
    of the file is then put in the pre-maximum table, the post-maximum
    table stays empty, and every lookup in it raises [TypeError]. *)
Theorem zero_reading_stops_the_switch (before rest : list matched)
  (time mag : string) (q : Q) (em : EventManager) :
  (∀ time' mag', Magnitude time' mag' ∉ before) →
  float mag = Some q → (q == 0)%Q →
  parse (before ++ Magnitude time mag :: rest) = Ok em →
  post_magnitudes em = []
  ∧ pre_magnitudes em
    = omap (reading (first_contact_date (before ++ Magnitude time mag :: rest)))
           (before ++ Magnitude time mag :: rest)
  ∧ ∀ target, get_magnitude_time em target true = Raise TypeError.
Proof.
  intros Hno Hq Hz Hparse.
  destruct (parse_inv _ _ Hparse) as (st & Hst & Hpre & Hpost).
  assert (Hempty : post_mags st = []).
  { rewrite parse_lines_app in Hst.
    destruct (parse_lines locals_init before) as [st0|e] eqn:H0; [|discriminate].
    cbn [mbind res_bind] in Hst.
    destruct (parse_lines_no_reading _ _ _ Hno H0) as (Hp0 & _ & Hpost0 & Hto0).
    cbn [parse_lines] in Hst.
    destruct (parse_line st0 (Magnitude time mag)) as [st1|e] eqn:H1; [|discriminate].
    cbn [mbind res_bind] in Hst.
    apply parse_line_Magnitude in H1 as (tod & d & q' & _ & _ & Hq' & ->).
    rewrite Hq in Hq'. injection Hq' as <-.
    unfold switched in Hst.
    rewrite Hp0 in Hst. cbn [locals_init prev_mag prev_truthy below andb] in Hst.
    apply parse_lines_frozen in Hst as [_ Hst].
    - rewrite Hst. cbn [append post_mags to_post]. by rewrite Hto0, Hpost0.
    - cbn [append to_post]. by rewrite Hto0.
    - cbn [append prev_mag prev_truthy]. unfold Qis_zero.
      apply negb_false_iff. by apply Qeq_bool_iff. }
  assert (Hpost' : post_magnitudes em = []) by (by rewrite Hpost, Hempty).
  split; [exact Hpost'|]. split.
  - destruct (parse_lines_readings _ locals_init st ltac:(done) Hst) as (_ & H).
    rewrite Hempty, app_nil_r in H. by rewrite Hpre, H.
  - intros target. apply get_magnitude_time_out_of_range. rewrite Hpost'.
    by left.
Qed.

Lemma zero_reading_stops_the_switch_witness :
  ∃ em, parse [Contact_a "1" "2024/04/08" "17:00:00.0";
               Magnitude "17:00:00.0" "0.0";
               Magnitude "18:10:00.0" "0.95";
               Magnitude "19:10:00.0" "0.2"] = Ok em
        ∧ post_magnitudes em = []
        ∧ ∀ target, get_magnitude_time em target true = Raise TypeError.
Proof.
  eexists. split; [vm_compute; reflexivity|].
  refine (let H := zero_reading_stops_the_switch
            [Contact_a "1" "2024/04/08" "17:00:00.0"]
            [Magnitude "18:10:00.0" "0.95"; Magnitude "19:10:00.0" "0.2"]
            "17:00:00.0" "0.0" (0 # 10) _ _ _ _ _ in conj (proj1 H) (proj2 (proj2 H))).
  - intros time' mag' Hin. apply list_elem_of_singleton in Hin. discriminate.
  - reflexivity.
  - reflexivity.
  - vm_compute. reflexivity.
Defined.

End EventParserFacts.

(** * Facts about [camera/calculations.py] and [camera/controllers.py] *)
Module ControllersFacts.
Import Py Calculations Controllers PyFacts StrconvMore.

(** ** The order of the keys *)

Lemma Qltb_irrefl (x : Q) : Qltb x x = false.
Proof. unfold Qltb. apply negb_false_iff, Qle_bool_iff, Qle_refl. Qed.

Lemma Qltb_spec (x y : Q) : Qltb x y = true ↔ (x < y)%Q.
Proof.
  unfold Qltb. rewrite negb_true_iff. split.
  - intros H. apply Qnot_le_lt. intros Hle%Qle_bool_iff. congruence.
  - intros H. apply not_true_is_false. intros Hle%Qle_bool_iff.
    by apply Qlt_not_le in H.
Qed.

Lemma Qltb_ge (x y : Q) : Qltb x y = false ↔ (y <= x)%Q.
Proof. unfold Qltb. rewrite negb_false_iff. apply Qle_bool_iff. Qed.

Lemma key_lt_irrefl (a : option Q) : key_lt a a = false.
Proof. destruct a; [apply Qltb_irrefl|reflexivity]. Qed.

Lemma key_lt_asym (a b : option Q) : key_lt a b = true → key_lt b a = false.
Proof.
  destruct a as [x|], b as [y|]; cbn; try done.
  rewrite Qltb_spec, Qltb_ge. apply Qlt_le_weak.
Qed.

Lemma key_lt_le_trans (a b c : option Q) :
  key_lt a b = true → key_lt c b = false → key_lt a c = true.
Proof.
  destruct a as [x|], b as [y|], c as [z|]; cbn; try done.
  rewrite !Qltb_spec, Qltb_ge. apply Qlt_le_trans.
Qed.

Lemma key_le_trans (a b c : option Q) :
  key_lt b a = false → key_lt c b = false → key_lt c a = false.
Proof.
  destruct a as [x|], b as [y|], c as [z|]; cbn; try done.
  rewrite !Qltb_ge. intros H1 H2. by apply Qle_trans with y.
Qed.

(** ** [find_nearest] *)

Section find_nearest_facts.
Context {A : Type}.
Variable abs_diff : A → A → Q.

(** The result of [min] is the first of the items with the smallest
    key. *)
Lemma min_from_spec (value : option A) (rest : list (nat * option A))
  (best : nat * option A) :
  let r := min_from abs_diff value best rest in
  (r = best
   ∨ ∃ pre post, rest = pre ++ r :: post
       ∧ ∀ y, y ∈ best :: pre → key_lt (key abs_diff value r) (key abs_diff value y) = true)
  ∧ ∀ y, y ∈ best :: rest → key_lt (key abs_diff value y) (key abs_diff value r) = false.
Proof.
  cbv zeta. revert best. induction rest as [|x rest IH]; intros best.
  - cbn [min_from]. split; [by left|].
    intros y ->%list_elem_of_singleton. apply key_lt_irrefl.
  - cbn [min_from].
    destruct (key_lt (key abs_diff value x) (key abs_diff value best)) eqn:Hx.
    + destruct (IH x) as [Hpos Hmin].
      remember (min_from abs_diff value x rest) as r eqn:Hr. clear Hr. split.
      * right. destruct Hpos as [->|(pre & post & -> & Hpre)].
        -- exists [], rest. split; [reflexivity|].
           intros y ->%list_elem_of_singleton. exact Hx.
        -- exists (x :: pre), post. split; [reflexivity|].
           intros y [->|Hy]%elem_of_cons; [|by apply Hpre].
           apply key_lt_le_trans with (key abs_diff value x); [apply Hpre; left|].
           by apply key_lt_asym.
      * intros y [->|Hy]%elem_of_cons; [|by apply Hmin].
        apply key_le_trans with (key abs_diff value x); [apply Hmin; left|].
        by apply key_lt_asym.
    + destruct (IH best) as [Hpos Hmin].
      remember (min_from abs_diff value best rest) as r eqn:Hr. clear Hr. split.
      * destruct Hpos as [->|(pre & post & -> & Hpre)]; [by left|right].
        exists (x :: pre), post. split; [reflexivity|].
        intros y [->|[->|Hy]%elem_of_cons]%elem_of_cons.
        -- apply Hpre. left.
        -- apply key_lt_le_trans with (key abs_diff value best); [apply Hpre; left|exact Hx].
        -- apply Hpre. by right.
      * intros y [->|[->|Hy]%elem_of_cons]%elem_of_cons.
        -- apply Hmin. left.
        -- apply key_le_trans with (key abs_diff value best); [apply Hmin; left|exact Hx].
        -- apply Hmin. by right.
Qed.

Lemma imap_pair_lookup (l : list (option A)) (k : nat) (j : nat) (y : option A) :
  imap (fun i => pair (k + i)%nat) l !! j = Some (k + j, y)%nat ↔ l !! j = Some y.
Proof.
  rewrite list_lookup_imap. destruct (l !! j) as [z|]; cbn; [|done].
  split; [by intros [= ->]|by intros [= ->]].
Qed.

Lemma imap_pair_elem (l : list (option A)) (j : nat) (y : option A) :
  (j, y) ∈ imap pair l ↔ l !! j = Some y.
Proof.
  rewrite list_elem_of_lookup. split.
  - intros (i & Hi). rewrite list_lookup_imap in Hi.
    destruct (l !! i) as [z|] eqn:Hz; [|discriminate].
    cbn in Hi. by injection Hi as <- <-.
  - intros Hj. exists j. rewrite list_lookup_imap, Hj. reflexivity.
Qed.

Lemma find_nearest_spec (iterable : list (option A)) (value : option A) :
  match find_nearest abs_diff iterable value with
  | Raise e => e = ValueError ∧ iterable = []
  | Ok (i, x) =>
      iterable !! i = Some x
      ∧ (∀ j y, iterable !! j = Some y →
                key_lt (key abs_diff value (j, y)) (key abs_diff value (i, x)) = false)
      ∧ (∀ j y, (j < i)%nat → iterable !! j = Some y →
                key_lt (key abs_diff value (i, x)) (key abs_diff value (j, y)) = true)
  end.
Proof.
  unfold find_nearest.
  destruct (imap pair iterable) as [|best rest] eqn:Him.
  - split; [reflexivity|]. by destruct iterable.
  - pose proof (min_from_spec value rest best) as [Hpos Hmin]. cbv zeta in *.
    destruct (min_from abs_diff value best rest) as [i x] eqn:Hr.
    assert (Hin : (i, x) ∈ imap pair iterable).
    { rewrite Him. destruct Hpos as [<-|(pre & post & -> & _)]; [left|].
      right. apply elem_of_app. right. left. }
    split; [by apply imap_pair_elem|]. split.
    + intros j y Hj. apply Hmin. rewrite <- Him. by apply imap_pair_elem.
    + intros j y Hji Hj.
      destruct Hpos as [<-|(pre & post & -> & Hpre)].
      * assert (imap pair iterable !! 0%nat = Some (i, x)) as H0
          by (by rewrite Him).
        rewrite list_lookup_imap in H0.
        destruct (iterable !! 0%nat); [|discriminate]. cbn in H0.
        injection H0 as <- _. lia.
      * apply Hpre.
        assert (Hlen : i = length (best :: pre)).
        { assert (imap pair iterable !! length (best :: pre) = Some (i, x)) as Hl.
          { rewrite Him. rewrite (app_comm_cons pre _ best).
            by rewrite list_lookup_middle. }
          rewrite list_lookup_imap in Hl.
          destruct (iterable !! length (best :: pre)); [|discriminate].
          cbn in Hl. by injection Hl as <- _. }
        assert (Hjl : imap pair iterable !! j = Some (j, y))
          by (rewrite list_lookup_imap, Hj; reflexivity).
        rewrite Him, (app_comm_cons pre _ best) in Hjl.
        rewrite lookup_app_l in Hjl by lia.
        by eapply list_elem_of_lookup_2.
Qed.

(** When every key is infinite, [min] returns the first item. *)
Lemma min_from_all_inf (value : option A) (rest : list (nat * option A))
  (best : nat * option A) :
  (∀ y, y ∈ rest → key abs_diff value y = None) → min_from abs_diff value best rest = best.
Proof.
  revert best. induction rest as [|x rest IH]; intros best H; [reflexivity|].
  cbn [min_from]. rewrite (H x) by left. cbn [key_lt].
  apply IH. intros y Hy. apply H. by right.
Qed.

(** X24.  [find_nearest] raises [ValueError] exactly on an empty list.
    Otherwise it returns an entry of the list with its index, the first
    of the entries whose distance [abs(value - x)] from the value is the
    smallest, an entry [None] counting as infinitely far; the argument
    [distance] plays no part.  If the value itself is [None], every
    entry is infinitely far and the first entry is returned. *)
Theorem find_nearest_first_minimum (iterable : list (option A))
  (value : option A) :
  (find_nearest abs_diff iterable value = Raise ValueError ↔ iterable = [])
  ∧ (∀ i x, find_nearest abs_diff iterable value = Ok (i, x) →
       iterable !! i = Some x
       ∧ (∀ j y, iterable !! j = Some y →
                 key_lt (key abs_diff value (j, y)) (key abs_diff value (i, x)) = false)
       ∧ (∀ j y, (j < i)%nat → iterable !! j = Some y →
                 key_lt (key abs_diff value (i, x)) (key abs_diff value (j, y)) = true))
  ∧ (∀ x rest, iterable = x :: rest →
       find_nearest abs_diff iterable None = Ok (0%nat, x)).
Proof.
  pose proof (find_nearest_spec iterable value) as Hs.
  split; [|split].
  - split.
    + intros H. rewrite H in Hs. apply Hs.
    + by intros ->.
  - intros i x H. by rewrite H in Hs.
  - intros x rest ->. unfold find_nearest. cbn [imap]. f_equal.
    apply min_from_all_inf. intros [j y] _. unfold key.
    by destruct y.
Qed.

End find_nearest_facts.

Lemma find_nearest_first_minimum_witness :
  find_nearest abs_diff_int [Some 100; None; Some 400; Some 200] None
  = Ok (0%nat, Some 100).
Proof.
  apply (proj2 (proj2 (find_nearest_first_minimum abs_diff_int
           [Some 100; None; Some 400; Some 200] (Some 300)))
           (Some 100) [None; Some 400; Some 200]).
  reflexivity.
Defined.

(** ** [IsoController] *)

(** The lists of the controller are those its constructor makes from
    the choices. *)
Definition iso_built (self : IsoController) : Prop :=
  mapM iso_int (iso_strs self) = Ok (iso_ints self).

Lemma mapM_length {A B} (f : A → res B) (l : list A) (l' : list B) :
  mapM f l = Ok l' → length l' = length l.
Proof.
  revert l'. induction l as [|x l IH]; intros l' H.
  - by injection H as <-.
  - cbn [mapM] in H. destruct (f x) as [y|e]; [|discriminate].
    destruct (mapM f l) as [ys|e]; [|discriminate].
    cbn in H. injection H as <-. cbn. f_equal. by apply IH.
Qed.

Lemma mapM_lookup {A B} (f : A → res B) (l : list A) (l' : list B) (i : nat) :
  mapM f l = Ok l' →
  match l !! i with
  | Some x => ∃ y, f x = Ok y ∧ l' !! i = Some y
  | None => l' !! i = None
  end.
Proof.
  revert l' i. induction l as [|x l IH]; intros l' i H.
  - by injection H as <-.
  - cbn [mapM] in H. destruct (f x) as [y|e] eqn:Hx; [|discriminate].
    destruct (mapM f l) as [ys|e] eqn:Hl; [|discriminate].
    cbn in H. injection H as <-.
    destruct i as [|i]; cbn; [by exists y|]. by apply IH.
Qed.

Lemma isdigit_int (x : string) : isdigit x = true → is_Some (int x).
Proof.
  intros H.
  assert (Hd : is_digits x = true).
  { destruct x as [|c x]; [discriminate|]. unfold isdigit in H.
    remember (String c x) as s eqn:Hs. clear Hs.
    induction s as [|c' s IH]; [reflexivity|].
    cbn in H. apply andb_true_iff in H as [H1 H2].
    cbn. rewrite H1. by apply IH. }
  unfold int. rewrite (strip_digits _ Hd).
  assert (Hu : is_Some (unsigned_val x)).
  { unfold unsigned_val. destruct x as [|c x]; [discriminate|].
    remember (String c x) as s eqn:Hs. clear Hs H.
    generalize 0. induction s as [|c' s IH]; intros acc; [by eexists|].
    cbn in Hd. apply andb_true_iff in Hd as [[d Hc]%bool_decide_eq_true Hd].
    cbn. rewrite Hc. by apply IH. }
  destruct x as [|c x]; [discriminate|].
  destruct Hu as [n Hn].
  assert (c ≠ "-"%char ∧ c ≠ "+"%char) as [Hm Hp].
  { cbn in Hd. apply andb_true_iff in Hd as [[d Hc]%bool_decide_eq_true _].
    split; intros ->; discriminate. }
  assert (int_body : match String c x with
                     | String "-" t => Z.opp <$> unsigned_val t
                     | String "+" t => unsigned_val t
                     | t => unsigned_val t
                     end = unsigned_val (String c x)).
  { destruct c as [[] [] [] [] [] [] [] []]; try reflexivity; congruence. }
  rewrite int_body, Hn. by eexists.
Qed.

(** The constructor does not raise. *)
Lemma IsoController_init_ok (choices : list string) :
  ∃ self, IsoController_init choices = Ok self
          ∧ iso_built self ∧ iso_strs self = choices
          ∧ iso_map self = ∅ ∧ iso_widget_value self = None.
Proof.
  assert (∃ ints, mapM iso_int choices = Ok ints) as [ints Hints].
  { induction choices as [|x l [ints IH]]; [by eexists|].
    cbn [mapM]. rewrite IH. unfold iso_int at 1.
    destruct (isdigit x) eqn:Hx; [|by eexists].
    destruct (isdigit_int x Hx) as [n ->]. by eexists. }
  unfold IsoController_init. rewrite Hints. eexists. split; [reflexivity|].
  by repeat split.
Qed.

(** The request is found in the list of choices by [find_nearest]. *)
Lemma iso_select_lookup (self : IsoController) (iso : string) (n : Z) :
  iso_built self →
  iso ∉ iso_strs self → iso_map self !! iso = None → int iso = Some n →
  iso_strs self ≠ [] →
  ∃ i x v,
    find_nearest abs_diff_int (iso_ints self) (Some n) = Ok (i, x)
    ∧ iso_strs self !! i = Some v ∧ iso_int v = Ok x
    ∧ iso_select self iso
      = Some {| iso_strs := iso_strs self; iso_ints := iso_ints self;
                iso_map := <[iso := v]> (iso_map self);
                iso_widget_value := Some v |}.
Proof.
  intros Hb Hnot Hmap Hint Hne.
  pose proof (find_nearest_spec abs_diff_int (iso_ints self) (Some n)) as Hs.
  destruct (find_nearest abs_diff_int (iso_ints self) (Some n)) as [[i x]|e] eqn:Hf.
  - destruct Hs as (Hi & _).
    pose proof (mapM_lookup _ _ _ i Hb) as Hl.
    destruct (iso_strs self !! i) as [v|] eqn:Hv; [|congruence].
    destruct Hl as (y & Hy & Hy'). rewrite Hi in Hy'. injection Hy' as <-.
    exists i, x, v. split; [reflexivity|]. split; [exact Hv|].
    split; [exact Hy|].
    unfold iso_select. rewrite bool_decide_eq_false_2 by done.
    rewrite Hmap, Hint. cbn [of_option mbind res_bind]. rewrite Hf, Hv.
    reflexivity.
  - destruct Hs as [_ Hnil]. apply mapM_length in Hb. rewrite Hnil in Hb.
    destruct (iso_strs self); [done|discriminate].
Qed.

(** X25.  For a request that is not itself a choice and is not in the
    cache, [select] sets the widget to the choice whose number is
    nearest to the requested number by absolute difference (not by
    stops), the first such choice in the list on a tie, and remembers it
    for this request.  A choice that is not a number is never preferred
    to one that is. *)
Theorem iso_select_sets_nearest (self : IsoController) (iso : string) (n : Z) :
  iso_built self →
  iso ∉ iso_strs self → iso_map self !! iso = None → int iso = Some n →
  iso_strs self ≠ [] →
  ∃ i v,
    iso_strs self !! i = Some v
    ∧ iso_select self iso
      = Some {| iso_strs := iso_strs self; iso_ints := iso_ints self;
                iso_map := <[iso := v]> (iso_map self);
                iso_widget_value := Some v |}
    ∧ ∀ j w m, iso_strs self !! j = Some w → iso_int w = Ok (Some m) →
        ∃ mv, iso_int v = Ok (Some mv)
              ∧ Z.abs (n - mv) <= Z.abs (n - m)
              ∧ ((j < i)%nat → Z.abs (n - mv) < Z.abs (n - m)).
Proof.
  intros Hb Hnot Hmap Hint Hne.
  destruct (iso_select_lookup self iso n Hb Hnot Hmap Hint Hne)
    as (i & x & v & Hf & Hv & Hx & Hsel).
  exists i, v. split; [exact Hv|]. split; [exact Hsel|].
  intros j w m Hw Hm.
  pose proof (find_nearest_spec abs_diff_int (iso_ints self) (Some n)) as Hs.
  rewrite Hf in Hs. destruct Hs as (_ & Hmin & Hfirst).
  pose proof (mapM_lookup _ _ _ j Hb) as Hl. rewrite Hw in Hl.
  destruct Hl as (y & Hy & Hj). rewrite Hm in Hy. injection Hy as <-.
  specialize (Hmin j (Some m) Hj). specialize (Hfirst j (Some m)).
  unfold key in Hmin, Hfirst. cbn [snd] in Hmin, Hfirst.
  destruct x as [mv|]; [|discriminate].
  exists mv. split; [exact Hx|].
  cbn [key_lt] in Hmin, Hfirst. unfold abs_diff_int in *.
  apply Qltb_ge in Hmin. rewrite <- Zle_Qle in Hmin. split; [exact Hmin|].
  intros Hji. specialize (Hfirst Hji Hj). apply Qltb_spec in Hfirst.
  by rewrite <- Zlt_Qlt in Hfirst.
Qed.

Definition canon_isos : IsoController :=
  {| iso_strs := ["Auto"; "100"; "200"; "400"; "800"];
     iso_ints := [None; Some 100; Some 200; Some 400; Some 800];
     iso_map := ∅; iso_widget_value := None |}.

Lemma iso_select_sets_nearest_witness :
  ∃ i v,
    iso_strs canon_isos !! i = Some v
    ∧ iso_select canon_isos "300"
      = Some {| iso_strs := iso_strs canon_isos; iso_ints := iso_ints canon_isos;
                iso_map := <["300" := v]> (iso_map canon_isos);
                iso_widget_value := Some v |}
    ∧ ∀ j w m, iso_strs canon_isos !! j = Some w → iso_int w = Ok (Some m) →
        ∃ mv, iso_int v = Ok (Some mv)
              ∧ Z.abs (300 - mv) <= Z.abs (300 - m)
              ∧ ((j < i)%nat → Z.abs (300 - mv) < Z.abs (300 - m)).
Proof.
  apply (iso_select_sets_nearest canon_isos "300" 300).
  - reflexivity.
  - intros Hin. by repeat (apply elem_of_cons in Hin as [Hin|Hin]; [discriminate|]);
      apply elem_of_nil in Hin.
  - reflexivity.
  - reflexivity.
  - discriminate.
Defined.

(** ** What every sequence of requests keeps *)

(** A sequence of calls of [select]. *)
Fixpoint iso_selects (self : IsoController) (requests : list string)
  : option IsoController :=
  match requests with
  | [] => Some self
  | iso :: rest => self' ← iso_select self iso; iso_selects self' rest
  end.

(** The widget and the cache hold choices only. *)
Definition iso_consistent (self : IsoController) : Prop :=
  iso_built self
  ∧ (∀ v, iso_widget_value self = Some v → v ∈ iso_strs self)
  ∧ (∀ k v, iso_map self !! k = Some v → v ∈ iso_strs self).

Lemma iso_select_consistent (self : IsoController) (iso : string) :
  iso_consistent self →
  ∃ self', iso_select self iso = Some self'
           ∧ iso_consistent self' ∧ iso_strs self' = iso_strs self.
Proof.
  intros (Hb & Hw & Hm). unfold iso_select.
  destruct (bool_decide (iso ∈ iso_strs self)) eqn:Hin.
  - apply bool_decide_eq_true in Hin. eexists. split; [reflexivity|].
    split; [|reflexivity]. split; [exact Hb|]. split; [|exact Hm].
    by intros v [= <-].
  - destruct (iso_map self !! iso) as [cached|] eqn:Hc.
    + eexists. split; [reflexivity|]. split; [|reflexivity].
      split; [exact Hb|]. split; [|exact Hm].
      intros v [= <-]. by eapply Hm.
    + destruct (int iso) as [n|]; cbn [of_option mbind res_bind].
      * pose proof (find_nearest_spec abs_diff_int (iso_ints self) (Some n)) as Hs.
        destruct (find_nearest abs_diff_int (iso_ints self) (Some n))
          as [[i x]|e].
        -- destruct Hs as (Hi & _).
           pose proof (mapM_lookup _ _ _ i Hb) as Hl.
           destruct (iso_strs self !! i) as [v|] eqn:Hv; [|congruence].
           cbn. eexists. split; [reflexivity|]. split; [|reflexivity].
           assert (v ∈ iso_strs self) by (by eapply list_elem_of_lookup_2).
           split; [exact Hb|]. split.
           ++ by intros v' [= <-].
           ++ intros k v' Hk. cbn in Hk.
              apply lookup_insert_Some in Hk as [[_ <-]|[_ Hk]]; [done|].
              by eapply Hm.
        -- destruct Hs as [-> _]. by exists self.
      * by exists self.
Qed.

(** Text of ASCII characters. *)
Definition ascii_text (s : string) : bool :=
  forallb (fun c => (N_of_ascii c <? 128)%N) (list_ascii_of_string s).

(** X26.  For a widget whose choices are texts of ASCII characters the
    constructor raises nothing, and every request that is such a text is
    answered: [select] raises nothing (the [ValueError] of [int] is
    caught, and the index returned by [find_nearest] is always within
    the list of choices), the list of choices is never changed, and the
    widget and the cache are only ever given values that are choices of
    the widget.  (A request that is [None] is outside this statement:
    [int(None)] raises [TypeError], which [select] does not catch.) *)
Theorem iso_select_keeps_to_choices (choices requests : list string) :
  Forall (fun s => ascii_text s = true) choices →
  Forall (fun s => ascii_text s = true) requests →
  ∃ self self',
    IsoController_init choices = Ok self
    ∧ iso_selects self requests = Some self'
    ∧ iso_strs self' = choices
    ∧ (∀ v, iso_widget_value self' = Some v → v ∈ choices)
    ∧ (∀ k v, iso_map self' !! k = Some v → v ∈ choices).
Proof.
  intros _ _.
  destruct (IsoController_init_ok choices) as (self & Hinit & Hb & Hs & Hm & Hw).
  assert (Hc : iso_consistent self).
  { split; [exact Hb|]. rewrite Hm, Hw. split; [done|].
    intros k v Hk. by rewrite lookup_empty in Hk. }
  assert (Hseq : ∀ (rs : list string) (c : IsoController),
             iso_consistent c →
             ∃ c', iso_selects c rs = Some c'
                   ∧ iso_consistent c' ∧ iso_strs c' = iso_strs c).
  { induction rs as [|iso rest IH]; intros c Hcc; [by exists c|].
    destruct (iso_select_consistent c iso Hcc) as (c1 & H1 & Hc1 & Hs1).
    destruct (IH c1 Hc1) as (c' & H2 & Hc' & Hs').
    exists c'. cbn [iso_selects]. rewrite H1. cbn.
    split; [exact H2|]. split; [exact Hc'|congruence]. }
  destruct (Hseq requests self Hc) as (self' & H1 & (_ & H2 & H3) & H4).
  exists self, self'. rewrite H4, Hs in H2, H3.
  split; [exact Hinit|]. split; [exact H1|]. split; [congruence|].
  split; [exact H2|exact H3].
Qed.

Lemma iso_select_keeps_to_choices_witness :
  ∃ self self',
    IsoController_init ["Auto"; "100"; "200"; "400"; "800"] = Ok self
    ∧ iso_selects self ["300"; "fast"; "300"; "12800"] = Some self'
    ∧ iso_strs self' = ["Auto"; "100"; "200"; "400"; "800"]
    ∧ (∀ v, iso_widget_value self' = Some v
            → v ∈ ["Auto"; "100"; "200"; "400"; "800"])
    ∧ (∀ k v, iso_map self' !! k = Some v
              → v ∈ ["Auto"; "100"; "200"; "400"; "800"]).
Proof.
  apply (iso_select_keeps_to_choices ["Auto"; "100"; "200"; "400"; "800"]
           ["300"; "fast"; "300"; "12800"]).
  - by repeat constructor.
  - by repeat constructor.
Defined.

(** ** [ApertureController] *)

(** Case analysis on a text that is matched against literals. *)
Ltac text_cases :=
  repeat (cbv beta iota;
          match goal with
          | |- context [match ?s with EmptyString => _ | String _ _ => _ end] =>
              is_var s; destruct s
          | |- context [match ?a with Ascii _ _ _ _ _ _ _ _ => _ end] =>
              is_var a; destruct a
          | |- context [match ?b with true => _ | false => _ end] =>
              is_var b; destruct b
          end).

Definition fstop_built (self : ApertureController) : Prop :=
  mapM _normalize_fstop (fstop_strs self) = Ok (fstop_norms self).

(** X27.  An aperture text that [_normalize_fstop] cannot handle (it
    logs an error and returns [None]: a text of three parts such as
    [f/1/8], or of two parts whose first is neither [f] nor [1], such as
    [F/8]) is not refused by [select].  Every choice is then infinitely
    far from the request, so [select] sets the widget to the first choice
    of the list, whatever it is, and remembers it for this request. *)
Theorem fstop_select_unhandled_sets_first (self : ApertureController)
  (fstop first : string) (rest : list string) :
  fstop_built self →
  fstop_strs self = first :: rest →
  fstop ∉ fstop_strs self → fstop_map self !! fstop = None →
  _normalize_fstop fstop = Ok None →
  fstop_select self fstop
  = Some {| fstop_strs := fstop_strs self; fstop_norms := fstop_norms self;
            fstop_map := <[fstop := first]> (fstop_map self);
            fstop_widget_value := Some first |}.
Proof.
  intros Hb Hs Hnot Hmap Hnorm.
  destruct (fstop_norms self) as [|x norms] eqn:Hn.
  { apply mapM_length in Hb. rewrite Hn, Hs in Hb. discriminate. }
  unfold fstop_select. rewrite bool_decide_eq_false_2 by done.
  rewrite Hmap, Hnorm. cbn [mbind res_bind]. rewrite Hn.
  unfold find_nearest. cbn [imap].
  rewrite min_from_all_inf by (intros [j y] _; unfold key; by destruct y).
  rewrite Hs. reflexivity.
Qed.

Lemma fstop_select_unhandled_sets_first_witness :
  let self := {| fstop_strs := ["f/2.8"; "f/4"; "f/8"];
                 fstop_norms := [Some 2.8%Q; Some 4%Q; Some 8%Q];
                 fstop_map := ∅; fstop_widget_value := None |} in
  fstop_select self "F/8"
  = Some {| fstop_strs := fstop_strs self; fstop_norms := fstop_norms self;
            fstop_map := <["F/8" := "f/2.8"]> (fstop_map self);
            fstop_widget_value := Some "f/2.8" |}.
Proof.
  cbv zeta.
  apply (fstop_select_unhandled_sets_first
           {| fstop_strs := ["f/2.8"; "f/4"; "f/8"];
              fstop_norms := [Some 2.8%Q; Some 4%Q; Some 8%Q];
              fstop_map := ∅; fstop_widget_value := None |}
           "F/8" "f/2.8" ["f/4"; "f/8"]).
  - reflexivity.
  - reflexivity.
  - intros Hin. by repeat (apply elem_of_cons in Hin as [Hin|Hin]; [discriminate|]);
      apply elem_of_nil in Hin.
  - reflexivity.
  - reflexivity.
Defined.

(** X28.  The three notations of an aperture are read alike: for a text
    [den] without a slash, [den], [f/den] and [1/den] all normalise to the
    number [den], and all raise [ValueError] when [den] is not a
    number. *)
Theorem _normalize_fstop_notations (den : string) :
  free_of "/" den = true →
  _normalize_fstop den = Some <$> of_option ValueError (float den)
  ∧ _normalize_fstop ("f/" +:+ den) = _normalize_fstop den
  ∧ _normalize_fstop ("1/" +:+ den) = _normalize_fstop den.
Proof.
  intros Hden.
  assert (H0 : _normalize_fstop den = Some <$> of_option ValueError (float den)).
  { unfold _normalize_fstop. rewrite (split_max_free _ _ _ Hden).
    clear Hden. generalize (Some <$> of_option ValueError (float den)).
    intros r. text_cases; reflexivity. }
  split; [exact H0|]. rewrite H0. split.
  - unfold _normalize_fstop.
    change ("f/" +:+ den) with ("f" +:+ String "/" den).
    rewrite split_max_free_sep by reflexivity.
    by rewrite (split_max_free _ _ _ Hden).
  - unfold _normalize_fstop.
    change ("1/" +:+ den) with ("1" +:+ String "/" den).
    rewrite split_max_free_sep by reflexivity.
    by rewrite (split_max_free _ _ _ Hden).
Qed.

Lemma _normalize_fstop_notations_witness :
  _normalize_fstop "5.6" = Some <$> of_option ValueError (float "5.6")
  ∧ _normalize_fstop ("f/" +:+ "5.6") = _normalize_fstop "5.6"
  ∧ _normalize_fstop ("1/" +:+ "5.6") = _normalize_fstop "5.6".
Proof.
  apply (_normalize_fstop_notations "5.6"). reflexivity.
Defined.

End ControllersFacts.

(** * Facts about the logging level of [main] *)
Module MainFacts.
Import Main.

(** X29.  The verbosity is capped at the length of the list of levels,
    which is one past its last index: with three or more [-v] flags
    [main] raises [IndexError] when it sets the logging level, before it
    does anything else.  Up to two flags select [WARN], [INFO] and
    [DEBUG]. *)
Theorem log_level_out_of_range (verbose : nat) :
  (log_level verbose = None ↔ (3 ≤ verbose)%nat)
  ∧ log_level 0 = Some WARN ∧ log_level 1 = Some INFO
  ∧ log_level 2 = Some DEBUG.
Proof.
  split; [|by repeat split].
  unfold log_level. cbv zeta. rewrite lookup_ge_None.
  change (length LEVELS) with 3%nat. lia.
Qed.

End MainFacts.
